(** * A shallow embedding of [advanced-vector/vector.h]

    The header defines two class templates: [RawMemory<T>], which owns a block
    of raw storage for a number of [T] slots, and [Vector<T>], which keeps the
    first [size_] slots of its [RawMemory] alive as [T] objects.

    ** Modelling choices

    - The counts of objects ([size_], [capacity_], an index, an argument of
      type [size_t]) are [nat].  [size_t] has 64 bits.  The one product the
      header computes in [size_t], [n * sizeof(T)] in [Allocate], is written
      out modulo [2^64]: [Reserve], [Resize] and [Vector(size)] pass a number
      chosen by the caller to it, and a block too small for that number is
      what they get when the product wraps.  Where the header passes a
      number it computed from the size of a vector that is in memory
      ([size_ * 2], [other.size_]) the product cannot wrap, because no object
      occupies more than [PTRDIFF_MAX = 2^63 - 1] bytes; those calls are
      [RawMemory_new_fitting].
    - [operator new] is modelled as always succeeding ([std::bad_alloc] is
      outside the model); every call returns a block never returned before.
    - A [T*] is a block identifier (or null) and a slot offset in the block.
    - The heap maps a block to its slots; a slot is raw ([None]) or holds a
      live object ([Some v]).  Releasing a block whose slots still hold live
      objects records them in [leaked]: their destructor was never run.
    - The element type is a parameter: its special member functions are the
      fields of [ElemOps].  A constructor or assignment either completes or
      throws; moving returns the new object together with whatever is left
      in the moved-from one.
    - A member function is a computation over the state of [*this] and the
      heap.  It ends normally ([Ok]), by an exception that reaches the caller
      ([Throw], the state being the one after unwinding), or in undefined
      behaviour ([Fault]: a failed [assert], an access to a raw slot, ...). *)

From Stdlib Require Import Lia String.
From stdpp Require Import base numbers option list.

Set Default Proof Using "Type".

(** ** Outcomes and the state-and-exception monad *)

Inductive outcome (A : Type) : Type :=
  | Ok (a : A)
  | Throw
  | Fault.
Arguments Ok {A} a.
Arguments Throw {A}.
Arguments Fault {A}.

Definition M (S A : Type) : Type := S -> outcome A * S.

Definition ret {S A : Type} (a : A) : M S A := fun s => (Ok a, s).

Definition bind {S A B : Type} (m : M S A) (f : A -> M S B) : M S B :=
  fun s =>
    match m s with
    | (Ok a, s') => f a s'
    | (Throw, s') => (Throw, s')
    | (Fault, s') => (Fault, s')
    end.

Definition fault {S A : Type} : M S A := fun s => (Fault, s).

(** The result of a pure operation of the element type, as a computation. *)
Definition pure_of {S A : Type} (r : outcome A) : M S A := fun s => (r, s).

(** [assert(c)] of [<cassert>]. *)
Definition assert {S : Type} (c : bool) : M S unit :=
  if c then ret tt else fault.

(** [on_throw m cleanup]: what [try { m } catch (...) { cleanup; throw; }]
    does, and what a local object's destructor [cleanup] does while an
    exception from [m] unwinds the stack.  [cleanup] is [noexcept]. *)
Definition on_throw {S A : Type} (m : M S A) (cleanup : M S unit) : M S A :=
  fun s =>
    match m s with
    | (Throw, s') =>
        match cleanup s' with
        | (Ok _, s'') => (Throw, s'')
        | (_, s'') => (Fault, s'')
        end
    | r => r
    end.

Notation "'let*' x ':=' m 'in' k" := (bind m (fun x => k))
  (at level 10, x pattern, m at level 100, k at level 200).
Notation "m ';;;' k" := (bind m (fun _ => k))
  (at level 100, k at level 200, right associativity).

(** ** The element type *)

(** The number of values of [size_t]; its arithmetic is modulo this number. *)
Definition size_t_range : N := (2 ^ 64)%N.

Record ElemOps (T : Type) : Type := {
  (** [std::is_nothrow_move_constructible_v<T>] *)
  is_nothrow_move_constructible : bool;
  (** [std::is_copy_constructible_v<T>] *)
  is_copy_constructible : bool;
  (** [std::is_trivially_copyable_v<T>]: the library may then copy a range of
      objects as bytes ([memmove]) instead of calling the operations below,
      which for such a type are the bytewise copy. *)
  is_trivially_copyable : bool;
  (** [sizeof(T)], in bytes *)
  sizeof_T : N;
  sizeof_T_range : (0 < sizeof_T < size_t_range)%N;
  (** [T()]: what the [i]-th default construction of an operation gives,
      counted from 0.  A default constructor has no argument, but it may
      depend on state outside the container (a count of instances, say), so
      it need not do the same at every call. *)
  value_init : nat -> outcome T;
  (** [T(const T&)] *)
  copy_ctor : T -> outcome T;
  (** [T(T&&)]: the new object, and the state left in the source. *)
  move_ctor : T -> outcome (T * T);
  (** [lhs = rhs]: the new state of [lhs]. *)
  copy_assign : T -> T -> outcome T;
  (** [lhs = std::move(rhs)]: the new state of [lhs] and the one left in [rhs]. *)
  move_assign : T -> T -> outcome (T * T)
}.
Arguments is_nothrow_move_constructible {T} _.
Arguments is_copy_constructible {T} _.
Arguments is_trivially_copyable {T} _.
Arguments sizeof_T {T} _.
Arguments sizeof_T_range {T} _.
Arguments value_init {T} _ _.

(** [n * sizeof(T)] as [Allocate] computes it, in [size_t]. *)
Definition alloc_bytes {T : Type} (ops : ElemOps T) (n : nat) : N :=
  (N.of_nat n * sizeof_T ops) mod size_t_range.

(** The number of objects of type [T] for which that many bytes have room. *)
Definition alloc_slots {T : Type} (ops : ElemOps T) (n : nat) : nat :=
  N.to_nat (alloc_bytes ops n / sizeof_T ops).

(** [n * sizeof(T)] does not wrap. *)
Definition fits {T : Type} (ops : ElemOps T) (n : nat) : Prop :=
  (N.of_nat n * sizeof_T ops < size_t_range)%N.
Arguments copy_ctor {T} _ _.
Arguments move_ctor {T} _ _.
Arguments copy_assign {T} _ _ _.
Arguments move_assign {T} _ _ _.

(** ** Pointers *)

Record pointer : Type := { blk : option nat; off : nat }.

Definition nullptr : pointer := {| blk := None; off := 0 |}.

Definition ptr_add (p : pointer) (n : nat) : pointer :=
  {| blk := blk p; off := off p + n |}.

Definition ptr_sub (p : pointer) (n : nat) : pointer :=
  {| blk := blk p; off := off p - n |}.

(** [p - q] for two pointers into one block. *)
Definition ptr_diff (p q : pointer) : nat := off p - off q.

(** [q <= p] for pointers into one block. *)
Definition ptr_leb (q p : pointer) : bool :=
  bool_decide (blk p = blk q) && (off q <=? off p).

(** A reference argument of a member function: the object the member is
    called on, or another object, given by its state. *)
Inductive reference (A : Type) : Type :=
  | Self
  | Other (a : A).
Arguments Self {A}.
Arguments Other {A} a.

(** ** RawMemory *)

Record RawMemory : Type := { buffer_ : pointer; capacity_ : nat }.

Module RawMem.

(** [RawMemory() = default] *)
Definition default : RawMemory := {| buffer_ := nullptr; capacity_ := 0 |}.

(** [void Swap(RawMemory& other) noexcept]: the states of [*this] and of
    [other] afterwards. *)
Definition Swap (this other : RawMemory) : RawMemory * RawMemory :=
  ({| buffer_ := buffer_ other; capacity_ := capacity_ other |},
   {| buffer_ := buffer_ this; capacity_ := capacity_ this |}).

(** [RawMemory(RawMemory&& other) noexcept]: the new object and [other]. *)
Definition move_construct (other : RawMemory) : RawMemory * RawMemory :=
  Swap {| buffer_ := nullptr; capacity_ := 0 |} other.

(** [RawMemory& operator=(RawMemory&& rhs) noexcept] *)
Definition move_assign (this : RawMemory) (rhs : reference RawMemory)
  : RawMemory * reference RawMemory :=
  match rhs with
  | Other r => let '(this', r') := Swap this r in (this', Other r')
  | Self => (this, Self)
  end.

(** [T* GetAddress() noexcept] *)
Definition GetAddress (this : RawMemory) : pointer := buffer_ this.

(** [size_t Capacity() const] *)
Definition Capacity (this : RawMemory) : nat := capacity_ this.

(** The empty state: null address, capacity 0. *)
Definition is_empty (r : RawMemory) : Prop :=
  buffer_ r = nullptr /\ capacity_ r = 0.

End RawMem.

(** ** The heap *)

Record Heap (T : Type) : Type := {
  (** block identifier -> slots of the block; [None] once released *)
  blocks : list (option (list (option T)));
  (** objects whose storage was released while they were alive *)
  leaked : list T
}.
Arguments blocks {T} _.
Arguments leaked {T} _.

Section Memory.
Context {T : Type}.

Definition empty_heap : Heap T := {| blocks := []; leaked := [] |}.

Definition block_of (h : Heap T) (p : pointer) : option (list (option T)) :=
  match blk p with
  | Some b =>
      match blocks h !! b with
      | Some (Some s) => Some s
      | _ => None
      end
  | None => None
  end.

Definition set_slot (p : pointer) (s : list (option T)) (x : option T)
    (h : Heap T) : Heap T :=
  match blk p with
  | Some b => {| blocks := <[b := Some (<[off p := x]> s)]> (blocks h);
                 leaked := leaked h |}
  | None => h
  end.

(** [operator new(bytes)] for a number of bytes that has room for [n] objects:
    a new block of [n] raw slots.  A request for 0 bytes also gives a block of
    its own, with no slot. *)
Definition operator_new (n : nat) : M (Heap T) pointer :=
  fun h =>
    (Ok {| blk := Some (length (blocks h)); off := 0 |},
     {| blocks := blocks h ++ [Some (replicate n None)]; leaked := leaked h |}).

(** [operator delete(p)]: nothing for a null pointer; otherwise [p] must be
    the start of a block not yet released. *)
Definition operator_delete (p : pointer) : M (Heap T) unit :=
  fun h =>
    match blk p with
    | None => (Ok tt, h)
    | Some b =>
        match block_of h p with
        | Some s =>
            if off p =? 0
            then (Ok tt, {| blocks := <[b := None]> (blocks h);
                            leaked := leaked h ++ omap id s |})
            else (Fault, h)
        | None => (Fault, h)
        end
    end.

(** Reading the object [*p]: the slot must hold a live object. *)
Definition read (p : pointer) : M (Heap T) T :=
  fun h =>
    match block_of h p with
    | Some s =>
        match s !! off p with
        | Some (Some v) => (Ok v, h)
        | _ => (Fault, h)
        end
    | None => (Fault, h)
    end.

(** Giving the live object [*p] the state [v]. *)
Definition write (p : pointer) (v : T) : M (Heap T) unit :=
  fun h =>
    match block_of h p with
    | Some s =>
        match s !! off p with
        | Some (Some _) => (Ok tt, set_slot p s (Some v) h)
        | _ => (Fault, h)
        end
    | None => (Fault, h)
    end.

(** The end of a placement [new (p) T(...)] whose constructor produced [v]:
    the slot must be raw. *)
Definition construct_at (p : pointer) (v : T) : M (Heap T) unit :=
  fun h =>
    match block_of h p with
    | Some s =>
        match s !! off p with
        | Some None => (Ok tt, set_slot p s (Some v) h)
        | _ => (Fault, h)
        end
    | None => (Fault, h)
    end.

(** [new (p) T(args...)], [ctor] being what the constructor call [T(args...)]
  gives.  The value of the expression is [p]. *)
Definition placement_new (p : pointer) (ctor : outcome T) : M (Heap T) pointer :=
let* v := pure_of ctor in
construct_at p v ;;;
ret p.

(** [std::destroy_at(p)], [p->~T()]: the slot becomes raw. *)
Definition destroy_at (p : pointer) : M (Heap T) unit :=
  fun h =>
    match block_of h p with
    | Some s =>
        match s !! off p with
        | Some (Some _) => (Ok tt, set_slot p s None h)
        | _ => (Fault, h)
        end
    | None => (Fault, h)
    end.

(** [std::destroy_n(first, n)] *)
Fixpoint destroy_n (first : pointer) (n : nat) : M (Heap T) unit :=
  match n with
  | 0 => ret tt
  | S n' => destroy_at first ;;; destroy_n (ptr_add first 1) n'
  end.

(** [std::destroy(first, last)] *)
Definition destroy (first last : pointer) : M (Heap T) unit :=
  destroy_n first (ptr_diff last first).

(** [static T* Allocate(size_t n)].  The argument of [operator new] is the
    product [n * sizeof(T)], computed in [size_t] and not checked: the block
    has room for [alloc_slots ops n] objects, which is [n] when the product
    does not wrap and less when it does. *)
Definition Allocate (ops : ElemOps T) (n : nat) : M (Heap T) pointer :=
  if negb (n =? 0) then operator_new (alloc_slots ops n) else ret nullptr.

(** [Allocate(n)] where [n * sizeof(T)] does not wrap: the block has room for
    [n] objects. *)
Definition Allocate_fitting (n : nat) : M (Heap T) pointer :=
  if negb (n =? 0) then operator_new n else ret nullptr.

(** [static void Deallocate(T* buf) noexcept] *)
Definition Deallocate (buf : pointer) : M (Heap T) unit :=
  operator_delete buf.

(** [explicit RawMemory(size_t capacity)] *)
Definition RawMemory_new (ops : ElemOps T) (capacity : nat) : M (Heap T) RawMemory :=
  let* buffer := Allocate ops capacity in
  ret {| buffer_ := buffer; capacity_ := capacity |}.

(** [RawMemory(capacity)] at the calls of the header whose argument is 0 or is
    computed from the size of a vector that is in memory, [size_ * 2] and
    [other.size_].  A buffer that holds [size_] objects has
    [size_ * sizeof(T) <= PTRDIFF_MAX = 2^63 - 1], so neither product wraps. *)
Definition RawMemory_new_fitting (capacity : nat) : M (Heap T) RawMemory :=
  let* buffer := Allocate_fitting capacity in
  ret {| buffer_ := buffer; capacity_ := capacity |}.

(** [~RawMemory()] *)
Definition RawMemory_delete (this : RawMemory) : M (Heap T) unit :=
  Deallocate (buffer_ this).

(** The object a reference argument stands for. *)
Definition deref {A : Type} (this : A) (r : reference A) : A :=
  match r with
  | Self => this
  | Other a => a
  end.

(** [std::swap(a, b)] on two distinct [RawMemory] objects:
    [RawMemory tmp(std::move(a)); a = std::move(b); b = std::move(tmp);]
    and then [tmp] goes out of scope. *)
Definition swap_RawMemory (a b : RawMemory) : M (Heap T) (RawMemory * RawMemory) :=
  let '(tmp, a) := RawMem.move_construct a in
  let '(a, rb) := RawMem.move_assign a (Other b) in
  let b := deref a rb in
  let '(b, rtmp) := RawMem.move_assign b (Other tmp) in
  let tmp := deref b rtmp in
  RawMemory_delete tmp ;;;
  ret (a, b).

End Memory.

(** ** Standard algorithms on raw storage

    The functions of [<memory>] and [<algorithm>] that the header calls,
    modelled from what the C++ standard specifies for them: the
    [uninitialized_*] algorithms construct left to right and, when a
    constructor throws, destroy what they constructed before the exception
    goes on. *)

Section Algorithms.
Context {T : Type} (ops : ElemOps T).

(** Placement new of a copy of the object at [src] into the slot [dst]. *)
Definition copy_construct_at (dst src : pointer) : M (Heap T) unit :=
  let* x := read src in
  let* y := pure_of (copy_ctor ops x) in
  construct_at dst y.

(** Placement new into the slot [dst], move-constructing from the object at [src]. *)
Definition move_construct_at (dst src : pointer) : M (Heap T) unit :=
  let* x := read src in
  let* (y, x') := pure_of (move_ctor ops x) in
  write src x' ;;;
  construct_at dst y.

(** [new (dst) T()], for the [i]-th default construction of the operation. *)
Definition value_construct_at (i : nat) (dst : pointer) : M (Heap T) unit :=
  let* y := pure_of (value_init ops i) in
  construct_at dst y.

(** Copy assignment of the object at [src] to the object at [dst]. *)
Definition copy_assign_at (dst src : pointer) : M (Heap T) unit :=
  let* d := read dst in
  let* x := read src in
  let* d' := pure_of (copy_assign ops d x) in
  write dst d'.

(** Move assignment of the object at [src] to the object at [dst]. *)
Definition move_assign_at (dst src : pointer) : M (Heap T) unit :=
  let* d := read dst in
  let* x := read src in
  let* (d', x') := pure_of (move_assign ops d x) in
  write src x' ;;;
  write dst d'.

(** [std::uninitialized_copy_n(first, n, result)]: the loop constructs at
    [cur]; when a constructor throws, the objects of [[result, cur)] are
    destroyed and the exception goes on. *)
Fixpoint uninitialized_copy_from (first : pointer) (n : nat) (result cur : pointer)
    : M (Heap T) unit :=
  match n with
  | 0 => ret tt
  | S n' =>
      on_throw (copy_construct_at cur first) (destroy result cur) ;;;
      uninitialized_copy_from (ptr_add first 1) n' result (ptr_add cur 1)
  end.

Definition uninitialized_copy_n (first : pointer) (n : nat) (result : pointer)
    : M (Heap T) unit :=
  uninitialized_copy_from first n result result.

(** [std::uninitialized_move_n(first, n, result)] *)
Fixpoint uninitialized_move_from (first : pointer) (n : nat) (result cur : pointer)
    : M (Heap T) unit :=
  match n with
  | 0 => ret tt
  | S n' =>
      on_throw (move_construct_at cur first) (destroy result cur) ;;;
      uninitialized_move_from (ptr_add first 1) n' result (ptr_add cur 1)
  end.

Definition uninitialized_move_n (first : pointer) (n : nat) (result : pointer)
    : M (Heap T) unit :=
  uninitialized_move_from first n result result.

(** [std::uninitialized_value_construct_n(first, n)]: the object at [cur] is
    the [cur - first]-th that the call constructs. *)
Fixpoint uninitialized_value_construct_from (n : nat) (first cur : pointer)
    : M (Heap T) unit :=
  match n with
  | 0 => ret tt
  | S n' =>
      on_throw (value_construct_at (ptr_diff cur first) cur) (destroy first cur) ;;;
      uninitialized_value_construct_from n' first (ptr_add cur 1)
  end.

Definition uninitialized_value_construct_n (first : pointer) (n : nat)
    : M (Heap T) unit :=
  uninitialized_value_construct_from n first first.

(** [std::move_backward(first, last, d_last)]: move-assigns the objects of
    [[first, last)], last to first, to the slots that end at [d_last]. *)
Fixpoint move_backward_loop (n : nat) (last d_last : pointer) : M (Heap T) unit :=
  match n with
  | 0 => ret tt
  | S n' =>
      move_assign_at (ptr_sub d_last 1) (ptr_sub last 1) ;;;
      move_backward_loop n' (ptr_sub last 1) (ptr_sub d_last 1)
  end.

(** The standard asks for [first <= last].  [Emplace] at [end()] calls
    [std::move_backward] with [last] one slot before [first], and what happens
    then is what libstdc++ does.  For a type that is not trivially copyable it
    runs the loop [for (n = last - first; n > 0; --n)]: the signed difference
    is negative, the body never runs, and the truncated difference of
    [ptr_diff] reproduces that.  For a trivially copyable type it hands the
    difference to [memmove] as a number of bytes, close to [2^64]: undefined
    behaviour. *)
Definition move_backward (first last d_last : pointer) : M (Heap T) unit :=
  if is_trivially_copyable ops && (off last <? off first) then fault
  else move_backward_loop (ptr_diff last first) last d_last.

(** [std::move(first, last, d_first)], the algorithm of [<algorithm>]:
    move-assigns the objects of [[first, last)], first to last, to the slots
    that start at [d_first]. *)
Fixpoint move_loop (n : nat) (first d_first : pointer) : M (Heap T) unit :=
  match n with
  | 0 => ret tt
  | S n' =>
      move_assign_at d_first first ;;;
      move_loop n' (ptr_add first 1) (ptr_add d_first 1)
  end.

(** [Erase] at [end()] calls [std::move] with [last] one slot before
    [first]; as for [std::move_backward], libstdc++ then does nothing for a
    type that is not trivially copyable and calls [memmove] with close to
    [2^64] bytes for one that is. *)
Definition std_move (first last d_first : pointer) : M (Heap T) unit :=
  if is_trivially_copyable ops && (off last <? off first) then fault
  else move_loop (ptr_diff last first) first d_first.

End Algorithms.

(** ** Vector *)

Record Vector : Type := { data_ : RawMemory; size_ : nat }.

(** [size_t Size() const noexcept] *)
Definition Size (this : Vector) : nat := size_ this.

(** [size_t Capacity() const noexcept] *)
Definition Capacity (this : Vector) : nat := RawMem.Capacity (data_ this).

(** [iterator begin() noexcept] *)
Definition begin (this : Vector) : pointer := RawMem.GetAddress (data_ this).

(** [iterator end() noexcept] *)
Definition end_ (this : Vector) : pointer :=
  ptr_add (RawMem.GetAddress (data_ this)) (size_ this).

(** [Vector() = default] *)
Definition Vector_default : Vector := {| data_ := RawMem.default; size_ := 0 |}.

Section VectorOps.
Context {T : Type} (ops : ElemOps T).

(** The state a member function of [Vector<T>] runs in: [*this] and the heap. *)
Definition St : Type := Vector * Heap T.

Definition in_heap {A : Type} (m : M (Heap T) A) : M St A :=
  fun s =>
    match m (snd s) with
    | (r, h') => (r, (fst s, h'))
    end.

Definition this : M St Vector := fun s => (Ok (fst s), s).

Definition set_data (d : RawMemory) : M St unit :=
  fun s => (Ok tt, ({| data_ := d; size_ := size_ (fst s) |}, snd s)).

Definition set_size (n : nat) : M St unit :=
  fun s => (Ok tt, ({| data_ := data_ (fst s); size_ := n |}, snd s)).

(** A call of the member function [m] on the object [obj]. *)
Definition call {A : Type} (m : M St A) (obj : Vector) : M (Heap T) (A * Vector) :=
  fun h =>
    match m (obj, h) with
    | (Ok a, (obj', h')) => (Ok (a, obj'), h')
    | (Throw, (_, h')) => (Throw, h')
    | (Fault, (_, h')) => (Fault, h')
    end.

(** [void Uninitialized_Move_Or_Copy_N(iterator begin, size_t size, iterator new_begin)] *)
Definition Uninitialized_Move_Or_Copy_N (begin : pointer) (size : nat)
    (new_begin : pointer) : M (Heap T) unit :=
  if is_nothrow_move_constructible ops || negb (is_copy_constructible ops)
  then uninitialized_move_n ops begin size new_begin
  else uninitialized_copy_n ops begin size new_begin.

(** [explicit Vector(size_t size)].  When the body throws, the member [data_],
    already constructed, is destroyed. *)
Definition Vector_sized (size : nat) : M (Heap T) Vector :=
  let* data := RawMemory_new ops size in
  on_throw (uninitialized_value_construct_n ops (RawMem.GetAddress data) size)
           (RawMemory_delete data) ;;;
  ret {| data_ := data; size_ := size |}.

(** [Vector(const Vector& other)] *)
Definition Vector_copy (other : Vector) : M (Heap T) Vector :=
  let* data := RawMemory_new_fitting (size_ other) in
  on_throw (uninitialized_copy_n ops (RawMem.GetAddress (data_ other)) (size_ other)
              (RawMem.GetAddress data))
           (RawMemory_delete data) ;;;
  ret {| data_ := data; size_ := size_ other |}.

(** [~Vector()], followed by the destruction of the member [data_]. *)
Definition Vector_delete (v : Vector) : M (Heap T) unit :=
  destroy_n (RawMem.GetAddress (data_ v)) (size_ v) ;;;
  RawMemory_delete (data_ v).

(** [void Swap(Vector& other) noexcept], for [other] an object other than
    [*this]; the value is the state of [other] afterwards. *)
Definition Swap (other : Vector) : M St Vector :=
  let* v := this in
  let* (d, od) := in_heap (swap_RawMemory (data_ v) (data_ other)) in
  set_data d ;;;
  set_size (size_ other) ;;;
  ret {| data_ := od; size_ := size_ v |}.

(** [Vector(Vector&& other) noexcept]: the new object and the state of [other]. *)
Definition Vector_move (other : Vector) : M (Heap T) (Vector * Vector) :=
  let* data := RawMemory_new_fitting 0 in
  let* (other', v) := call (Swap other) {| data_ := data; size_ := 0 |} in
  ret (v, other').

(** [T& operator[](size_t index) noexcept]: the address of the element. *)
Definition operator_index (index : nat) : M St pointer :=
  let* v := this in
  assert (index <? size_ v) ;;;
  ret (ptr_add (buffer_ (data_ v)) index).

(** The value read through [operator[]]. *)
Definition element (index : nat) : M St T :=
  let* p := operator_index index in
  in_heap (read p).

(** [void Reserve(size_t new_capacity)].  Only the relocation can throw, and
    it comes before [new_data] is swapped: the destructor that runs during
    unwinding sees [new_data] as it was allocated. *)
Definition Reserve (new_capacity : nat) : M St unit :=
  let* v := this in
  if new_capacity <=? RawMem.Capacity (data_ v) then ret tt
  else
    let* new_data := in_heap (RawMemory_new ops new_capacity) in
    on_throw
      (in_heap (Uninitialized_Move_Or_Copy_N (RawMem.GetAddress (data_ v)) (size_ v)
                  (RawMem.GetAddress new_data)))
      (in_heap (RawMemory_delete new_data)) ;;;
    in_heap (destroy_n (RawMem.GetAddress (data_ v)) (size_ v)) ;;;
    let '(d, new_data) := RawMem.Swap (data_ v) new_data in
    set_data d ;;;
    in_heap (RawMemory_delete new_data).

(** [void Resize(size_t new_size)] *)
Definition Resize (new_size : nat) : M St unit :=
  Reserve new_size ;;;
  let* v := this in
  (if new_size <? size_ v then
     in_heap (destroy_n (ptr_add (RawMem.GetAddress (data_ v)) new_size)
                (size_ v - new_size))
   else if size_ v <? new_size then
     in_heap (uninitialized_value_construct_n ops
                (ptr_add (RawMem.GetAddress (data_ v)) (size_ v)) (new_size - size_ v))
   else ret tt) ;;;
  set_size new_size.

(** [T& EmplaceBack(Args&&... args)], [ctor] being what [T(args...)] gives;
    the value is the address of the new last element. *)
Definition EmplaceBack (ctor : outcome T) : M St pointer :=
  let* v := this in
  (if size_ v =? Capacity v then
     if size_ v =? 0 then
       Reserve 1 ;;;
       let* v := this in
       in_heap (placement_new (ptr_add (RawMem.GetAddress (data_ v)) (size_ v)) ctor) ;;;
       ret tt
     else
       let* new_data := in_heap (RawMemory_new_fitting (size_ v * 2)) in
       on_throw
         (in_heap
            (placement_new (ptr_add (RawMem.GetAddress new_data) (size_ v)) ctor ;;;
             Uninitialized_Move_Or_Copy_N (RawMem.GetAddress (data_ v)) (size_ v)
               (RawMem.GetAddress new_data)))
         (in_heap (RawMemory_delete new_data)) ;;;
       in_heap (destroy_n (RawMem.GetAddress (data_ v)) (size_ v)) ;;;
       let '(d, new_data) := RawMem.Swap (data_ v) new_data in
       set_data d ;;;
       in_heap (RawMemory_delete new_data)
   else
     in_heap (placement_new (ptr_add (RawMem.GetAddress (data_ v)) (size_ v)) ctor) ;;;
     ret tt) ;;;
  let* v := this in
  set_size (size_ v + 1) ;;;
  let* v := this in
  ret (ptr_add (buffer_ (data_ v)) (size_ v - 1)).

(** [void PushBack(const T& value)] *)
Definition PushBack (value : T) : M St unit :=
  let* v := this in
  (if size_ v =? Capacity v then
     if size_ v =? 0 then
       Reserve 1 ;;;
       let* v := this in
       in_heap (placement_new (ptr_add (RawMem.GetAddress (data_ v)) (size_ v))
                  (copy_ctor ops value)) ;;;
       ret tt
     else
       let* new_data := in_heap (RawMemory_new_fitting (size_ v * 2)) in
       on_throw
         (in_heap
            (placement_new (ptr_add (RawMem.GetAddress new_data) (size_ v))
               (copy_ctor ops value) ;;;
             Uninitialized_Move_Or_Copy_N (RawMem.GetAddress (data_ v)) (size_ v)
               (RawMem.GetAddress new_data)))
         (in_heap (RawMemory_delete new_data)) ;;;
       in_heap (destroy_n (RawMem.GetAddress (data_ v)) (size_ v)) ;;;
       let '(d, new_data) := RawMem.Swap (data_ v) new_data in
       set_data d ;;;
       in_heap (RawMemory_delete new_data)
   else
     in_heap (placement_new (ptr_add (RawMem.GetAddress (data_ v)) (size_ v))
                (copy_ctor ops value)) ;;;
     ret tt) ;;;
  let* v := this in
  set_size (size_ v + 1).

(** What [T(std::move(value))] constructs. *)
Definition moved (value : T) : outcome T :=
  match move_ctor ops value with
  | Ok (y, _) => Ok y
  | Throw => Throw
  | Fault => Fault
  end.

(** [void PushBack(T&& value)].  [value] is an object outside the vector; the
    state the move leaves in it is not part of the result. *)
Definition PushBack_move (value : T) : M St unit :=
  let* v := this in
  (if size_ v =? Capacity v then
     if size_ v =? 0 then
       Reserve 1 ;;;
       let* v := this in
       in_heap (placement_new (ptr_add (RawMem.GetAddress (data_ v)) (size_ v))
                  (moved value)) ;;;
       ret tt
     else
       let* new_data := in_heap (RawMemory_new_fitting (size_ v * 2)) in
       on_throw
         (in_heap
            (placement_new (ptr_add (RawMem.GetAddress new_data) (size_ v))
               (moved value) ;;;
             Uninitialized_Move_Or_Copy_N (RawMem.GetAddress (data_ v)) (size_ v)
               (RawMem.GetAddress new_data)))
         (in_heap (RawMemory_delete new_data)) ;;;
       in_heap (destroy_n (RawMem.GetAddress (data_ v)) (size_ v)) ;;;
       let '(d, new_data) := RawMem.Swap (data_ v) new_data in
       set_data d ;;;
       in_heap (RawMemory_delete new_data)
   else
     in_heap (placement_new (ptr_add (RawMem.GetAddress (data_ v)) (size_ v))
                (moved value)) ;;;
     ret tt) ;;;
  let* v := this in
  set_size (size_ v + 1).

(** [void PopBack()] *)
Definition PopBack : M St unit :=
  let* v := this in
  if 0 <? size_ v then
    in_heap (destroy_at (ptr_sub (ptr_add (RawMem.GetAddress (data_ v)) (size_ v)) 1)) ;;;
    set_size (size_ v - 1)
  else ret tt.

(** Move assignment of the local object [temp] to the object at [dst]. *)
Definition move_assign_from (dst : pointer) (temp : T) : M (Heap T) unit :=
  let* d := read dst in
  let* (d', _) := pure_of (move_assign ops d temp) in
  write dst d'.

(** [iterator Emplace(const_iterator pos, Args&&... args)], [ctor] being what
    [T(args...)] gives.  In the branch that allocates, everything that can
    throw comes before [new_data] is swapped. *)
Definition Emplace (pos : pointer) (ctor : outcome T) : M St pointer :=
  let* v := this in
  assert (ptr_leb (begin v) pos && ptr_leb pos (end_ v)) ;;;
  let pos_num := ptr_diff pos (begin v) in
  let* elem_pos :=
    (if size_ v =? Capacity v then
       if size_ v =? 0 then
         Reserve 1 ;;;
         let* v := this in
         in_heap (placement_new (end_ v) ctor)
       else
         let* new_data := in_heap (RawMemory_new_fitting (size_ v * 2)) in
         let* elem_pos :=
           on_throw
             (in_heap
                (let* elem_pos :=
                   placement_new (ptr_add (RawMem.GetAddress new_data) pos_num) ctor in
                 Uninitialized_Move_Or_Copy_N (begin v) pos_num
                   (RawMem.GetAddress new_data) ;;;
                 Uninitialized_Move_Or_Copy_N (ptr_add (begin v) pos_num)
                   (size_ v - pos_num)
                   (ptr_add (RawMem.GetAddress new_data) (pos_num + 1)) ;;;
                 ret elem_pos))
             (in_heap (RawMemory_delete new_data)) in
         in_heap (destroy_n (begin v) (size_ v)) ;;;
         let '(d, new_data) := RawMem.Swap (data_ v) new_data in
         set_data d ;;;
         in_heap (RawMemory_delete new_data) ;;;
         ret elem_pos
     else
       if negb (size_ v =? 0) then
         let* temp := pure_of ctor in
         in_heap (move_construct_at ops (end_ v) (ptr_sub (end_ v) 1)) ;;;
         in_heap (move_backward ops (ptr_add (begin v) pos_num) (ptr_sub (end_ v) 1)
                    (end_ v)) ;;;
         let elem_pos := ptr_add (begin v) pos_num in
         in_heap (move_assign_from elem_pos temp) ;;;
         ret elem_pos
       else
         in_heap (placement_new (ptr_add (begin v) pos_num) ctor)) in
  let* v := this in
  set_size (size_ v + 1) ;;;
  ret elem_pos.

(** [iterator Insert(const_iterator pos, const T& value)] *)
Definition Insert (pos : pointer) (value : T) : M St pointer :=
  Emplace pos (copy_ctor ops value).

(** [iterator Insert(const_iterator pos, T&& value)] *)
Definition Insert_move (pos : pointer) (value : T) : M St pointer :=
  Emplace pos (moved value).

(** [iterator Erase(const_iterator pos)] *)
Definition Erase (pos : pointer) : M St pointer :=
  let* v := this in
  assert (ptr_leb (begin v) pos && ptr_leb pos (end_ v)) ;;;
  let elem_pos := ptr_add (begin v) (ptr_diff pos (begin v)) in
  in_heap (std_move ops (ptr_add elem_pos 1) (end_ v) elem_pos) ;;;
  in_heap (destroy_at (ptr_sub (end_ v) 1)) ;;;
  set_size (size_ v - 1) ;;;
  ret elem_pos.

(** The loop of the copy assignment that reuses the storage:
    [for (size_t i = 0; i < size_; ++i)], [n] iterations being left. *)
Fixpoint assign_loop (v rhs : Vector) (i n : nat) : M (Heap T) unit :=
  match n with
  | 0 => ret tt
  | S n' =>
      (if i <? Size rhs then
         copy_assign_at ops (ptr_add (buffer_ (data_ v)) i) (ptr_add (buffer_ (data_ rhs)) i)
       else
         destroy_at (ptr_add (buffer_ (data_ v)) i)) ;;;
      assign_loop v rhs (i + 1) n'
  end.

(** [Vector& operator=(const Vector& rhs)].  [rhs_copy] lives in the inner
    block and is destroyed at its end. *)
Definition operator_assign (rhs : reference Vector) : M St unit :=
  match rhs with
  | Self => ret tt
  | Other rhs =>
      let* v := this in
      (if RawMem.Capacity (data_ v) <? Size rhs then
         let* rhs_copy := in_heap (Vector_copy rhs) in
         let* rhs_copy := Swap rhs_copy in
         in_heap (Vector_delete rhs_copy)
       else
         in_heap (assign_loop v rhs 0 (size_ v)) ;;;
         if size_ v <? Size rhs then
           in_heap (uninitialized_copy_n ops
                      (ptr_add (RawMem.GetAddress (data_ rhs)) (size_ v))
                      (Size rhs - size_ v)
                      (ptr_add (RawMem.GetAddress (data_ v)) (size_ v)))
         else ret tt) ;;;
      set_size (Size rhs)
  end.

(** [Vector& operator=(Vector&& rhs) noexcept], for [rhs] an object other
    than [*this]; the value is the state of [rhs] afterwards. *)
Definition operator_assign_move (rhs : Vector) : M St Vector :=
  Swap rhs.

End VectorOps.

(** ** Element types used in the examples *)

(** A type like [int]: 4 bytes, trivially copyable, nothing throws, a move is
    a copy. *)
Definition int_ops : ElemOps nat := {|
  is_nothrow_move_constructible := true;
  is_copy_constructible := true;
  is_trivially_copyable := true;
  sizeof_T := 4;
  sizeof_T_range := conj eq_refl eq_refl;
  value_init _ := Ok 0;
  copy_ctor v := Ok v;
  move_ctor v := Ok (v, v);
  copy_assign _ s := Ok s;
  move_assign _ s := Ok (s, s)
|}.

(** A type like [std::string]: 32 bytes, not trivially copyable, nothing
    throws here ([std::bad_alloc] is outside the model), and a moved-from
    string is left empty. *)
Definition string_ops : ElemOps string := {|
  is_nothrow_move_constructible := true;
  is_copy_constructible := true;
  is_trivially_copyable := false;
  sizeof_T := 32;
  sizeof_T_range := conj eq_refl eq_refl;
  value_init _ := Ok EmptyString;
  copy_ctor v := Ok v;
  move_ctor v := Ok (v, EmptyString);
  copy_assign _ s := Ok s;
  move_assign _ s := Ok (s, EmptyString)
|}.

(** A class of 4 bytes with a user-provided copy constructor and copy
    assignment that throw when the source holds 13, and no move operations of
    its own: an rvalue is copied, and the class is not trivially copyable. *)
Definition throwing_ops : ElemOps nat := {|
  is_nothrow_move_constructible := false;
  is_copy_constructible := true;
  is_trivially_copyable := false;
  sizeof_T := 4;
  sizeof_T_range := conj eq_refl eq_refl;
  value_init _ := Ok 0;
  copy_ctor v := if v =? 13 then Throw else Ok v;
  move_ctor v := if v =? 13 then Throw else Ok (v, v);
  copy_assign _ s := if s =? 13 then Throw else Ok s;
  move_assign _ s := if s =? 13 then Throw else Ok (s, s)
|}.

(** A full vector of two [int]-like elements, 7 and 8, in block 0. *)
Definition two_ints : Vector :=
  {| data_ := {| buffer_ := {| blk := Some 0; off := 0 |}; capacity_ := 2 |};
     size_ := 2 |}.

Definition two_ints_heap : Heap nat :=
  {| blocks := [Some [Some 7; Some 8]]; leaked := [] |}.

(** The same vector next to a second one: 1, 2 and 3 in block 1, with room
    for one more element. *)
Definition three_ints : Vector :=
  {| data_ := {| buffer_ := {| blk := Some 1; off := 0 |}; capacity_ := 4 |};
     size_ := 3 |}.

Definition two_vectors_heap : Heap nat :=
  {| blocks := [Some [Some 7; Some 8]; Some [Some 1; Some 2; Some 3; None]];
     leaked := [] |}.

(** The heap in which [two_ints] holds 1 and 13. *)
Definition unlucky_heap : Heap nat :=
  {| blocks := [Some [Some 1; Some 13]]; leaked := [] |}.

(** A full vector of one element, 5, in block 1, next to [two_ints] holding 1
    and 2, or 1 and 13. *)
Definition one_int : Vector :=
  {| data_ := {| buffer_ := {| blk := Some 1; off := 0 |}; capacity_ := 1 |};
     size_ := 1 |}.

Definition assign_heap : Heap nat :=
  {| blocks := [Some [Some 1; Some 2]; Some [Some 5]]; leaked := [] |}.

Definition assign_unlucky_heap : Heap nat :=
  {| blocks := [Some [Some 1; Some 13]; Some [Some 5]]; leaked := [] |}.

(** A vector of one string with room for a second one. *)
Definition one_string : Vector :=
  {| data_ := {| buffer_ := {| blk := Some 0; off := 0 |}; capacity_ := 2 |};
     size_ := 1 |}.

Definition one_string_heap : Heap string :=
  {| blocks := [Some [Some "a"%string; None]]; leaked := [] |}.



(** A class like [int] but for a default constructor that counts the objects
    it has made and throws instead of making a third one in an operation. *)
Definition throwing_default_ops : ElemOps nat := {|
  is_nothrow_move_constructible := true;
  is_copy_constructible := true;
  is_trivially_copyable := true;
  sizeof_T := 4;
  sizeof_T_range := conj eq_refl eq_refl;
  value_init i := if i =? 2 then Throw else Ok 0;
  copy_ctor v := Ok v;
  move_ctor v := Ok (v, v);
  copy_assign _ s := Ok s;
  move_assign _ s := Ok (s, s)
|}.

(** ** Specification vocabulary *)

Section Spec.
Context {T : Type} (ops : ElemOps T).

(** The heap [h] with the slots of block [b] replaced by [s]. *)
Definition hset (b : nat) (s : list (option T)) (h : Heap T) : Heap T :=
  {| blocks := <[b := Some s]> (blocks h); leaked := leaked h |}.

(** The heap [h] with a new block of [n] raw slots. *)
Definition halloc (n : nat) (h : Heap T) : Heap T :=
  {| blocks := blocks h ++ [Some (replicate n None)]; leaked := leaked h |}.

(** The heap [h] with block [b] released. *)
Definition hfree (b : nat) (h : Heap T) : Heap T :=
  {| blocks := <[b := None]> (blocks h); leaked := leaked h |}.

(** The slots of a buffer of [cap] slots whose live prefix is [l]. *)
Definition slots_of (l : list T) (cap : nat) : list (option T) :=
  (Some <$> l) ++ replicate (cap - length l) None.

(** The class invariant, with the sequence of live elements made explicit:
    [size_] live objects [l] at the start of the buffer, raw slots up to the
    capacity; a null buffer exactly for the empty storage. *)
Definition is_vector (s : St (T:=T)) (l : list T) : Prop :=
  size_ (fst s) = length l /\
  length l <= capacity_ (data_ (fst s)) /\
  match blk (buffer_ (data_ (fst s))) with
  | Some b =>
      off (buffer_ (data_ (fst s))) = 0 /\
      blocks (snd s) !! b = Some (Some (slots_of l (capacity_ (data_ (fst s)))))
  | None => buffer_ (data_ (fst s)) = nullptr /\ capacity_ (data_ (fst s)) = 0
  end.

(** The relocation policy of [Uninitialized_Move_Or_Copy_N]. *)
Definition relocates_by_move : bool :=
  is_nothrow_move_constructible ops || negb (is_copy_constructible ops).

(** The element [x] relocates faithfully: the constructor the policy selects
    completes and the new object has the value of [x]. *)
Definition relocates (x : T) : Prop :=
  if relocates_by_move then exists r, move_ctor ops x = Ok (x, r)
  else copy_ctor ops x = Ok x.

(** The element type moves faithfully: a move construction or a move
    assignment completes and gives the destination the value of the source. *)
Definition moves_faithfully : Prop :=
  (forall x, exists r, move_ctor ops x = Ok (x, r)) /\
  (forall d x, exists r, move_assign ops d x = Ok (x, r)).

(** Copy construction of a sequence, left to right, up to the first failure. *)
Fixpoint copy_all (xs : list T) : outcome (list T) :=
  match xs with
  | [] => Ok []
  | x :: xs' =>
      match copy_ctor ops x with
      | Ok y =>
          match copy_all xs' with
          | Ok ys => Ok (y :: ys)
          | Throw => Throw
          | Fault => Fault
          end
      | Throw => Throw
      | Fault => Fault
      end
  end.

(** Default construction of [n] objects, the first of them the [i]-th of the
    operation, up to the first failure. *)
Fixpoint value_init_all (i n : nat) : outcome (list T) :=
  match n with
  | 0 => Ok []
  | S n' =>
      match value_init ops i with
      | Ok y =>
          match value_init_all (S i) n' with
          | Ok ys => Ok (y :: ys)
          | Throw => Throw
          | Fault => Fault
          end
      | Throw => Throw
      | Fault => Fault
      end
  end.

(** The statements that [PushBack], [PushBack(T&&)] and [EmplaceBack] have in
    common, [ctor] being what the constructor call of the new element gives. *)
Definition append_with (ctor : outcome T) : M (St (T:=T)) unit :=
  let* v := this in
  (if size_ v =? Capacity v then
     if size_ v =? 0 then
       Reserve ops 1 ;;;
       let* v := this in
       in_heap (placement_new (ptr_add (RawMem.GetAddress (data_ v)) (size_ v)) ctor) ;;;
       ret tt
     else
       let* new_data := in_heap (RawMemory_new_fitting (size_ v * 2)) in
       on_throw
         (in_heap
            (placement_new (ptr_add (RawMem.GetAddress new_data) (size_ v)) ctor ;;;
             Uninitialized_Move_Or_Copy_N ops (RawMem.GetAddress (data_ v)) (size_ v)
               (RawMem.GetAddress new_data)))
         (in_heap (RawMemory_delete new_data)) ;;;
       in_heap (destroy_n (RawMem.GetAddress (data_ v)) (size_ v)) ;;;
       let '(d, new_data) := RawMem.Swap (data_ v) new_data in
       set_data d ;;;
       in_heap (RawMemory_delete new_data)
   else
     in_heap (placement_new (ptr_add (RawMem.GetAddress (data_ v)) (size_ v)) ctor) ;;;
     ret tt) ;;;
  let* v := this in
  set_size (size_ v + 1).

(** [PushBack] of each value of [xs], from left to right. *)
Fixpoint PushBack_all (xs : list T) : M (St (T:=T)) unit :=
  match xs with
  | [] => ret tt
  | x :: xs' => PushBack ops x ;;; PushBack_all xs'
  end.

End Spec.

(** The capacity after [n] appends to a default-constructed vector. *)
Definition capacity_after (n : nat) : nat :=
  match n with
  | 0 => 0
  | _ => 2 ^ Nat.log2_up n
  end.

(** * Proofs *)

(** ** The monad *)

Section MonadFacts.
Context {S A B : Type}.

Lemma bind_ok (m : M S A) (f : A -> M S B) s a s' :
  m s = (Ok a, s') -> bind m f s = f a s'.
Proof. intros E. unfold bind. now rewrite E. Qed.

Lemma bind_throw (m : M S A) (f : A -> M S B) s s' :
  m s = (Throw, s') -> bind m f s = (Throw, s').
Proof. intros E. unfold bind. now rewrite E. Qed.

Lemma bind_fault (m : M S A) (f : A -> M S B) s s' :
  m s = (Fault, s') -> bind m f s = (Fault, s').
Proof. intros E. unfold bind. now rewrite E. Qed.

Lemma on_throw_ok (m : M S A) (c : M S unit) s a s' :
  m s = (Ok a, s') -> on_throw m c s = (Ok a, s').
Proof. intros E. unfold on_throw. now rewrite E. Qed.

Lemma on_throw_throw (m : M S A) (c : M S unit) s s' s'' :
  m s = (Throw, s') -> c s' = (Ok tt, s'') -> on_throw m c s = (Throw, s'').
Proof. intros E1 E2. unfold on_throw. now rewrite E1, E2. Qed.

Lemma on_throw_fault (m : M S A) (c : M S unit) s s' :
  m s = (Fault, s') -> on_throw m c s = (Fault, s').
Proof. intros E. unfold on_throw. now rewrite E. Qed.

End MonadFacts.

(** ** The heap primitives *)

Section HeapFacts.
Context {T : Type}.
Implicit Types (h : Heap T) (s : list (option T)) (b i : nat).

Lemma heap_eq h1 h2 :
  blocks h1 = blocks h2 -> leaked h1 = leaked h2 -> h1 = h2.
Proof. destruct h1, h2; simpl; intros; now subst. Qed.

Lemma blocks_hset_eq h b s o :
  blocks h !! b = Some o -> blocks (hset b s h) !! b = Some (Some s).
Proof.
  intros E. simpl. apply list_lookup_insert_eq. now apply lookup_lt_Some in E.
Qed.

Lemma blocks_hset_ne h b b' s :
  b <> b' -> blocks (hset b s h) !! b' = blocks h !! b'.
Proof. intros N. simpl. now apply list_lookup_insert_ne. Qed.

Lemma leaked_hset h b s : leaked (hset b s h) = leaked h.
Proof. reflexivity. Qed.

Lemma length_blocks_hset h b s : length (blocks (hset b s h)) = length (blocks h).
Proof. simpl. apply length_insert. Qed.

Lemma hset_hset h b s s' : hset b s (hset b s' h) = hset b s h.
Proof. apply heap_eq; simpl; [apply list_insert_insert_eq | reflexivity]. Qed.

Lemma hset_comm h b b' s s' :
  b <> b' -> hset b s (hset b' s' h) = hset b' s' (hset b s h).
Proof.
  intros N. apply heap_eq; simpl; [| reflexivity].
  now apply list_insert_insert_ne.
Qed.

Lemma hset_shadow h b b' s s' s0 :
  b <> b' -> hset b s (hset b' s' (hset b s0 h)) = hset b s (hset b' s' h).
Proof.
  intros N. rewrite (hset_comm _ b' b) by congruence. now rewrite hset_hset.
Qed.

Lemma hset_id h b s : blocks h !! b = Some (Some s) -> hset b s h = h.
Proof. intros E. apply heap_eq; simpl; [now apply list_insert_id | reflexivity]. Qed.

Lemma read_spec h b i s v :
  blocks h !! b = Some (Some s) -> s !! i = Some (Some v) ->
  read {| blk := Some b; off := i |} h = (Ok v, h).
Proof. intros E1 E2. unfold read, block_of. simpl. now rewrite E1, E2. Qed.

Lemma write_spec h b i s v0 v :
  blocks h !! b = Some (Some s) -> s !! i = Some (Some v0) ->
  write {| blk := Some b; off := i |} v h = (Ok tt, hset b (<[i := Some v]> s) h).
Proof. intros E1 E2. unfold write, block_of. simpl. now rewrite E1, E2. Qed.

Lemma construct_at_spec h b i s v :
  blocks h !! b = Some (Some s) -> s !! i = Some None ->
  construct_at {| blk := Some b; off := i |} v h
  = (Ok tt, hset b (<[i := Some v]> s) h).
Proof. intros E1 E2. unfold construct_at, block_of. simpl. now rewrite E1, E2. Qed.

Lemma destroy_at_spec h b i s v :
  blocks h !! b = Some (Some s) -> s !! i = Some (Some v) ->
  destroy_at {| blk := Some b; off := i |} h = (Ok tt, hset b (<[i := None]> s) h).
Proof. intros E1 E2. unfold destroy_at, block_of. simpl. now rewrite E1, E2. Qed.

Lemma placement_new_ok h b i s v :
  blocks h !! b = Some (Some s) -> s !! i = Some None ->
  placement_new {| blk := Some b; off := i |} (Ok v) h
  = (Ok {| blk := Some b; off := i |}, hset b (<[i := Some v]> s) h).
Proof.
  intros E1 E2. unfold placement_new.
  rewrite (bind_ok _ _ h v h) by reflexivity.
  rewrite (bind_ok _ _ _ _ _ (construct_at_spec _ _ _ _ v E1 E2)).
  reflexivity.
Qed.

Lemma placement_new_throw h p : placement_new p Throw h = (Throw, h).
Proof. reflexivity. Qed.

(** Slot lists written as a prefix, a middle part and a suffix. *)

Lemma lookup_middle (pre post : list (option T)) x :
  (pre ++ x :: post) !! length pre = Some x.
Proof. now apply list_lookup_middle. Qed.

Lemma insert_middle (pre post : list (option T)) x y :
  <[length pre := y]> (pre ++ x :: post) = pre ++ y :: post.
Proof.
  replace (length pre) with (length pre + 0) by lia.
  now rewrite insert_app_r.
Qed.

Lemma destroy_n_spec (xs : list T) : forall h b pre post,
  blocks h !! b = Some (Some (pre ++ (Some <$> xs) ++ post)) ->
  destroy_n {| blk := Some b; off := length pre |} (length xs) h
  = (Ok tt, hset b (pre ++ replicate (length xs) None ++ post) h).
Proof.
  induction xs as [| x xs IH]; intros h b pre post E; simpl.
  - unfold ret. now rewrite hset_id.
  - simpl in E.
    rewrite (bind_ok _ _ _ _ _ (destroy_at_spec _ _ _ _ x E (lookup_middle _ _ _))).
    rewrite insert_middle. unfold ptr_add; simpl.
    replace (length pre + 1) with (length (pre ++ [None])) by (rewrite length_app; simpl; lia).
    rewrite (IH _ b (pre ++ [None]) post).
    + rewrite hset_hset, <- app_assoc. reflexivity.
    + rewrite <- app_assoc. simpl. eapply blocks_hset_eq, E.
Qed.

End HeapFacts.

(** ** The byte count of [Allocate] *)

Section AllocFacts.
Context {T : Type} (ops : ElemOps T).

Lemma alloc_slots_fits n : fits ops n -> alloc_slots ops n = n.
Proof.
  unfold fits, alloc_slots, alloc_bytes. intros F.
  pose proof (sizeof_T_range ops) as [P _].
  rewrite N.mod_small by exact F.
  rewrite N.div_mul by lia. apply Nat2N.id.
Qed.

Lemma fits_1 : fits ops 1.
Proof.
  unfold fits. pose proof (sizeof_T_range ops) as [_ L].
  change (N.of_nat 1) with 1%N. now rewrite N.mul_1_l.
Qed.

Lemma fits_le m n : m <= n -> fits ops n -> fits ops m.
Proof.
  unfold fits. intros L F. eapply N.le_lt_trans; [| exact F].
  apply N.mul_le_mono_r. lia.
Qed.

End AllocFacts.

(** Projections of the state and pointer arithmetic on known pointers. *)
Ltac proj :=
  cbv beta match delta [RawMem.GetAddress RawMem.Capacity RawMem.Swap Capacity Size
                  begin end_ ptr_add ptr_sub ptr_diff nullptr];
  cbn [fst snd data_ size_ buffer_ capacity_ blk off Nat.add].

(** One statement that cannot fail: reading or updating [*this]. *)
Ltac step := erewrite bind_ok by reflexivity; proj.

(** ** The algorithms on raw storage *)

Section AlgorithmFacts.
Context {T : Type} (ops : ElemOps T).
Implicit Types (h : Heap T) (b i : nat) (xs ys : list T).

Lemma lookup_middle2 (pre mid post : list (option T)) x n :
  length mid = n -> (pre ++ mid ++ x :: post) !! (length pre + n) = Some x.
Proof.
  intros <-. rewrite app_assoc, <- length_app. apply lookup_middle.
Qed.

Lemma insert_middle2 (pre mid post : list (option T)) x y n :
  length mid = n ->
  <[length pre + n := y]> (pre ++ mid ++ x :: post) = pre ++ mid ++ y :: post.
Proof.
  intros <-. rewrite !app_assoc, <- length_app. apply insert_middle.
Qed.

Lemma copy_all_faithful xs :
  Forall (fun x => copy_ctor ops x = Ok x) xs -> copy_all ops xs = Ok xs.
Proof.
  induction 1 as [| x xs Hx _ IH]; simpl; [reflexivity |].
  now rewrite Hx, IH.
Qed.

Lemma copy_all_length xs ys : copy_all ops xs = Ok ys -> length ys = length xs.
Proof.
  revert ys. induction xs as [| x xs IH]; simpl; intros ys E.
  - now inversion E.
  - destruct (copy_ctor ops x); try discriminate.
    destruct (copy_all ops xs) as [ys' | |]; try discriminate.
    inversion E; subst. simpl. now rewrite (IH ys').
Qed.

(** [std::uninitialized_copy_n], whatever the copy constructor does: either
    every copy is in place, or the destination is raw again. *)
Lemma uninitialized_copy_from_spec xs : forall h bs bd spre spost dpre done dpost,
  bs <> bd ->
  blocks h !! bs = Some (Some (spre ++ (Some <$> xs) ++ spost)) ->
  blocks h !! bd
  = Some (Some (dpre ++ (Some <$> done) ++ replicate (length xs) None ++ dpost)) ->
  let run :=
    uninitialized_copy_from ops {| blk := Some bs; off := length spre |} (length xs)
      {| blk := Some bd; off := length dpre |}
      {| blk := Some bd; off := length dpre + length done |} h in
  match copy_all ops xs with
  | Ok ys => run = (Ok tt, hset bd (dpre ++ (Some <$> done ++ ys) ++ dpost) h)
  | Throw =>
      run = (Throw,
             hset bd (dpre ++ replicate (length done + length xs) None ++ dpost) h)
  | Fault => fst run = Fault
  end.
Proof.
  induction xs as [| x xs IH]; intros h bs bd spre spost dpre done dpost N Es Ed run;
    subst run; simpl.
  - unfold ret. simpl in Ed. rewrite app_nil_r, hset_id; [reflexivity | exact Ed].
  - rewrite fmap_cons, <- app_comm_cons in Es. simpl in Ed.
    assert (Er : read {| blk := Some bs; off := length spre |} h = (Ok x, h))
      by (eapply read_spec; [exact Es | apply lookup_middle]).
    destruct (copy_ctor ops x) as [y | |] eqn:Ec.
    + (* the copy is constructed *)
      set (h1 := hset bd (dpre ++ (Some <$> done)
                            ++ Some y :: replicate (length xs) None ++ dpost) h).
      assert (Ek : copy_construct_at ops
                     {| blk := Some bd; off := length dpre + length done |}
                     {| blk := Some bs; off := length spre |} h = (Ok tt, h1)).
      { unfold copy_construct_at. erewrite bind_ok by exact Er.
        erewrite bind_ok by (unfold pure_of; rewrite Ec; reflexivity).
        erewrite construct_at_spec; [| exact Ed | apply lookup_middle2, length_fmap].
        now rewrite insert_middle2 by apply length_fmap. }
      rewrite (bind_ok _ _ _ _ _ (on_throw_ok _ _ _ _ _ Ek)).
      unfold ptr_add; simpl.
      replace (length spre + 1) with (length (spre ++ [Some x]))
        by (rewrite length_app; simpl; lia).
      replace (length dpre + length done + 1) with (length dpre + length (done ++ [y]))
        by (rewrite length_app; simpl; lia).
      assert (Es1 : blocks h1 !! bs
                    = Some (Some ((spre ++ [Some x]) ++ (Some <$> xs) ++ spost))).
      { unfold h1. rewrite blocks_hset_ne by congruence.
        rewrite <- app_assoc. exact Es. }
      assert (Ed1 : blocks h1 !! bd
                    = Some (Some (dpre ++ (Some <$> done ++ [y])
                                    ++ replicate (length xs) None ++ dpost))).
      { unfold h1. erewrite blocks_hset_eq by exact Ed.
        rewrite fmap_app, <- app_assoc. reflexivity. }
      pose proof (IH h1 bs bd _ spost dpre _ dpost N Es1 Ed1) as IH'.
      cbv zeta in IH'. clear IH.
      destruct (copy_all ops xs) as [ys | |].
      * rewrite IH'. unfold h1. rewrite hset_hset. now rewrite <- app_assoc.
      * rewrite IH'. unfold h1. rewrite hset_hset, length_app. simpl.
        now replace (length done + 1 + length xs) with (length done + S (length xs)) by lia.
      * exact IH'.
    + (* the copy constructor throws: what was constructed is destroyed *)
      erewrite bind_throw; [| eapply on_throw_throw].
      * reflexivity.
      * unfold copy_construct_at. erewrite bind_ok by exact Er.
        erewrite bind_throw by (unfold pure_of; rewrite Ec; reflexivity). reflexivity.
      * unfold destroy, ptr_diff; simpl.
        replace (length dpre + length done - length dpre) with (length done) by lia.
        rewrite (destroy_n_spec done h bd dpre _ Ed).
        rewrite replicate_add, <- app_assoc. reflexivity.
    + unfold bind, on_throw, copy_construct_at, bind, pure_of. now rewrite Er, Ec.
Qed.

(** [std::uninitialized_move_n] over elements whose move completes. *)
Lemma uninitialized_move_from_ok xs : forall h bs bd spre spost dpre dpost result,
  bs <> bd ->
  blocks h !! bs = Some (Some (spre ++ (Some <$> xs) ++ spost)) ->
  blocks h !! bd = Some (Some (dpre ++ replicate (length xs) None ++ dpost)) ->
  Forall (fun x => exists r, move_ctor ops x = Ok (x, r)) xs ->
  exists rs, length rs = length xs /\
    uninitialized_move_from ops {| blk := Some bs; off := length spre |} (length xs)
      result {| blk := Some bd; off := length dpre |} h
    = (Ok tt, hset bd (dpre ++ (Some <$> xs) ++ dpost)
                (hset bs (spre ++ (Some <$> rs) ++ spost) h)).
Proof.
  induction xs as [| x xs IH]; intros h bs bd spre spost dpre dpost result N Es Ed F.
  - exists []. split; [reflexivity |]. simpl in *. unfold ret.
    now rewrite (hset_id h bs), (hset_id h bd).
  - inversion F as [| ? ? [r Hr] F']; subst. simpl in Es, Ed.
    set (h1 := hset bs (spre ++ Some r :: (Some <$> xs) ++ spost) h).
    set (h2 := hset bd (dpre ++ Some x :: replicate (length xs) None ++ dpost) h1).
    assert (Em : move_construct_at ops {| blk := Some bd; off := length dpre |}
                   {| blk := Some bs; off := length spre |} h = (Ok tt, h2)).
    { unfold move_construct_at.
      erewrite bind_ok by (eapply read_spec; [exact Es | apply lookup_middle]).
      erewrite bind_ok by (unfold pure_of; rewrite Hr; reflexivity).
      cbv beta iota.
      erewrite bind_ok
        by (erewrite write_spec; [| exact Es | apply lookup_middle];
            rewrite insert_middle; reflexivity).
      fold h1.
      erewrite construct_at_spec; [| | apply lookup_middle].
      - rewrite insert_middle. reflexivity.
      - unfold h1. rewrite blocks_hset_ne by congruence. exact Ed. }
    destruct (IH h2 bs bd (spre ++ [Some r]) spost (dpre ++ [Some x]) dpost result N)
      as (rs & Hlen & Hrun); [| | exact F' |].
    + unfold h2. rewrite blocks_hset_ne by congruence.
      unfold h1. rewrite (blocks_hset_eq _ _ _ _ Es), <- app_assoc. reflexivity.
    + unfold h2. erewrite blocks_hset_eq, <- app_assoc; [reflexivity |].
      unfold h1. rewrite blocks_hset_ne by congruence. exact Ed.
    + exists (r :: rs). split; [simpl; lia |].
      simpl. erewrite bind_ok by (apply on_throw_ok; exact Em).
      unfold ptr_add; simpl.
      replace (length spre + 1) with (length (spre ++ [Some r]))
        by (rewrite length_app; simpl; lia).
      replace (length dpre + 1) with (length (dpre ++ [Some x]))
        by (rewrite length_app; simpl; lia).
      rewrite Hrun. f_equal. unfold h2, h1.
      rewrite <- !app_assoc. simpl.
      rewrite (hset_shadow _ bs bd) by congruence.
      now rewrite (hset_shadow _ bd bs) by congruence.
Qed.

Lemma value_init_all_length n : forall i ys,
  value_init_all ops i n = Ok ys -> length ys = n.
Proof.
  induction n as [| n IH]; simpl; intros i ys E.
  - now inversion E.
  - destruct (value_init ops i); try discriminate.
    destruct (value_init_all ops (S i) n) as [ys' | |] eqn:E'; try discriminate.
    inversion E; subst. simpl. now rewrite (IH _ _ E').
Qed.


(** The first default construction that throws, when the ones before it
    complete. *)
Lemma value_init_all_throws k : forall i n,
  k < n ->
  (forall j, j < k -> exists y, value_init ops (i + j) = Ok y) ->
  value_init ops (i + k) = Throw ->
  value_init_all ops i n = Throw.
Proof.
  induction k as [| k IH]; intros i n L Hok Hk.
  - destruct n as [| n]; [lia |]. simpl. rewrite Nat.add_0_r in Hk. now rewrite Hk.
  - destruct n as [| n]; [lia |]. simpl.
    destruct (Hok 0) as [y Hy]; [lia |]. rewrite Nat.add_0_r in Hy. rewrite Hy.
    rewrite (IH (S i) n); [reflexivity | lia | |].
    + intros j Hj. destruct (Hok (S j)) as [z Hz]; [lia |].
      exists z. rewrite <- Hz. f_equal. lia.
    + rewrite <- Hk. f_equal. lia.
Qed.

(** [std::uninitialized_value_construct_n], whatever [T()] does: either every
    object is in place, or the slots are raw again. *)
Lemma uninitialized_value_construct_from_spec n : forall h b pre done post,
  blocks h !! b
  = Some (Some (pre ++ (Some <$> done) ++ replicate n None ++ post)) ->
  let run :=
    uninitialized_value_construct_from ops n {| blk := Some b; off := length pre |}
      {| blk := Some b; off := length pre + length done |} h in
  match value_init_all ops (length done) n with
  | Ok ys => run = (Ok tt, hset b (pre ++ (Some <$> done ++ ys) ++ post) h)
  | Throw =>
      run = (Throw, hset b (pre ++ replicate (length done + n) None ++ post) h)
  | Fault => fst run = Fault
  end.
Proof.
  induction n as [| n IH]; intros h b pre done post E run; subst run; simpl.
  - unfold ret. simpl in E. rewrite app_nil_r, hset_id; [reflexivity | exact E].
  - simpl in E. unfold ptr_diff. cbn [off].
    replace (length pre + length done - length pre) with (length done) by lia.
    destruct (value_init ops (length done)) as [y | |] eqn:Ec.
    + set (h1 := hset b (pre ++ (Some <$> done) ++ Some y :: replicate n None ++ post) h).
      assert (Ek : value_construct_at ops (length done)
                     {| blk := Some b; off := length pre + length done |} h
                   = (Ok tt, h1)).
      { unfold value_construct_at.
        erewrite bind_ok by (unfold pure_of; rewrite Ec; reflexivity).
        erewrite construct_at_spec; [| exact E | apply lookup_middle2, length_fmap].
        now rewrite insert_middle2 by apply length_fmap. }
      rewrite (bind_ok _ _ _ _ _ (on_throw_ok _ _ _ _ _ Ek)).
      unfold ptr_add; simpl.
      replace (length pre + length done + 1) with (length pre + length (done ++ [y]))
        by (rewrite length_app; simpl; lia).
      assert (E1 : blocks h1 !! b
                   = Some (Some (pre ++ (Some <$> done ++ [y])
                                   ++ replicate n None ++ post))).
      { unfold h1. erewrite blocks_hset_eq by exact E.
        rewrite fmap_app, <- app_assoc. reflexivity. }
      pose proof (IH h1 b pre _ post E1) as IH'. cbv zeta in IH'. clear IH.
      assert (Hl : length (done ++ [y]) = S (length done))
        by (rewrite length_app; simpl; lia).
      rewrite <- Hl. revert IH'.
      destruct (value_init_all ops (length (done ++ [y])) n) as [ys | |]; intros IH'.
      * rewrite IH'. unfold h1. rewrite hset_hset. now rewrite <- app_assoc.
      * rewrite IH'. unfold h1. rewrite hset_hset, Hl.
        now replace (S (length done) + n) with (length done + S n) by lia.
      * exact IH'.
    + erewrite bind_throw; [| eapply on_throw_throw].
      * reflexivity.
      * unfold value_construct_at.
        erewrite bind_throw by (unfold pure_of; rewrite Ec; reflexivity). reflexivity.
      * unfold destroy, ptr_diff; simpl.
        replace (length pre + length done - length pre) with (length done) by lia.
        rewrite (destroy_n_spec done h b pre _ E).
        rewrite replicate_add, <- app_assoc. reflexivity.
    + unfold bind, on_throw, value_construct_at, bind, pure_of. now rewrite Ec.
Qed.


End AlgorithmFacts.

(** ** RawMemory *)

(** Claim C3, as stated, fails for move assignment: the assignment swaps, so
    the source of a move into a non-empty [RawMemory] is left holding the
    destination's previous buffer instead of being reset to the empty state.
    Here the destination owns block 0 (4 slots) and the source block 1
    (8 slots). *)
Lemma RawMemory_move_assign_source_not_reset :
  ~ (forall dst src : RawMemory,
       (fst (RawMem.move_construct src) = src /\
        RawMem.is_empty (snd (RawMem.move_construct src))) /\
       (forall dst' src',
          RawMem.move_assign dst (Other src) = (dst', Other src') ->
          dst' = src /\ RawMem.is_empty src')).
Proof.
  intros H.
  destruct (H {| buffer_ := {| blk := Some 0; off := 0 |}; capacity_ := 4 |}
              {| buffer_ := {| blk := Some 1; off := 0 |}; capacity_ := 8 |})
    as [_ Hassign].
  destruct (Hassign _ _ eq_refl) as [_ [E _]].
  discriminate E.
Qed.

(** Claim C3, amended: move construction transfers the source's address and
    capacity to the new object and resets the source to the empty state; move
    assignment between two objects transfers the source's address and capacity
    to the destination and leaves the source with the destination's previous
    address and capacity; move assignment of an object to itself changes
    nothing. *)
Theorem RawMemory_move_spec (this other : RawMemory) :
  RawMem.move_construct other = (other, RawMem.default) /\
  RawMem.is_empty (snd (RawMem.move_construct other)) /\
  RawMem.move_assign this (Other other) = (other, Other this) /\
  RawMem.move_assign this Self = (this, Self).
Proof.
  destruct this, other. unfold RawMem.move_construct, RawMem.move_assign,
    RawMem.Swap, RawMem.is_empty, RawMem.default. simpl. auto.
Qed.

(** ** Vector: the member functions that cannot throw *)

Section VectorFacts.
Context {T : Type} (ops : ElemOps T).
Implicit Types (h : Heap T) (v : Vector) (l : list T) (b i n : nat).

Lemma in_heap_eq {A : Type} (m : M (Heap T) A) v h r h' :
  m h = (r, h') -> in_heap m (v, h) = (r, (v, h')).
Proof. intros E. unfold in_heap. simpl. now rewrite E. Qed.

Lemma lookup_middle_n (pre post : list (option T)) x n :
  length pre = n -> (pre ++ x :: post) !! n = Some x.
Proof. intros <-. apply lookup_middle. Qed.

Lemma insert_middle_n (pre post : list (option T)) x y n :
  length pre = n -> <[n := y]> (pre ++ x :: post) = pre ++ y :: post.
Proof. intros <-. apply insert_middle. Qed.

Lemma slots_of_raw l cap :
  length l < cap ->
  slots_of l cap = (Some <$> l) ++ None :: replicate (cap - S (length l)) None.
Proof.
  intros L. unfold slots_of.
  replace (cap - length l) with (S (cap - S (length l))) by lia. reflexivity.
Qed.

Lemma slots_of_snoc l x cap :
  slots_of (l ++ [x]) cap
  = (Some <$> l) ++ Some x :: replicate (cap - S (length l)) None.
Proof.
  unfold slots_of. rewrite fmap_app, <- app_assoc, length_app. simpl.
  now replace (cap - (length l + 1)) with (cap - S (length l)) by lia.
Qed.

Lemma length_slots_of l cap : length l <= cap -> length (slots_of l cap) = cap.
Proof.
  intros L. unfold slots_of. rewrite length_app, length_fmap, length_replicate. lia.
Qed.

Lemma lookup_slots_of l cap i x :
  l !! i = Some x -> slots_of l cap !! i = Some (Some x).
Proof.
  intros E. unfold slots_of. apply lookup_app_l_Some.
  now rewrite list_lookup_fmap, E.
Qed.

Lemma omap_id_replicate_None n : omap id (replicate n (@None T)) = [].
Proof. induction n; simpl; auto. Qed.

Lemma omap_id_app_raw l n :
  omap id ((Some <$> l) ++ replicate n (@None T)) = l.
Proof.
  rewrite omap_app, omap_id_replicate_None, app_nil_r.
  induction l; simpl; [reflexivity | now f_equal].
Qed.

(** The two shapes of a vector that satisfies the invariant. *)
Lemma is_vector_inv v h l :
  is_vector (v, h) l ->
  size_ v = length l /\ length l <= capacity_ (data_ v) /\
  ((buffer_ (data_ v) = nullptr /\ capacity_ (data_ v) = 0 /\ l = []) \/
   exists b, buffer_ (data_ v) = {| blk := Some b; off := 0 |} /\
     blocks h !! b = Some (Some (slots_of l (capacity_ (data_ v))))).
Proof.
  unfold is_vector. simpl. intros (Hs & Hc & Hb). split; [exact Hs |].
  split; [exact Hc |].
  destruct (buffer_ (data_ v)) as [[b |] o]; simpl in *.
  - right. exists b. destruct Hb as [-> Hb]. auto.
  - left. destruct Hb as [E Hb]. rewrite Hb in Hc.
    repeat split; auto. destruct l; simpl in *; [reflexivity | lia].
Qed.

Lemma is_vector_block b cap n l h :
  n = length l -> length l <= cap ->
  blocks h !! b = Some (Some (slots_of l cap)) ->
  is_vector ({| data_ := {| buffer_ := {| blk := Some b; off := 0 |};
                            capacity_ := cap |};
                size_ := n |}, h) l.
Proof. intros -> L E. unfold is_vector. simpl. auto. Qed.

(** Reading an element of a vector that satisfies the invariant. *)
Lemma element_spec v h l i x :
  is_vector (v, h) l -> l !! i = Some x ->
  element i (v, h) = (Ok x, (v, h)).
Proof.
  intros Hv Hx. apply is_vector_inv in Hv as (Hs & Hc & [(_ & _ & ->) | (b & Hb & Hm)]).
  - discriminate Hx.
  - unfold element, operator_index.
    erewrite bind_ok; cycle 1.
    { erewrite bind_ok by reflexivity. cbv beta.
      assert (Hi : i < length l) by (eapply lookup_lt_Some; eauto).
      replace (i <? size_ (fst (v, h))) with true
        by (symmetry; apply Nat.ltb_lt; simpl; lia).
      reflexivity. }
    simpl. rewrite Hb. unfold ptr_add; simpl.
    apply in_heap_eq. eapply read_spec; [exact Hm |].
    now apply lookup_slots_of.
Qed.

(** Claim C6: move construction from [S] gives the new vector the state [S]
    had — the same buffer, hence the same elements in the same order, the
    same size and the same capacity — touches nothing on the heap, and leaves
    [S] with size 0, capacity 0 and a null buffer. *)
Theorem Vector_move_spec (S : Vector) (h : Heap T) :
  exists v S',
    Vector_move S h = (Ok (v, S'), h) /\
    Size S' = 0 /\ Capacity S' = 0 /\ begin S' = nullptr /\
    v = S /\ Size v = Size S /\ Capacity v = Capacity S /\
    forall i, element i (v, h) = element i (S, h).
Proof.
  destruct S as [[p c] n].
  eexists _, _. split; [reflexivity |]. simpl. repeat split.
Qed.

(** Claim C10: on a non-empty vector [PopBack] destroys the last element (its
    slot is raw afterwards), takes 1 off the size and keeps the capacity, the
    buffer and the other elements; on an empty vector it returns normally
    and changes nothing. *)
Theorem PopBack_spec v h l :
  is_vector (v, h) l ->
  exists v' h',
    PopBack (v, h) = (Ok tt, (v', h')) /\
    (l = [] -> (v', h') = (v, h)) /\
    (forall l0 x, l = l0 ++ [x] ->
       is_vector (v', h') l0 /\
       Size v' + 1 = Size v /\
       Capacity v' = Capacity v /\
       begin v' = begin v /\
       (exists s, block_of h' (begin v') = Some s /\ s !! Size v' = Some None) /\
       leaked h' = leaked h).
Proof.
  intros Hv. destruct (is_vector_inv _ _ _ Hv) as (Hs & Hc & Hsh).
  destruct v as [[p c] n]. simpl in *.
  destruct l as [| y l'] using rev_ind.
  - (* empty *)
    simpl in Hs. subst n. eexists _, _. split; [reflexivity |].
    split; [reflexivity |]. intros l0 x E. destruct l0; discriminate E.
  - clear IHl'. rewrite length_app in Hs, Hc. simpl in Hs, Hc.
    destruct Hsh as [(_ & _ & E) | (b & -> & Hm)]; [destruct l'; discriminate E |].
    rewrite slots_of_snoc in Hm.
    unfold PopBack. erewrite bind_ok by reflexivity. cbv beta. simpl fst.
    replace (0 <? size_ _) with true by (symmetry; apply Nat.ltb_lt; simpl; lia).
    simpl size_. simpl data_. unfold RawMem.GetAddress, ptr_add, ptr_sub. simpl.
    replace (n - 1) with (length l') by lia.
    eexists _, _. split.
    { erewrite bind_ok; [reflexivity |].
      apply in_heap_eq. eapply destroy_at_spec; [exact Hm |].
      apply lookup_middle_n, length_fmap. }
    rewrite insert_middle_n by apply length_fmap.
    split; [intros E; destruct l'; discriminate E |].
    intros l0 x E. apply app_inj_tail in E as [-> ->].
    assert (Hm' : blocks (hset b ((Some <$> l0) ++ None
                                    :: replicate (c - S (length l0)) None) h) !! b
                  = Some (Some (slots_of l0 c))).
    { erewrite blocks_hset_eq by exact Hm. rewrite slots_of_raw by lia. reflexivity. }
    split; [apply is_vector_block; auto; lia |].
    unfold Size, Capacity, begin, RawMem.Capacity, RawMem.GetAddress, block_of. simpl.
    repeat split; try lia.
    eexists. split.
    + change (<[b:=?x]> (blocks h)) with (blocks (hset b
        ((Some <$> l0) ++ None :: replicate (c - S (length l0)) None) h)).
      rewrite Hm'. reflexivity.
    + rewrite slots_of_raw by lia. apply lookup_middle_n, length_fmap.
Qed.

End VectorFacts.

(** ** Vector: growth *)

Section GrowthFacts.
Context {T : Type} (ops : ElemOps T).
Implicit Types (h : Heap T) (v : Vector) (l : list T) (b i n : nat).

Lemma bind_assoc {S A B C : Type} (m : M S A) (f : A -> M S B) (g : B -> M S C) s :
  bind (bind m f) g s = bind m (fun a => bind (f a) g) s.
Proof. unfold bind. destruct (m s) as [[a | |] s']; reflexivity. Qed.

Lemma PushBack_append_with value : PushBack ops value = append_with ops (copy_ctor ops value).
Proof. reflexivity. Qed.

Lemma PushBack_move_append_with value :
  PushBack_move ops value = append_with ops (moved ops value).
Proof. reflexivity. Qed.

Lemma bind_ext {S A B : Type} (m : M S A) (f g : A -> M S B) s :
  (forall a s', f a s' = g a s') -> bind m f s = bind m g s.
Proof. intros E. unfold bind. destruct (m s) as [[a | |] s']; auto. Qed.

Lemma EmplaceBack_append_with ctor s :
  EmplaceBack ops ctor s
  = (append_with ops ctor ;;;
     let* v := this in ret (ptr_add (buffer_ (data_ v)) (size_ v - 1))) s.
Proof.
  unfold EmplaceBack, append_with.
  symmetry. etransitivity; [apply bind_assoc |]. apply bind_ext; intros v s1.
  etransitivity; [apply bind_assoc |]. apply bind_ext; intros u s2.
  etransitivity; [apply bind_assoc |]. reflexivity.
Qed.

(** [RawMemory(n)] for [n != 0]: the capacity is [n], whatever the room the
    block has. *)
Lemma RawMemory_new_slots n h :
  n <> 0 ->
  RawMemory_new ops n h
  = (Ok {| buffer_ := {| blk := Some (length (blocks h)); off := 0 |};
           capacity_ := n |}, halloc (alloc_slots ops n) h).
Proof.
  intros N. unfold RawMemory_new, Allocate.
  destruct n as [| n]; [congruence | reflexivity].
Qed.

Lemma RawMemory_new_spec n h :
  n <> 0 -> fits ops n ->
  RawMemory_new ops n h
  = (Ok {| buffer_ := {| blk := Some (length (blocks h)); off := 0 |};
           capacity_ := n |}, halloc n h).
Proof.
  intros N F. rewrite RawMemory_new_slots by exact N.
  now rewrite alloc_slots_fits.
Qed.

Lemma RawMemory_new_fitting_spec n h :
  n <> 0 ->
  RawMemory_new_fitting n h
  = (Ok {| buffer_ := {| blk := Some (length (blocks h)); off := 0 |};
           capacity_ := n |}, halloc n h).
Proof.
  intros N. unfold RawMemory_new_fitting, Allocate_fitting.
  destruct n as [| n]; [congruence | reflexivity].
Qed.

Lemma blocks_halloc_new n h :
  blocks (halloc n h) !! length (blocks h) = Some (Some (replicate n None)).
Proof. simpl. apply list_lookup_middle. reflexivity. Qed.

Lemma blocks_halloc_old n h b o :
  blocks h !! b = Some o -> blocks (halloc n h) !! b = Some o.
Proof. intros E. simpl. now apply lookup_app_l_Some. Qed.

Lemma RawMemory_delete_null c h :
  RawMemory_delete {| buffer_ := nullptr; capacity_ := c |} h = (Ok tt, h).
Proof. reflexivity. Qed.

Lemma RawMemory_delete_spec h b c s :
  blocks h !! b = Some (Some s) ->
  RawMemory_delete {| buffer_ := {| blk := Some b; off := 0 |}; capacity_ := c |} h
  = (Ok tt, {| blocks := <[b := None]> (blocks h);
               leaked := leaked h ++ omap id s |}).
Proof.
  intros E. unfold RawMemory_delete, Deallocate, operator_delete, block_of. simpl.
  now rewrite E.
Qed.

(** Releasing a block whose slots are all raw. *)
Lemma RawMemory_delete_raw h b c n o :
  blocks h !! b = Some o ->
  RawMemory_delete {| buffer_ := {| blk := Some b; off := 0 |}; capacity_ := c |}
    (hset b (replicate n None) h)
  = (Ok tt, hfree b h).
Proof.
  intros E. erewrite RawMemory_delete_spec by (eapply blocks_hset_eq, E).
  f_equal. apply heap_eq; simpl.
  - apply list_insert_insert_eq.
  - now rewrite omap_id_replicate_None, app_nil_r.
Qed.

Lemma blocks_hfree_ne h b b' : b <> b' -> blocks (hfree b h) !! b' = blocks h !! b'.
Proof. intros N. simpl. now apply list_lookup_insert_ne. Qed.

(** A block allocated and filled: the heap has the blocks it had and the new
    one after them. *)
Lemma blocks_hset_halloc (sl : list (option T)) n h :
  blocks (hset (length (blocks h)) sl (halloc n h)) = blocks h ++ [Some sl].
Proof.
  cbn [hset halloc blocks].
  rewrite insert_app_r_alt by lia. now rewrite Nat.sub_diag.
Qed.

(** A block allocated and released again: the heap has the blocks it had and
    one released block after them. *)
Lemma blocks_hfree_halloc n h :
  blocks (hfree (length (blocks h)) (halloc n h)) = blocks h ++ [None].
Proof.
  cbn [hfree halloc blocks].
  rewrite insert_app_r_alt by lia. now rewrite Nat.sub_diag.
Qed.

Lemma Uninitialized_Move_Or_Copy_N_zero p q h :
  Uninitialized_Move_Or_Copy_N ops p 0 q h = (Ok tt, h).
Proof.
  unfold Uninitialized_Move_Or_Copy_N.
  destruct (_ || _); reflexivity.
Qed.

(** Relocation of elements that relocate faithfully: the destination holds
    their values and the source still holds live (possibly moved-from)
    objects. *)
Lemma Uninitialized_Move_Or_Copy_N_ok xs h bs bd spre spost dpre dpost :
  bs <> bd ->
  blocks h !! bs = Some (Some (spre ++ (Some <$> xs) ++ spost)) ->
  blocks h !! bd = Some (Some (dpre ++ replicate (length xs) None ++ dpost)) ->
  Forall (relocates ops) xs ->
  exists rs, length rs = length xs /\
    Uninitialized_Move_Or_Copy_N ops {| blk := Some bs; off := length spre |}
      (length xs) {| blk := Some bd; off := length dpre |} h
    = (Ok tt, hset bd (dpre ++ (Some <$> xs) ++ dpost)
                (hset bs (spre ++ (Some <$> rs) ++ spost) h)).
Proof.
  intros N Es Ed F. unfold Uninitialized_Move_Or_Copy_N.
  unfold relocates, relocates_by_move in F.
  destruct (is_nothrow_move_constructible ops || negb (is_copy_constructible ops)).
  - unfold uninitialized_move_n. now apply uninitialized_move_from_ok.
  - exists xs. split; [reflexivity |].
    pose proof (uninitialized_copy_from_spec ops xs h bs bd spre spost dpre [] dpost
                  N Es Ed) as H.
    cbv zeta in H. rewrite (copy_all_faithful ops xs F) in H.
    simpl in H. rewrite Nat.add_0_r in H.
    unfold uninitialized_copy_n. rewrite H.
    now rewrite (hset_id h bs).
Qed.

(** [Reserve] beyond the capacity, for elements that relocate faithfully; the
    blocks of other objects are left as they were, and the block the vector
    had is released. *)
Lemma Reserve_grow_frame v h l n :
  is_vector (v, h) l -> capacity_ (data_ v) < n -> fits ops n ->
  Forall (relocates ops) l ->
  exists h',
    Reserve ops n (v, h)
    = (Ok tt, ({| data_ := {| buffer_ := {| blk := Some (length (blocks h)); off := 0 |};
                              capacity_ := n |};
                  size_ := size_ v |}, h')) /\
    blocks h' !! length (blocks h) = Some (Some (slots_of l n)) /\
    length (blocks h') = S (length (blocks h)) /\
    leaked h' = leaked h /\
    (forall b' o, blk (buffer_ (data_ v)) <> Some b' ->
       blocks h !! b' = Some o -> blocks h' !! b' = Some o) /\
    (forall b', blk (buffer_ (data_ v)) = Some b' -> blocks h' !! b' = Some None).
Proof.
  intros Hv Hn Hfit F. destruct (is_vector_inv _ _ _ Hv) as (Hs & Hc & Hsh).
  destruct v as [[p c] k]. simpl in Hs, Hc, Hsh, Hn. proj.
  assert (Hle : (n <=? c) = false) by (apply Nat.leb_gt; lia).
  destruct Hsh as [(-> & -> & ->) | (b & -> & Hm)].
  - (* no storage yet *)
    simpl in Hs. subst k. eexists. split.
    { unfold Reserve. step. rewrite Hle.
      erewrite bind_ok by (apply in_heap_eq, RawMemory_new_spec; [lia | exact Hfit]). proj.
      erewrite bind_ok
        by (apply on_throw_ok, in_heap_eq, Uninitialized_Move_Or_Copy_N_zero).
      step. reflexivity. }
    proj. split.
    { unfold slots_of. simpl. rewrite Nat.sub_0_r. apply blocks_halloc_new. }
    split; [simpl; rewrite length_app; simpl; lia |].
    split; [reflexivity |]. split.
    + intros b' o _ E. eapply blocks_halloc_old, E.
    + intros b' E. discriminate E.
  - (* relocation from block b *)
    assert (Nb : b <> length (blocks h))
      by (apply lookup_lt_Some in Hm; lia).
    destruct (Uninitialized_Move_Or_Copy_N_ok l (halloc n h) b (length (blocks h))
                [] (replicate (c - length l) None) [] (replicate (n - length l) None)
                Nb) as (rs & Hrs & Hrun); [| | exact F |].
    { eapply blocks_halloc_old. exact Hm. }
    { rewrite blocks_halloc_new. simpl. rewrite <- replicate_add.
      do 3 f_equal. lia. }
    simpl in Hrun. subst k.
    set (h1 := hset b ((Some <$> rs) ++ replicate (c - length l) None) (halloc n h)) in *.
    set (h2 := hset (length (blocks h)) ((Some <$> l) ++ replicate (n - length l) None) h1) in *.
    assert (E2 : blocks h2 !! b
                 = Some (Some ([] ++ (Some <$> rs) ++ replicate (c - length l) None))).
    { unfold h2. rewrite blocks_hset_ne by congruence.
      unfold h1. erewrite blocks_hset_eq; [reflexivity |].
      eapply blocks_halloc_old, Hm. }
    eexists. split.
    { unfold Reserve. step. rewrite Hle.
      erewrite bind_ok by (apply in_heap_eq, RawMemory_new_spec; [lia | exact Hfit]). proj.
      erewrite bind_ok by (apply on_throw_ok, in_heap_eq, Hrun).
      erewrite bind_ok; cycle 1.
      { apply in_heap_eq. rewrite <- Hrs.
        apply (destroy_n_spec rs h2 b [] _ E2). }
      simpl app. rewrite <- replicate_add.
      step.
      erewrite in_heap_eq by (eapply RawMemory_delete_raw, E2).
      reflexivity. }
    proj. split; [| split].
    + rewrite blocks_hfree_ne by congruence. unfold h2.
      erewrite blocks_hset_eq; [reflexivity |].
      unfold h1. rewrite blocks_hset_ne by congruence. apply blocks_halloc_new.
    + simpl. rewrite !length_insert, length_app. simpl. lia.
    + split; [reflexivity |]. split.
      * intros b' o N E. cbn [blk] in N.
        assert (b' <> length (blocks h)) by (apply lookup_lt_Some in E; lia).
        rewrite blocks_hfree_ne by congruence.
        unfold h2. rewrite blocks_hset_ne by congruence.
        unfold h1. rewrite blocks_hset_ne by congruence.
        eapply blocks_halloc_old, E.
      * intros b' E. cbn [blk] in E. inversion E; subst b'.
        cbn [hfree blocks]. apply list_lookup_insert_eq.
        apply lookup_lt_Some in E2. exact E2.
Qed.

(** [Reserve] beyond the capacity, for elements that relocate faithfully. *)
Lemma Reserve_grow v h l n :
  is_vector (v, h) l -> capacity_ (data_ v) < n -> fits ops n ->
  Forall (relocates ops) l ->
  exists h',
    Reserve ops n (v, h)
    = (Ok tt, ({| data_ := {| buffer_ := {| blk := Some (length (blocks h)); off := 0 |};
                              capacity_ := n |};
                  size_ := size_ v |}, h')) /\
    blocks h' !! length (blocks h) = Some (Some (slots_of l n)) /\
    length (blocks h') = S (length (blocks h)) /\
    leaked h' = leaked h.
Proof.
  intros Hv Hn Hfit F.
  destruct (Reserve_grow_frame v h l n Hv Hn Hfit F) as (h' & H1 & H2 & H3 & H4 & _).
  exists h'. auto.
Qed.

Lemma Reserve_noop n v h :
  n <= Capacity v -> Reserve ops n (v, h) = (Ok tt, (v, h)).
Proof.
  intros L. unfold Reserve. step.
  replace (n <=? capacity_ (data_ v)) with true
    by (symmetry; apply Nat.leb_le; exact L).
  reflexivity.
Qed.

(** [Reserve] on a vector whose elements relocate faithfully completes and
    keeps the elements; the capacity is the larger of the old one and the one
    asked for. *)
Lemma Reserve_ok v h l n :
  is_vector (v, h) l ->
  (Capacity v < n -> fits ops n) ->
  (Capacity v < n -> Forall (relocates ops) l) ->
  exists v1 h1,
    Reserve ops n (v, h) = (Ok tt, (v1, h1)) /\
    is_vector (v1, h1) l /\
    size_ v1 = size_ v /\
    capacity_ (data_ v1) = Nat.max (capacity_ (data_ v)) n /\
    leaked h1 = leaked h.
Proof.
  intros Hv Hfit F. destruct (is_vector_inv _ _ _ Hv) as (Hs & Hc & _).
  destruct (le_lt_dec n (capacity_ (data_ v))) as [L | L].
  - exists v, h. split; [apply Reserve_noop; exact L |].
    split; [exact Hv |]. split; [reflexivity |]. split; [lia | reflexivity].
  - destruct (Reserve_grow v h l n Hv L (Hfit L) (F L)) as (h1 & Hrun & Hb & _ & Hk).
    eexists _, h1. split; [exact Hrun |].
    split; [apply is_vector_block; [exact Hs | lia | exact Hb] |].
    cbn [size_ data_ capacity_]. split; [reflexivity |]. split; [lia | exact Hk].
Qed.

End GrowthFacts.

(** ** Vector: Reserve, PushBack, EmplaceBack, Resize *)

Section CapacityFacts.
Context {T : Type} (ops : ElemOps T).
Implicit Types (h : Heap T) (v : Vector) (l : list T) (b i n : nat).


(** The common body of the appending functions, when the new element is
    constructed as [y] and the elements relocate faithfully; the blocks of
    other objects are left as they were. *)
Lemma append_with_ok_frame v h l y :
  is_vector (v, h) l ->
  (Size v = Capacity v -> Forall (relocates ops) l) ->
  exists v' h',
    append_with ops (Ok y) (v, h) = (Ok tt, (v', h')) /\
    is_vector (v', h') (l ++ [y]) /\
    Size v' = Size v + 1 /\
    Capacity v' = (if Size v =? Capacity v then Nat.max 1 (2 * Capacity v)
                   else Capacity v) /\
    leaked h' = leaked h /\
    forall b' o, blk (buffer_ (data_ v)) <> Some b' ->
      blocks h !! b' = Some o -> blocks h' !! b' = Some o.
Proof.
  intros Hv F. destruct (is_vector_inv _ _ _ Hv) as (Hs & Hc & Hsh).
  destruct v as [[p c] k]. unfold Size, Capacity in *. proj. simpl in Hs, Hc, Hsh, F.
  destruct (Nat.eqb_spec k c) as [-> | Nkc].
  - specialize (F eq_refl).
    destruct (Nat.eqb_spec c 0) as [-> | Nc].
    + (* the first element: Reserve(1) *)
      assert (l = []) as -> by (destruct l; simpl in *; [reflexivity | lia]).
      destruct (Reserve_grow_frame ops _ h [] 1 Hv) as (h1 & Hrun & Hb & _ & Hk & Hfr & _);
        [simpl; lia | apply fits_1 | constructor |].
      proj. eexists _, _. split.
      { unfold append_with. step. unfold Capacity. proj. simpl Nat.eqb. cbv iota.
        erewrite bind_ok; cycle 1.
        { erewrite bind_ok by exact Hrun. step.
          erewrite bind_ok
            by (apply in_heap_eq; eapply placement_new_ok;
                [exact Hb | reflexivity]).
          reflexivity. }
        step. reflexivity. }
      proj. split; [| split; [reflexivity | split; [reflexivity | split; [exact Hk |]]]].
      { apply is_vector_block; [reflexivity | simpl; lia |].
        eapply blocks_hset_eq, Hb. }
      intros b' o N E.
      assert (b' <> length (blocks h)) by (apply lookup_lt_Some in E; lia).
      rewrite blocks_hset_ne by congruence. apply Hfr; assumption.
    + (* doubling *)
      destruct Hsh as [(_ & E & _) | (b & -> & Hm)]; [congruence |].
      assert (Nb : b <> length (blocks h)) by (apply lookup_lt_Some in Hm; lia).
      clear Hc. subst c.
      set (c := length l) in *.
      set (bd := length (blocks h)) in *.
      assert (Nb' : bd <> b) by (intros E'; apply Nb; symmetry; exact E').
      set (h0 := hset bd (replicate c None ++ Some y :: replicate (c - 1) None)
                   (halloc (c * 2) h)).
      assert (Hrep : replicate (c * 2) (@None T)
                     = replicate c None ++ None :: replicate (c - 1) None).
      { replace (c * 2) with (c + S (c - 1)) by lia. now rewrite replicate_add. }
      assert (Hnew : placement_new {| blk := Some bd; off := c |} (Ok y) (halloc (c * 2) h)
                     = (Ok {| blk := Some bd; off := c |}, h0)).
      { assert (Hb0 : blocks (halloc (c * 2) h) !! bd
                      = Some (Some (replicate c None ++ None :: replicate (c - 1) None)))
          by (unfold bd; rewrite blocks_halloc_new, Hrep; reflexivity).
        erewrite placement_new_ok
          by first [ exact Hb0 | apply lookup_middle_n, length_replicate ].
        rewrite insert_middle_n by apply length_replicate. reflexivity. }
      destruct (Uninitialized_Move_Or_Copy_N_ok ops l h0 b bd
                  [] (replicate (c - c) None) []
                  (Some y :: replicate (c - 1) None) Nb) as (rs & Hrs & Hrun);
        [| | exact F |].
      { unfold h0. rewrite blocks_hset_ne by first [exact Nb | exact Nb'].
        eapply blocks_halloc_old. exact Hm. }
      { unfold h0. erewrite blocks_hset_eq by apply blocks_halloc_new.
        reflexivity. }
      fold c in Hrun, Hrs. cbn [length app] in Hrun.
      set (h1 := hset b ((Some <$> rs) ++ replicate (c - c) None) h0) in *.
      set (h2 := hset bd ((Some <$> l) ++ Some y :: replicate (c - 1) None) h1) in *.
      assert (E2 : blocks h2 !! b
                   = Some (Some ([] ++ (Some <$> rs) ++ replicate (c - c) None))).
      { unfold h2. rewrite blocks_hset_ne by first [exact Nb | exact Nb'].
        unfold h1. erewrite blocks_hset_eq; [reflexivity |].
        unfold h0. rewrite blocks_hset_ne by first [exact Nb | exact Nb'].
        eapply blocks_halloc_old, Hm. }
      pose proof (destroy_n_spec rs h2 b [] _ E2) as Hd.
      cbn [length app] in Hd. rewrite <- replicate_add, Hrs in Hd.
      eexists _, _. split.
      { unfold append_with. step. unfold Capacity. proj.
        rewrite Nat.eqb_refl. replace (c =? 0) with false
          by (symmetry; apply Nat.eqb_neq; exact Nc).
        erewrite bind_ok; cycle 1.
        { erewrite bind_ok by (apply in_heap_eq, RawMemory_new_fitting_spec; lia). proj.
          erewrite bind_ok; cycle 1.
          { apply on_throw_ok, in_heap_eq.
            erewrite bind_ok by exact Hnew. exact Hrun. }
          erewrite bind_ok by (apply in_heap_eq, Hd).
          step.
          erewrite in_heap_eq by (eapply RawMemory_delete_raw, E2).
          reflexivity. }
        step. reflexivity. }
      proj. split; [| split; [reflexivity | split; [lia | split; [reflexivity |]]]].
      * apply is_vector_block.
        -- rewrite length_app. simpl. lia.
        -- rewrite length_app. simpl. lia.
        -- rewrite blocks_hfree_ne by first [exact Nb | exact Nb']. unfold h2.
           erewrite blocks_hset_eq.
           ++ rewrite slots_of_snoc. do 5 f_equal. unfold c. lia.
           ++ unfold h1. rewrite blocks_hset_ne by first [exact Nb | exact Nb'].
              unfold h0. eapply blocks_hset_eq, blocks_halloc_new.
      * intros b' o N E. cbn [blk] in N.
        assert (b' <> bd) by (apply lookup_lt_Some in E; unfold bd; lia).
        rewrite blocks_hfree_ne by congruence.
        unfold h2. rewrite blocks_hset_ne by congruence.
        unfold h1. rewrite blocks_hset_ne by congruence.
        unfold h0. rewrite blocks_hset_ne by congruence.
        eapply blocks_halloc_old, E.
  - (* a raw slot is left *)
    destruct Hsh as [(_ & E & _) | (b & -> & Hm)]; [lia |].
    rewrite slots_of_raw in Hm by lia.
    eexists _, _. split.
    { unfold append_with. step. unfold Capacity. proj.
      replace (k =? c) with false by (symmetry; apply Nat.eqb_neq; exact Nkc).
      erewrite bind_ok; cycle 1.
      { erewrite bind_ok
          by (apply in_heap_eq; eapply placement_new_ok;
              [exact Hm | apply lookup_middle_n; rewrite length_fmap; lia]).
        reflexivity. }
      step. reflexivity. }
    proj. split; [| split; [reflexivity | split; [reflexivity | split; [reflexivity |]]]].
    { apply is_vector_block.
      + rewrite length_app. simpl. lia.
      + rewrite length_app. simpl. lia.
      + erewrite blocks_hset_eq by exact Hm.
        rewrite insert_middle_n by (rewrite length_fmap; lia).
        rewrite slots_of_snoc. reflexivity. }
    intros b' o N E. cbn [blk] in N.
    rewrite blocks_hset_ne by congruence. exact E.
Qed.

(** The common body of the appending functions, when the new element is
    constructed as [y] and the elements relocate faithfully. *)
Lemma append_with_ok v h l y :
  is_vector (v, h) l ->
  (Size v = Capacity v -> Forall (relocates ops) l) ->
  exists v' h',
    append_with ops (Ok y) (v, h) = (Ok tt, (v', h')) /\
    is_vector (v', h') (l ++ [y]) /\
    Size v' = Size v + 1 /\
    Capacity v' = (if Size v =? Capacity v then Nat.max 1 (2 * Capacity v)
                   else Capacity v) /\
    leaked h' = leaked h.
Proof.
  intros Hv F.
  destruct (append_with_ok_frame v h l y Hv F)
    as (v' & h' & H1 & H2 & H3 & H4 & H5 & _).
  exists v', h'. auto.
Qed.

(** Claim C9: after [PushBack(x)], by copy or by move, of a value whose copy
    (move) construction gives an object equal to [x], the size is the previous
    size plus 1, the element at the previous size is [x], and the elements
    before it are the previous ones. *)
Theorem PushBack_spec v h l x :
  is_vector (v, h) l ->
  (Size v = Capacity v -> Forall (relocates ops) l) ->
  (copy_ctor ops x = Ok x ->
   exists v' h',
     PushBack ops x (v, h) = (Ok tt, (v', h')) /\
     Size v' = Size v + 1 /\
     element (Size v) (v', h') = (Ok x, (v', h')) /\
     is_vector (v', h') (l ++ [x])) /\
  (moved ops x = Ok x ->
   exists v' h',
     PushBack_move ops x (v, h) = (Ok tt, (v', h')) /\
     Size v' = Size v + 1 /\
     element (Size v) (v', h') = (Ok x, (v', h')) /\
     is_vector (v', h') (l ++ [x])).
Proof.
  intros Hv F.
  destruct (append_with_ok v h l x Hv F) as (v' & h' & Hrun & Hv' & Hs & _ & _).
  assert (Hx : (l ++ [x]) !! Size v = Some x).
  { destruct (is_vector_inv _ _ _ Hv) as (E & _ & _). unfold Size. rewrite E.
    apply list_lookup_middle. reflexivity. }
  split; intros Hc; exists v', h'.
  - rewrite PushBack_append_with, Hc.
    split; [exact Hrun |]. split; [exact Hs |].
    split; [eapply element_spec; eauto | exact Hv'].
  - rewrite PushBack_move_append_with, Hc.
    split; [exact Hrun |]. split; [exact Hs |].
    split; [eapply element_spec; eauto | exact Hv'].
Qed.

Lemma capacity_after_succ n :
  capacity_after (S n)
  = if n =? capacity_after n then Nat.max 1 (2 * capacity_after n)
    else capacity_after n.
Proof.
  destruct n as [| n]; [reflexivity |].
  unfold capacity_after. set (m := S n).
  assert (Hm : m <= 2 ^ Nat.log2_up m).
  { destruct (Nat.eq_dec m 1) as [-> | N1]; [simpl; lia |].
    apply Nat.log2_up_spec. lia. }
  assert (Hp : 0 < 2 ^ Nat.log2_up m) by (apply Nat.neq_0_lt_0, Nat.pow_nonzero; lia).
  destruct (Nat.eqb_spec m (2 ^ Nat.log2_up m)) as [E | N].
  - rewrite E at 1. rewrite Nat.log2_up_succ_pow2 by lia.
    rewrite Nat.pow_succ_r'. lia.
  - destruct (Nat.log2_up_succ_or m) as [E | E]; [| now rewrite E].
    apply Nat.log2_up_eq_succ_is_pow2 in E as [k Hk].
    exfalso. apply N. rewrite Hk at 2. rewrite Nat.log2_up_pow2 by lia. exact Hk.
Qed.

Lemma PushBack_all_spec xs : forall v h l,
  is_vector (v, h) l ->
  Capacity v = capacity_after (length l) ->
  Forall (relocates ops) l ->
  Forall (fun x => copy_ctor ops x = Ok x /\ relocates ops x) xs ->
  exists v' h',
    PushBack_all ops xs (v, h) = (Ok tt, (v', h')) /\
    is_vector (v', h') (l ++ xs) /\
    Capacity v' = capacity_after (length (l ++ xs)).
Proof.
  induction xs as [| x xs IH]; intros v h l Hv Hc Fl Fx.
  - exists v, h. rewrite app_nil_r. auto.
  - inversion Fx as [| ? ? [Hx Hr] Fx']; subst.
    destruct (append_with_ok v h l x Hv (fun _ => Fl))
      as (v1 & h1 & Hrun & Hv1 & Hs1 & Hc1 & _).
    destruct (IH v1 h1 (l ++ [x]) Hv1) as (v' & h' & Hrun' & Hv' & Hc'); auto.
    + rewrite Hc1, length_app. simpl. rewrite Nat.add_1_r, capacity_after_succ.
      destruct (is_vector_inv _ _ _ Hv) as (E & _ & _). unfold Size.
      now rewrite E, Hc.
    + apply Forall_app. auto.
    + exists v', h'. simpl PushBack_all.
      erewrite bind_ok by (rewrite PushBack_append_with, Hx; exact Hrun).
      rewrite <- app_assoc in Hv', Hc'. auto.
Qed.

(** Claim C5: an append ([PushBack] by copy or by move, [EmplaceBack]) that
    completes leaves the capacity at [max(1, 2 * capacity)] when it found
    [size == capacity], and unchanged otherwise; hence, from a
    default-constructed vector, the capacity after [N] appends is 0 for
    [N = 0] and the least power of two that is at least [N] otherwise:
    0, 1, 2, 4, 4, 8, ... *)
Theorem PushBack_capacity v h l :
  is_vector (v, h) l ->
  (Size v = Capacity v -> Forall (relocates ops) l) ->
  let grown :=
    if Size v =? Capacity v then Nat.max 1 (2 * Capacity v) else Capacity v in
  (forall x y, copy_ctor ops x = Ok y ->
     exists v' h', PushBack ops x (v, h) = (Ok tt, (v', h')) /\ Capacity v' = grown) /\
  (forall x y, moved ops x = Ok y ->
     exists v' h', PushBack_move ops x (v, h) = (Ok tt, (v', h')) /\
       Capacity v' = grown) /\
  (forall y,
     exists p v' h', EmplaceBack ops (Ok y) (v, h) = (Ok p, (v', h')) /\
       Capacity v' = grown) /\
  (forall xs h0,
     Forall (fun x => copy_ctor ops x = Ok x /\ relocates ops x) xs ->
     exists v' h',
       PushBack_all ops xs (Vector_default, h0) = (Ok tt, (v', h')) /\
       Capacity v' = capacity_after (length xs)).
Proof.
  intros Hv F grown. repeat split.
  - intros x y Hx.
    destruct (append_with_ok v h l y Hv F) as (v' & h' & Hrun & _ & _ & Hc & _).
    exists v', h'. rewrite PushBack_append_with, Hx. auto.
  - intros x y Hx.
    destruct (append_with_ok v h l y Hv F) as (v' & h' & Hrun & _ & _ & Hc & _).
    exists v', h'. rewrite PushBack_move_append_with, Hx. auto.
  - intros y.
    destruct (append_with_ok v h l y Hv F) as (v' & h' & Hrun & _ & _ & Hc & _).
    eexists _, v', h'. rewrite EmplaceBack_append_with.
    erewrite bind_ok by exact Hrun. split; [reflexivity | exact Hc].
  - intros xs h0 Fx.
    destruct (PushBack_all_spec xs Vector_default h0 []) as (v' & h' & Hrun & _ & Hc);
      auto.
    + unfold is_vector. simpl. auto.
    + exists v', h'. auto.
Qed.


End CapacityFacts.

(** ** Vector: copy assignment *)

Section AssignFacts.
Context {T : Type} (ops : ElemOps T).
Implicit Types (h : Heap T) (v : Vector) (l : list T) (b i n : nat).

Lemma copy_all_Ok xs ys :
  (forall x y, copy_ctor ops x = Ok y -> y = x) ->
  copy_all ops xs = Ok ys -> ys = xs.
Proof.
  intros R. revert ys. induction xs as [| x xs IH]; simpl; intros ys E.
  - now inversion E.
  - destruct (copy_ctor ops x) as [y | |] eqn:Ex; try discriminate.
    destruct (copy_all ops xs) as [ys' | |]; try discriminate.
    inversion E; subst. f_equal; auto.
Qed.

Lemma copy_all_Throw xs :
  copy_all ops xs = Throw -> exists x, x ∈ xs /\ copy_ctor ops x = Throw.
Proof.
  induction xs as [| x xs IH]; simpl; intros E; [discriminate |].
  destruct (copy_ctor ops x) as [y | |] eqn:Ex; try discriminate.
  - destruct (copy_all ops xs) as [ys' | |]; try discriminate.
    destruct (IH eq_refl) as (z & Hz & Ez). exists z. split; [now right | exact Ez].
  - exists x. split; [now left | exact Ex].
Qed.

Lemma copy_all_Fault xs :
  copy_all ops xs = Fault -> exists x, x ∈ xs /\ copy_ctor ops x = Fault.
Proof.
  induction xs as [| x xs IH]; simpl; intros E; [discriminate |].
  destruct (copy_ctor ops x) as [y | |] eqn:Ex; try discriminate.
  - destruct (copy_all ops xs) as [ys' | |]; try discriminate.
    destruct (IH eq_refl) as (z & Hz & Ez). exists z. split; [now right | exact Ez].
  - exists x. split; [now left | exact Ex].
Qed.

Lemma swap_RawMemory_spec (a c : RawMemory) h :
  swap_RawMemory a c h
  = (Ok ({| buffer_ := buffer_ c; capacity_ := capacity_ c |},
         {| buffer_ := buffer_ a; capacity_ := capacity_ a |}), h).
Proof. reflexivity. Qed.

(** The destructor of a vector that satisfies the invariant: its elements
    are destroyed, its block is released, the other blocks are untouched. *)
Lemma Vector_delete_spec v h l :
  is_vector (v, h) l ->
  exists h',
    Vector_delete v h = (Ok tt, h') /\
    leaked h' = leaked h /\
    length (blocks h') = length (blocks h) /\
    (forall b, blk (buffer_ (data_ v)) <> Some b -> blocks h' !! b = blocks h !! b) /\
    (forall b, blk (buffer_ (data_ v)) = Some b -> blocks h' !! b = Some None).
Proof.
  intros Hv. destruct (is_vector_inv _ _ _ Hv) as (Hs & Hc & Hsh).
  destruct v as [[p c] k]. simpl in *. subst k.
  destruct Hsh as [(-> & -> & ->) | (b & -> & Hm)].
  - exists h. repeat split; auto. intros b E. discriminate E.
  - pose proof (destroy_n_spec l h b [] _ Hm) as Hd.
    cbn [length app] in Hd. rewrite <- replicate_add in Hd.
    exists (hfree b h). split.
    { unfold Vector_delete. proj. erewrite bind_ok by exact Hd.
      eapply RawMemory_delete_raw, Hm. }
    split; [reflexivity |].
    split; [simpl; apply length_insert |]. split.
    + intros b' N. apply blocks_hfree_ne. simpl in N. congruence.
    + intros b' E. simpl in E. inversion E; subst b'. simpl.
      apply list_lookup_insert_eq. now apply lookup_lt_Some in Hm.
Qed.

(** The invariant only reads the block of the vector. *)
Lemma is_vector_frame v h h' l :
  is_vector (v, h) l ->
  (forall b o, blocks h !! b = Some o -> blocks h' !! b = Some o) ->
  is_vector (v, h') l.
Proof.
  unfold is_vector. cbn [fst snd]. intros (Hs & Hc & Hb) Hfr.
  split; [exact Hs |]. split; [exact Hc |].
  destruct (blk (buffer_ (data_ v))) as [b |]; [| exact Hb].
  destruct Hb as [Ho Hm]. split; [exact Ho |]. apply Hfr, Hm.
Qed.

(** Claim C4: when [S.Size() > V.Capacity()], for an element type whose copy
    constructor gives an object equal to its source or throws, [V = S] either
    completes, every copy constructor having completed, and then [V] holds
    the elements of [S] and has the size of [S], in a buffer of its own that the call allocated for a full copy (a block
    the heap did not have, of capacity [S.Size()], not the one of [S]), while
    the buffer [V] had is released with its elements destroyed; or it ends by
    the exception of a copy constructor, and then [V] is in the state it had,
    as is every block the heap had before the call.  [S] is unchanged and no
    object is leaked in both cases. *)
Theorem copy_assign_strong_guarantee (V S : Vector) h (lv ls : list T) :
  is_vector (V, h) lv ->
  is_vector (S, h) ls ->
  Capacity V < Size S ->
  (forall x y, copy_ctor ops x = Ok y -> y = x) ->
  (forall x, copy_ctor ops x <> Fault) ->
  exists r V' h',
    operator_assign ops (Other S) (V, h) = (r, (V', h')) /\
    is_vector (S, h') ls /\
    leaked h' = leaked h /\
    ((r = Ok tt /\ is_vector (V', h') ls /\ Size V' = Size S /\
      copy_all ops ls = Ok ls /\
      Capacity V' = Size S /\
      blk (begin V') = Some (length (blocks h)) /\
      blk (begin V') <> blk (begin S) /\
      (forall b, blk (begin V) = Some b -> blocks h' !! b = Some None)) \/
     (r = Throw /\ V' = V /\ is_vector (V, h') lv /\
      (forall b o, blocks h !! b = Some o -> blocks h' !! b = Some o) /\
      blocks h' = blocks h ++ [None] /\
      exists x, x ∈ ls /\ copy_ctor ops x = Throw)).
Proof.
  intros HV HS Hlt R NF.
  destruct (is_vector_inv _ _ _ HV) as (HVs & HVc & HVsh).
  destruct (is_vector_inv _ _ _ HS) as (HSs & HSc & HSsh).
  unfold Size, Capacity, RawMem.Capacity in Hlt.
  destruct S as [[ps cs] ks]. destruct V as [[pv cv] kv].
  cbn [size_ data_ capacity_ buffer_ fst snd] in *. subst ks kv.
  destruct HSsh as [(_ & _ & ->) | (bs & -> & HmS)]; [simpl in Hlt; lia |].
  set (n := length ls) in *.
  set (bd := length (blocks h)) in *.
  assert (Nsd : bs <> bd) by (apply lookup_lt_Some in HmS; unfold bd; lia).
  assert (Nds : bd <> bs) by (intros E; apply Nsd; symmetry; exact E).
  assert (Hnew : RawMemory_new_fitting n h
                 = (Ok {| buffer_ := {| blk := Some bd; off := 0 |}; capacity_ := n |},
                    halloc n h)) by (apply RawMemory_new_fitting_spec; lia).
  pose proof (uninitialized_copy_from_spec ops ls (halloc n h) bs bd
                [] (replicate (cs - length ls) None) [] [] [] Nsd) as Hcopy.
  cbn [length app fmap list_fmap] in Hcopy. fold n in Hcopy.
  rewrite app_nil_r in Hcopy.
  specialize (Hcopy (blocks_halloc_old _ _ _ _ HmS)).
  specialize (Hcopy (blocks_halloc_new _ _)).
  cbv zeta in Hcopy. cbn [Nat.add] in Hcopy.
  assert (HltB : (cv <? n) = true) by (apply Nat.ltb_lt; exact Hlt).
  destruct (copy_all ops ls) as [ls' | |] eqn:Hall.
  - (* every copy is constructed: swap, then destroy the old contents *)
    apply copy_all_Ok in Hall as ->; [| exact R].
    set (h1 := hset bd ((Some <$> ls) ++ []) (halloc n h)) in *.
    assert (HV1 : is_vector ({| data_ := {| buffer_ := pv; capacity_ := cv |};
                                size_ := length lv |}, h1) lv).
    { eapply is_vector_frame; [exact HV |]. intros b o E.
      unfold h1. rewrite blocks_hset_ne.
      - eapply blocks_halloc_old, E.
      - apply lookup_lt_Some in E. unfold bd. lia. }
    destruct (Vector_delete_spec _ _ _ HV1) as (h2 & Hdel & Hlk & Hlen & Hfr & Hrel).
    cbn [data_ buffer_] in Hfr, Hrel.
    assert (Nvs : blk pv <> Some bs).
    { destruct HVsh as [(-> & _ & _) | (bv & -> & HmV)]; simpl; [discriminate |].
      intros E. inversion E; subst bv. rewrite HmS in HmV. inversion HmV as [E'].
      apply (f_equal length) in E'. rewrite !length_slots_of in E' by lia. lia. }
    assert (Nvd : blk pv <> Some bd).
    { destruct HVsh as [(-> & _ & _) | (bv & -> & HmV)]; simpl; [discriminate |].
      intros E. inversion E; subst bv. apply lookup_lt_Some in HmV. unfold bd in HmV. lia. }
    exists (Ok tt), {| data_ := {| buffer_ := {| blk := Some bd; off := 0 |};
                                  capacity_ := n |}; size_ := n |}, h2.
    split.
    { unfold operator_assign. step. rewrite HltB.
      erewrite bind_ok; cycle 1.
      { erewrite bind_ok; cycle 1.
        { apply in_heap_eq. unfold Vector_copy. proj.
          erewrite bind_ok by exact Hnew. proj.
          erewrite bind_ok by (apply on_throw_ok; exact Hcopy).
          reflexivity. }
        erewrite bind_ok; cycle 1.
        { unfold Swap. step.
          erewrite bind_ok by (apply in_heap_eq, swap_RawMemory_spec).
          proj. step. step. reflexivity. }
        apply in_heap_eq. exact Hdel. }
      reflexivity. }
    split; [| split; [| left; split; [reflexivity | split; [| split; [reflexivity |]]]]].
    + apply is_vector_block; [reflexivity | exact HSc |].
      rewrite Hfr by exact Nvs. unfold h1. rewrite blocks_hset_ne by exact Nds.
      eapply blocks_halloc_old, HmS.
    + rewrite Hlk. reflexivity.
    + apply is_vector_block; [reflexivity | unfold n; lia |].
      rewrite Hfr by exact Nvd. unfold h1.
      erewrite blocks_hset_eq by apply blocks_halloc_new.
      unfold slots_of. fold n. rewrite Nat.sub_diag. reflexivity.
    + split; [reflexivity |].
      unfold Capacity, RawMem.Capacity, Size, begin, RawMem.GetAddress.
      cbn [data_ size_ capacity_ buffer_ blk].
      split; [reflexivity |]. split; [reflexivity |].
      split; [intros E; inversion E; congruence | exact Hrel].
  - (* a copy constructor throws: the new buffer is released *)
    rewrite app_nil_r in Hcopy.
    exists Throw, {| data_ := {| buffer_ := pv; capacity_ := cv |}; size_ := length lv |},
      (hfree bd (halloc n h)).
    assert (Hold : forall b o, blocks h !! b = Some o
                               -> blocks (hfree bd (halloc n h)) !! b = Some o).
    { intros b o E. rewrite blocks_hfree_ne.
      - eapply blocks_halloc_old, E.
      - apply lookup_lt_Some in E. unfold bd. lia. }
    split.
    { unfold operator_assign. step. rewrite HltB.
      erewrite bind_throw; [reflexivity |].
      erewrite bind_throw; [reflexivity |].
      apply in_heap_eq. unfold Vector_copy. proj.
      erewrite bind_ok by exact Hnew. proj.
      erewrite bind_throw; [reflexivity |].
      eapply on_throw_throw; [exact Hcopy |].
      eapply RawMemory_delete_raw, blocks_halloc_new. }
    split; [| split; [reflexivity | right]].
    + apply is_vector_block; [reflexivity | exact HSc |]. apply Hold, HmS.
    + split; [reflexivity |]. split; [reflexivity |]. split.
      * eapply is_vector_frame; [exact HV | exact Hold].
      * split; [exact Hold |]. split; [apply blocks_hfree_halloc |].
        apply copy_all_Throw, Hall.
  - (* excluded: the copy constructor has defined behaviour *)
    apply copy_all_Fault in Hall as (x & _ & Hx). destruct (NF x Hx).
Qed.

End AssignFacts.

(** ** Vector: Emplace *)

Section EmplaceFacts.
Context {T : Type} (ops : ElemOps T).
Implicit Types (h : Heap T) (v : Vector) (l m : list T) (b i j n : nat).

Lemma lookup_middle_n1 (pre post : list (option T)) x0 x n :
  length pre + 1 = n -> (pre ++ x0 :: x :: post) !! n = Some x.
Proof.
  intros L. replace (pre ++ x0 :: x :: post) with ((pre ++ [x0]) ++ x :: post)
    by (rewrite <- app_assoc; reflexivity).
  apply lookup_middle_n. rewrite length_app. simpl. exact L.
Qed.

Lemma insert_middle_n1 (pre post : list (option T)) x0 x y n :
  length pre + 1 = n ->
  <[n := y]> (pre ++ x0 :: x :: post) = pre ++ x0 :: y :: post.
Proof.
  intros L. replace (pre ++ x0 :: x :: post) with ((pre ++ [x0]) ++ x :: post)
    by (rewrite <- app_assoc; reflexivity).
  rewrite insert_middle_n by (rewrite length_app; simpl; exact L).
  rewrite <- app_assoc. reflexivity.
Qed.

Lemma move_assign_at_ok h b (s : list (option T)) i j d x r :
  blocks h !! b = Some (Some s) ->
  s !! i = Some (Some d) -> s !! j = Some (Some x) -> i <> j ->
  move_assign ops d x = Ok (x, r) ->
  move_assign_at ops {| blk := Some b; off := i |} {| blk := Some b; off := j |} h
  = (Ok tt, hset b (<[i := Some x]> (<[j := Some r]> s)) h).
Proof.
  intros E Ei Ej N Hm. unfold move_assign_at.
  erewrite bind_ok by (eapply read_spec; eauto).
  erewrite bind_ok by (eapply read_spec; eauto).
  erewrite bind_ok by (unfold pure_of; rewrite Hm; reflexivity).
  cbv beta iota.
  erewrite bind_ok by (eapply write_spec; eauto).
  erewrite write_spec.
  - rewrite hset_hset. reflexivity.
  - eapply blocks_hset_eq, E.
  - rewrite list_lookup_insert_ne by congruence. exact Ei.
Qed.

(** On a range that is not inverted [std::move_backward] is its loop, for
    every element type; on an inverted range it is for a type that is not
    trivially copyable. *)
Lemma move_backward_valid first last d_last :
  off first <= off last ->
  move_backward ops first last d_last
  = move_backward_loop ops (ptr_diff last first) last d_last.
Proof.
  intros L. unfold move_backward.
  replace (off last <? off first) with false by (symmetry; apply Nat.ltb_ge; exact L).
  now rewrite andb_false_r.
Qed.

Lemma move_backward_not_trivial first last d_last :
  is_trivially_copyable ops = false ->
  move_backward ops first last d_last
  = move_backward_loop ops (ptr_diff last first) last d_last.
Proof. intros E. unfold move_backward. now rewrite E. Qed.

Lemma move_backward_inverted_trivial first last d_last h :
  is_trivially_copyable ops = true -> off last < off first ->
  move_backward ops first last d_last h = (Fault, h).
Proof.
  intros E L. unfold move_backward. rewrite E.
  replace (off last <? off first) with true by (symmetry; apply Nat.ltb_lt; exact L).
  reflexivity.
Qed.

(** [std::move_backward] of the objects [m] one slot to the right, onto a
    live object: the slot the first of them leaves keeps a live object. *)
Lemma move_backward_loop_ok m : forall h b (pre post : list (option T)) r,
  (forall d x, exists r, move_assign ops d x = Ok (x, r)) ->
  blocks h !! b = Some (Some (pre ++ (Some <$> m) ++ Some r :: post)) ->
  exists r',
    move_backward_loop ops (length m)
      {| blk := Some b; off := length pre + length m |}
      {| blk := Some b; off := length pre + length m + 1 |} h
    = (Ok tt, hset b (pre ++ Some r' :: (Some <$> m) ++ post) h).
Proof.
  induction m as [| x m IH] using rev_ind; intros h b pre post r Hma E.
  - exists r. simpl. unfold ret. rewrite hset_id; [reflexivity | exact E].
  - destruct (Hma r x) as [rx Hrx].
    set (s1 := pre ++ (Some <$> m)).
    assert (L1 : length s1 = length pre + length m)
      by (unfold s1; rewrite length_app, length_fmap; reflexivity).
    assert (E' : blocks h !! b = Some (Some (s1 ++ Some x :: Some r :: post))).
    { rewrite E. unfold s1. rewrite fmap_app, <- !app_assoc. reflexivity. }
    assert (Hstep : move_assign_at ops
                      {| blk := Some b; off := length pre + length m + 1 |}
                      {| blk := Some b; off := length pre + length m |} h
                    = (Ok tt, hset b (s1 ++ Some rx :: Some x :: post) h)).
    { erewrite move_assign_at_ok; [| exact E' | | | | exact Hrx].
      - rewrite insert_middle_n by exact L1.
        change (s1 ++ Some rx :: Some r :: post)
          with (s1 ++ [Some rx] ++ Some r :: post).
        rewrite app_assoc.
        rewrite insert_middle_n by (rewrite length_app; simpl; lia).
        rewrite <- app_assoc. reflexivity.
      - change (s1 ++ Some x :: Some r :: post)
          with (s1 ++ [Some x] ++ Some r :: post).
        rewrite app_assoc. apply lookup_middle_n. rewrite length_app. simpl. lia.
      - apply lookup_middle_n. exact L1.
      - lia. }
    destruct (IH (hset b (s1 ++ Some rx :: Some x :: post) h) b pre (Some x :: post) rx Hma)
      as [r' Hr'].
    { erewrite blocks_hset_eq by exact E. unfold s1. rewrite <- app_assoc. reflexivity. }
    exists r'. rewrite length_app. simpl length.
    replace (length m + 1) with (S (length m)) by lia. simpl move_backward_loop.
    unfold ptr_sub. simpl.
    replace (length pre + S (length m) - 1) with (length pre + length m) by lia.
    replace (length pre + S (length m) + 1 - 1) with (length pre + length m + 1) by lia.
    erewrite bind_ok by exact Hstep.
    rewrite Hr', hset_hset. rewrite fmap_app, <- !app_assoc. reflexivity.
Qed.

Lemma move_construct_at_ok h b (s : list (option T)) i j x x' r :
  blocks h !! b = Some (Some s) ->
  s !! j = Some (Some x) -> s !! i = Some None ->
  move_ctor ops x = Ok (x', r) ->
  move_construct_at ops {| blk := Some b; off := i |} {| blk := Some b; off := j |} h
  = (Ok tt, hset b (<[i := Some x']> (<[j := Some r]> s)) h).
Proof.
  intros E Ej Ei Hm. unfold move_construct_at.
  erewrite bind_ok by (eapply read_spec; eauto).
  erewrite bind_ok by (unfold pure_of; rewrite Hm; reflexivity).
  cbv beta iota.
  erewrite bind_ok by (eapply write_spec; eauto).
  erewrite construct_at_spec.
  - rewrite hset_hset. reflexivity.
  - eapply blocks_hset_eq, E.
  - rewrite list_lookup_insert_ne; [exact Ei |]. intros ->. congruence.
Qed.

Lemma move_assign_from_ok h b (s : list (option T)) i d y y' r :
  blocks h !! b = Some (Some s) ->
  s !! i = Some (Some d) ->
  move_assign ops d y = Ok (y', r) ->
  move_assign_from ops {| blk := Some b; off := i |} y h
  = (Ok tt, hset b (<[i := Some y']> s) h).
Proof.
  intros E Ei Hm. unfold move_assign_from.
  erewrite bind_ok by (eapply read_spec; eauto).
  erewrite bind_ok by (unfold pure_of; rewrite Hm; reflexivity).
  cbv beta iota. eapply write_spec; eauto.
Qed.

Lemma ptr_leb_same (b : option nat) i j :
  ptr_leb {| blk := b; off := i |} {| blk := b; off := j |} = (i <=? j).
Proof. unfold ptr_leb. simpl. now rewrite bool_decide_eq_true_2. Qed.

(** [Emplace] before an element, with spare capacity: the branch that shifts
    the tail one slot to the right. *)
Lemma Emplace_in_place v h l1 m z y :
  moves_faithfully ops ->
  is_vector (v, h) (l1 ++ m ++ [z]) ->
  Size v < Capacity v ->
  exists v' h',
    Emplace ops (ptr_add (begin v) (length l1)) (Ok y) (v, h)
    = (Ok (ptr_add (begin v') (length l1)), (v', h')) /\
    is_vector (v', h') (l1 ++ y :: m ++ [z]) /\
    Size v' = Size v + 1 /\ Capacity v' = Capacity v /\ begin v' = begin v.
Proof.
  intros [Hmc Hma] Hv Hlt.
  destruct (is_vector_inv _ _ _ Hv) as (Hs & Hc & Hsh).
  destruct v as [[p c] k]. unfold Size, Capacity, RawMem.Capacity in *. proj.
  cbn [size_ data_ capacity_ buffer_ fst snd] in *. subst k.
  rewrite !length_app in *. cbn [length] in *.
  remember (length l1 + (length m + 1)) as k eqn:Hk.
  destruct Hsh as [(_ & E & _) | (b & -> & Hm)]; [lia |].
  destruct (Hmc z) as [rz Hrz].
  set (pre := Some <$> l1).
  set (raw := replicate (c - S k) (@None T)).
  assert (Lp : length pre = length l1) by apply length_fmap.
  assert (E0 : blocks h !! b
               = Some (Some ((pre ++ (Some <$> m)) ++ Some z :: None :: raw))).
  { rewrite Hm. rewrite slots_of_raw by (rewrite !length_app; simpl; lia).
    rewrite !fmap_app, !length_app, <- !app_assoc. unfold pre, raw. simpl.
    repeat f_equal. lia. }
  assert (L0 : length (pre ++ (Some <$> m)) = k - 1)
    by (rewrite length_app, length_fmap, Lp; lia).
  (* the last element moves into the raw slot at end() *)
  set (h1 := hset b ((pre ++ (Some <$> m)) ++ Some rz :: Some z :: raw) h).
  assert (H1 : move_construct_at ops {| blk := Some b; off := k |}
                 {| blk := Some b; off := k - 1 |} h = (Ok tt, h1)).
  { erewrite move_construct_at_ok; [| exact E0 | | | exact Hrz].
    - rewrite insert_middle_n by exact L0.
      change ((pre ++ (Some <$> m)) ++ Some rz :: None :: raw)
        with ((pre ++ (Some <$> m)) ++ [Some rz] ++ None :: raw).
      rewrite app_assoc.
      rewrite insert_middle_n by (rewrite length_app, L0; simpl; lia).
      rewrite <- app_assoc. reflexivity.
    - apply lookup_middle_n. exact L0.
    - change ((pre ++ (Some <$> m)) ++ Some z :: None :: raw)
        with ((pre ++ (Some <$> m)) ++ [Some z] ++ None :: raw).
      rewrite app_assoc. apply lookup_middle_n. rewrite length_app, L0. simpl. lia. }
  (* the elements from the position on are shifted *)
  destruct (move_backward_loop_ok m h1 b pre (Some z :: raw) rz Hma) as [r' H2].
  { unfold h1. erewrite blocks_hset_eq by exact Hm. rewrite <- app_assoc. reflexivity. }
  rewrite Lp in H2.
  replace (length l1 + length m + 1) with k in H2 by (lia).
  replace (length l1 + length m) with (k - 1) in H2 by (lia).
  set (h2 := hset b (pre ++ Some r' :: (Some <$> m) ++ Some z :: raw) h1) in *.
  (* the new value is assigned to the slot at the position *)
  destruct (Hma r' y) as [ry Hry].
  assert (H3 : move_assign_from ops {| blk := Some b; off := length l1 |} y h2
               = (Ok tt, hset b (pre ++ Some y :: (Some <$> m) ++ Some z :: raw) h)).
  { erewrite move_assign_from_ok; [| | | exact Hry].
    - rewrite insert_middle_n by exact Lp. unfold h2, h1. rewrite !hset_hset. reflexivity.
    - unfold h2. eapply blocks_hset_eq. unfold h1. eapply blocks_hset_eq, Hm.
    - apply lookup_middle_n. exact Lp. }
  exists {| data_ := {| buffer_ := {| blk := Some b; off := 0 |}; capacity_ := c |};
            size_ := k + 1 |}.
  eexists. split.
  { unfold Emplace. step. rewrite !ptr_leb_same.
    replace (0 <=? length l1) with true by reflexivity.
    replace (length l1 <=? k) with true by (symmetry; apply Nat.leb_le; lia).
    cbn [andb assert]. step.
    rewrite Nat.sub_0_r.
    replace (k =? c) with false by (symmetry; apply Nat.eqb_neq; lia).
    replace (k =? 0) with false by (symmetry; apply Nat.eqb_neq; lia).
    cbn [negb]. cbv match.
    erewrite bind_ok; cycle 1.
    { erewrite bind_ok by reflexivity. cbv beta.
      erewrite bind_ok by (apply in_heap_eq, H1).
      erewrite bind_ok; cycle 1.
      { apply in_heap_eq. rewrite move_backward_valid by (cbn [off]; lia). proj.
        replace (k - 1 - length l1) with (length m) by (lia).
        exact H2. }
      erewrite bind_ok by (apply in_heap_eq, H3).
      reflexivity. }
    step. step. reflexivity. }
  proj. split; [| repeat split; auto].
  apply is_vector_block.
  - rewrite !length_app. simpl. rewrite length_app. simpl. lia.
  - rewrite !length_app. simpl. rewrite length_app. simpl. lia.
  - erewrite blocks_hset_eq by exact Hm.
    change (l1 ++ y :: m ++ [z]) with (l1 ++ (y :: m) ++ [z]).
    rewrite app_assoc, slots_of_snoc, fmap_app, <- app_assoc, length_app.
    simpl. do 7 f_equal. lia.
Qed.

(** Property X8.  [Emplace] at [end()] of a non-empty vector with spare
    capacity: the same branch, with [std::move_backward] called on the
    inverted range from [end()] to [end() - 1].  For a trivially copyable
    type that call is the end of defined behaviour.  For any other type the
    last element [z] is moved into the slot at [end()], nothing is shifted,
    and the new value is assigned over that slot: what is left of [z] is
    [rz], the state its move constructor leaves in the source. *)
Lemma Emplace_end_in_place v h l0 z rz y :
  moves_faithfully ops ->
  move_ctor ops z = Ok (z, rz) ->
  is_vector (v, h) (l0 ++ [z]) ->
  Size v < Capacity v ->
  if is_trivially_copyable ops then
    fst (Emplace ops (end_ v) (Ok y) (v, h)) = Fault
  else
    exists v' h',
      Emplace ops (end_ v) (Ok y) (v, h) = (Ok (end_ v), (v', h')) /\
      is_vector (v', h') (l0 ++ [rz; y]) /\
      Size v' = Size v + 1 /\ Capacity v' = Capacity v /\ begin v' = begin v.
Proof.
  intros [Hmc Hma] Hrz Hv Hlt.
  destruct (is_vector_inv _ _ _ Hv) as (Hs & Hc & Hsh).
  destruct v as [[p c] k]. unfold Size, Capacity, RawMem.Capacity in *. proj.
  cbn [size_ data_ capacity_ buffer_ fst snd] in *. subst k.
  rewrite !length_app in *. cbn [length] in *.
  remember (length l0 + 1) as k eqn:Hk.
  destruct Hsh as [(_ & E & _) | (b & -> & Hm)]; [lia |].
  set (pre := Some <$> l0).
  set (raw := replicate (c - S k) (@None T)).
  assert (Lp : length pre = k - 1) by (unfold pre; rewrite length_fmap; lia).
  assert (E0 : blocks h !! b = Some (Some (pre ++ Some z :: None :: raw))).
  { rewrite Hm. rewrite slots_of_raw by (rewrite !length_app; simpl; lia).
    rewrite !fmap_app, !length_app, <- !app_assoc. unfold pre, raw. simpl.
    repeat f_equal. lia. }
  set (h1 := hset b (pre ++ Some rz :: Some z :: raw) h).
  assert (H1 : move_construct_at ops {| blk := Some b; off := k |}
                 {| blk := Some b; off := k - 1 |} h = (Ok tt, h1)).
  { erewrite move_construct_at_ok; [| exact E0 | | | exact Hrz].
    - rewrite insert_middle_n by exact Lp.
      rewrite insert_middle_n1 by lia. reflexivity.
    - apply lookup_middle_n. exact Lp.
    - apply lookup_middle_n1. lia. }
  assert (Hstart :
            Emplace ops {| blk := Some b; off := k |} (Ok y)
              ({| data_ := {| buffer_ := {| blk := Some b; off := 0 |};
                              capacity_ := c |}; size_ := k |}, h)
            = (let* elem_pos :=
                 (in_heap (move_backward ops {| blk := Some b; off := k |}
                             {| blk := Some b; off := k - 1 |}
                             {| blk := Some b; off := k |}) ;;;
                  in_heap (move_assign_from ops {| blk := Some b; off := k |} y) ;;;
                  ret {| blk := Some b; off := k |}) in
               let* v := this in
               set_size (size_ v + 1) ;;;
               ret elem_pos)
                ({| data_ := {| buffer_ := {| blk := Some b; off := 0 |};
                                capacity_ := c |}; size_ := k |}, h1)).
  { unfold Emplace. step. rewrite !ptr_leb_same.
    replace (0 <=? k) with true by reflexivity.
    rewrite Nat.leb_refl. cbn [andb assert]. step.
    rewrite Nat.sub_0_r.
    replace (k =? c) with false by (symmetry; apply Nat.eqb_neq; lia).
    replace (k =? 0) with false by (symmetry; apply Nat.eqb_neq; lia).
    cbn [negb]. cbv match.
    unfold bind at 1. unfold bind at 1. unfold pure_of at 1.
    unfold bind at 1. rewrite (in_heap_eq _ _ _ _ _ H1).
    reflexivity. }
  cbn [blk off Nat.add]. rewrite Hstart. clear Hstart.
  destruct (is_trivially_copyable ops) eqn:Htc.
  - (* [memmove] of a negative number of bytes *)
    erewrite bind_fault; [reflexivity |].
    erewrite bind_fault; [reflexivity |].
    apply in_heap_eq, move_backward_inverted_trivial; [exact Htc | cbn [off]; lia].
  - destruct (Hma z y) as [ry Hry].
    assert (H3 : move_assign_from ops {| blk := Some b; off := k |} y h1
                 = (Ok tt, hset b (pre ++ Some rz :: Some y :: raw) h)).
    { erewrite (move_assign_from_ok _ _ (pre ++ Some rz :: Some z :: raw));
        [| | | exact Hry].
      - rewrite insert_middle_n1 by lia.
        unfold h1. rewrite hset_hset. reflexivity.
      - unfold h1. eapply blocks_hset_eq, Hm.
      - apply lookup_middle_n1. lia. }
    exists {| data_ := {| buffer_ := {| blk := Some b; off := 0 |}; capacity_ := c |};
              size_ := k + 1 |}.
    eexists. split.
    { erewrite bind_ok; cycle 1.
      { erewrite bind_ok; cycle 1.
        { apply in_heap_eq. rewrite move_backward_not_trivial by exact Htc. proj.
          replace (k - 1 - k) with 0 by lia. reflexivity. }
        erewrite bind_ok by (apply in_heap_eq, H3).
        reflexivity. }
      step. step. reflexivity. }
    proj. split; [| repeat split; auto].
    apply is_vector_block.
    + rewrite !length_app. simpl. lia.
    + rewrite !length_app. simpl. lia.
    + erewrite blocks_hset_eq by exact Hm.
      change (l0 ++ [rz; y]) with (l0 ++ [rz] ++ [y]).
      rewrite app_assoc, slots_of_snoc, fmap_app, <- app_assoc, length_app.
      simpl. unfold pre, raw. repeat f_equal. lia.
Qed.

(** [Emplace] into an empty vector that has storage. *)
Lemma Emplace_empty_in_place v h y :
  is_vector (v, h) [] ->
  0 < Capacity v ->
  exists v' h',
    Emplace ops (ptr_add (begin v) 0) (Ok y) (v, h)
    = (Ok (ptr_add (begin v') 0), (v', h')) /\
    is_vector (v', h') [y] /\
    Size v' = 1 /\ Capacity v' = Capacity v /\ begin v' = begin v.
Proof.
  intros Hv Hlt.
  destruct (is_vector_inv _ _ _ Hv) as (Hs & Hc & Hsh).
  destruct v as [[p c] k]. unfold Size, Capacity, RawMem.Capacity in *. proj.
  cbn [size_ data_ capacity_ buffer_ fst snd length] in *. subst k.
  destruct Hsh as [(_ & E & _) | (b & -> & Hm)]; [lia |].
  rewrite slots_of_raw in Hm by (simpl; lia).
  exists {| data_ := {| buffer_ := {| blk := Some b; off := 0 |}; capacity_ := c |};
            size_ := 1 |}.
  eexists. split.
  { unfold Emplace. step. rewrite !ptr_leb_same. cbn [Nat.leb andb assert]. step.
    replace (0 =? c) with false by (symmetry; apply Nat.eqb_neq; lia).
    cbn [Nat.eqb negb Nat.sub]. cbv match.
    erewrite bind_ok; cycle 1.
    { apply in_heap_eq. eapply placement_new_ok; [exact Hm | reflexivity]. }
    step. step. reflexivity. }
  proj. split; [| repeat split; auto].
  apply is_vector_block; [reflexivity | simpl; lia |].
  erewrite blocks_hset_eq by exact Hm. reflexivity.
Qed.

(** [Emplace] when [size == capacity], for elements that relocate
    faithfully. *)
Lemma Emplace_grow v h l1 l2 y :
  is_vector (v, h) (l1 ++ l2) ->
  Size v = Capacity v ->
  Forall (relocates ops) (l1 ++ l2) ->
  exists v' h',
    Emplace ops (ptr_add (begin v) (length l1)) (Ok y) (v, h)
    = (Ok (ptr_add (begin v') (length l1)), (v', h')) /\
    is_vector (v', h') (l1 ++ y :: l2) /\
    Size v' = Size v + 1 /\
    Capacity v' = Nat.max 1 (2 * Capacity v) /\
    leaked h' = leaked h.
Proof.
  intros Hv Hfull F.
  destruct (is_vector_inv _ _ _ Hv) as (Hs & Hc & Hsh).
  destruct v as [[p c] k]. unfold Size, Capacity, RawMem.Capacity in *. proj.
  cbn [size_ data_ capacity_ buffer_ fst snd] in *. subst k.
  rewrite length_app in *.
  set (bd := length (blocks h)) in *.
  destruct (Nat.eq_dec c 0) as [-> | Nc].
  - (* the first element: Reserve(1) *)
    assert (l1 = []) as -> by (destruct l1; simpl in *; [reflexivity | lia]).
    assert (l2 = []) as -> by (destruct l2; simpl in *; [reflexivity | lia]).
    destruct (Reserve_grow ops _ h [] 1 Hv) as (h1 & Hrun & Hb & _ & Hk);
      [simpl; lia | apply fits_1 | constructor |].
    fold bd in Hrun, Hb. cbn [size_] in Hrun.
    exists {| data_ := {| buffer_ := {| blk := Some bd; off := 0 |}; capacity_ := 1 |};
              size_ := 1 |}.
    eexists. split.
    { unfold Emplace. step. cbn [length app].
      assert (Hp : p = {| blk := blk p; off := 0 |}).
      { destruct Hsh as [(-> & _) | (b & -> & _)]; reflexivity. }
      rewrite Hp. proj. rewrite !ptr_leb_same. cbn [Nat.leb andb assert]. step.
      cbn [Nat.eqb]. cbv match.
      erewrite bind_ok; cycle 1.
      { erewrite bind_ok by (rewrite <- Hp; exact Hrun). step.
        apply in_heap_eq. eapply placement_new_ok; [exact Hb | reflexivity]. }
      step. step. reflexivity. }
    proj. split; [| repeat split; auto].
    apply is_vector_block; [reflexivity | simpl; lia |].
    eapply blocks_hset_eq, Hb.
  - (* doubling *)
    destruct Hsh as [(_ & E & _) | (b & -> & Hm)]; [congruence |].
    assert (Nb : b <> bd) by (apply lookup_lt_Some in Hm; unfold bd; lia).
    assert (Nb' : bd <> b) by (intros E'; apply Nb; symmetry; exact E').
    clear Hc. rename c into k. rename Hs into Hk.
    apply Forall_app in F as [F1 F2].
    set (raw := replicate (k - k) (@None T)).
    set (raw' := replicate (k - 1) (@None T)).
    assert (Hm0 : blocks h !! b = Some (Some ((Some <$> l1) ++ (Some <$> l2) ++ raw))).
    { rewrite Hm. unfold slots_of, raw. rewrite fmap_app, length_app, <- app_assoc.
      repeat f_equal. lia. }
    set (h0 := hset bd (replicate (length l1) None ++ Some y
                          :: replicate (length l2) None ++ raw')
                 (halloc (k * 2) h)).
    assert (Hnew : placement_new {| blk := Some bd; off := length l1 |} (Ok y)
                     (halloc (k * 2) h)
                   = (Ok {| blk := Some bd; off := length l1 |}, h0)).
    { assert (Hb0 : blocks (halloc (k * 2) h) !! bd
                    = Some (Some (replicate (length l1) None ++ None
                                    :: replicate (length l2) None ++ raw'))).
      { unfold bd. rewrite blocks_halloc_new. unfold raw'.
        rewrite <- replicate_add.
        change (None :: replicate (length l2 + (k - 1)) (@None T))
          with (replicate (S (length l2 + (k - 1))) (@None T)).
        rewrite <- replicate_add. repeat f_equal. lia. }
      erewrite placement_new_ok
        by first [ exact Hb0 | apply lookup_middle_n, length_replicate ].
      rewrite insert_middle_n by apply length_replicate. reflexivity. }
    (* the elements before the position *)
    destruct (Uninitialized_Move_Or_Copy_N_ok ops l1 h0 b bd
                [] ((Some <$> l2) ++ raw) []
                (Some y :: replicate (length l2) None ++ raw') Nb)
      as (rs1 & Hrs1 & Hrun1); [| | exact F1 |].
    { unfold h0. rewrite blocks_hset_ne by exact Nb'.
      eapply blocks_halloc_old. exact Hm0. }
    { unfold h0. erewrite blocks_hset_eq by apply blocks_halloc_new. reflexivity. }
    cbn [length app] in Hrun1.
    set (h1 := hset bd ((Some <$> l1) ++ Some y :: replicate (length l2) None ++ raw')
                 (hset b ((Some <$> rs1) ++ (Some <$> l2) ++ raw) h0)) in *.
    (* the elements from the position on *)
    destruct (Uninitialized_Move_Or_Copy_N_ok ops l2 h1 b bd
                (Some <$> rs1) raw ((Some <$> l1) ++ [Some y]) raw' Nb)
      as (rs2 & Hrs2 & Hrun2); [| | exact F2 |].
    { unfold h1. rewrite blocks_hset_ne by exact Nb'.
      erewrite blocks_hset_eq; [reflexivity |].
      unfold h0. rewrite blocks_hset_ne by exact Nb'.
      eapply blocks_halloc_old. exact Hm0. }
    { unfold h1. erewrite blocks_hset_eq.
      - rewrite <- app_assoc. reflexivity.
      - rewrite blocks_hset_ne by exact Nb.
        unfold h0. eapply blocks_hset_eq, blocks_halloc_new. }
    rewrite length_app, !length_fmap, Hrs1 in Hrun2. cbn [length] in Hrun2.
    set (h2 := hset bd (((Some <$> l1) ++ [Some y]) ++ (Some <$> l2) ++ raw')
                 (hset b ((Some <$> rs1) ++ (Some <$> rs2) ++ raw) h1)) in *.
    assert (E2 : blocks h2 !! b
                 = Some (Some ([] ++ (Some <$> rs1 ++ rs2) ++ raw))).
    { unfold h2. rewrite blocks_hset_ne by exact Nb'.
      erewrite blocks_hset_eq.
      - rewrite fmap_app, <- app_assoc. reflexivity.
      - unfold h1. rewrite blocks_hset_ne by exact Nb'.
        erewrite blocks_hset_eq; [reflexivity |].
        unfold h0. rewrite blocks_hset_ne by exact Nb'.
        eapply blocks_halloc_old. exact Hm0. }
    pose proof (destroy_n_spec (rs1 ++ rs2) h2 b [] _ E2) as Hd.
    rewrite length_app, Hrs1, Hrs2, <- Hk in Hd. cbn [length app] in Hd.
    unfold raw in Hd. rewrite <- replicate_add in Hd.
    exists {| data_ := {| buffer_ := {| blk := Some bd; off := 0 |};
                          capacity_ := k * 2 |};
              size_ := k + 1 |}.
    eexists. split.
    { unfold Emplace. step. rewrite !ptr_leb_same.
      replace (0 <=? length l1) with true by reflexivity.
      replace (length l1 <=? k) with true by (symmetry; apply Nat.leb_le; lia).
      cbn [andb assert]. step.
      rewrite Nat.sub_0_r, Nat.eqb_refl.
      replace (k =? 0) with false by (symmetry; apply Nat.eqb_neq; exact Nc).
      erewrite bind_ok; cycle 1.
      { erewrite bind_ok by (apply in_heap_eq, RawMemory_new_fitting_spec; lia). proj.
        erewrite bind_ok; cycle 1.
        { apply on_throw_ok, in_heap_eq.
          erewrite bind_ok by exact Hnew.
          erewrite bind_ok by exact Hrun1.
          replace (k - length l1) with (length l2) by lia.
          erewrite bind_ok by exact Hrun2.
          reflexivity. }
        erewrite bind_ok by (apply in_heap_eq, Hd).
        step.
        erewrite bind_ok by (apply in_heap_eq; eapply RawMemory_delete_raw, E2).
        reflexivity. }
      step. step. reflexivity. }
    proj. split; [| repeat split; auto].
    + apply is_vector_block.
      * rewrite !length_app. simpl. lia.
      * rewrite !length_app. simpl. lia.
      * rewrite blocks_hfree_ne by exact Nb.
        unfold h2. erewrite blocks_hset_eq.
        -- unfold slots_of, raw'. rewrite fmap_app, <- !app_assoc, length_app.
           simpl.
           replace (k * 2 - (length l1 + S (length l2))) with (k - 1) by lia.
           reflexivity.
        -- rewrite blocks_hset_ne by exact Nb.
           unfold h1. eapply blocks_hset_eq.
           rewrite blocks_hset_ne by exact Nb.
           unfold h0. eapply blocks_hset_eq, blocks_halloc_new.
    + lia.
Qed.

(** The cases of [Emplace] that insert, put together. *)
Lemma Emplace_inserts v h l n y :
  moves_faithfully ops ->
  Forall (relocates ops) l ->
  is_vector (v, h) l ->
  n <= length l ->
  Size v = Capacity v \/ l = [] \/ n < length l ->
  exists v' h',
    Emplace ops (ptr_add (begin v) n) (Ok y) (v, h)
    = (Ok (ptr_add (begin v') n), (v', h')) /\
    is_vector (v', h') (take n l ++ y :: drop n l) /\
    Size v' = Size v + 1.
Proof.
  intros Hmv F Hv Hn Hcase.
  assert (Ln : length (take n l) = n) by (rewrite length_take; lia).
  destruct (Nat.eq_dec (Size v) (Capacity v)) as [Hfull | Hspare].
  - rewrite <- (take_drop n l) in Hv, F.
    destruct (Emplace_grow v h _ _ y Hv Hfull F) as (v' & h' & Hrun & Hv' & Hs & _).
    rewrite Ln in Hrun. exists v', h'. auto.
  - destruct (is_vector_inv _ _ _ Hv) as (Hs & Hc & _). unfold Size, Capacity in *.
    assert (Hlt : size_ v < RawMem.Capacity (data_ v))
      by (unfold RawMem.Capacity in *; lia).
    destruct Hcase as [E | [-> | Hn']]; [contradiction | |].
    + replace n with 0 by (simpl in Hn; lia). simpl.
      destruct (Emplace_empty_in_place v h y Hv) as (v' & h' & Hrun & Hv' & Hs' & _).
      { unfold Capacity. lia. }
      exists v', h'. unfold Size in *. simpl in Hs.
      split; [exact Hrun |]. split; [exact Hv' | lia].
    + destruct (drop n l) as [| z m _] eqn:Hd using rev_ind.
      { apply (f_equal length) in Hd. rewrite length_drop in Hd. simpl in Hd. lia. }
      rewrite <- (take_drop n l), Hd in Hv.
      destruct (Emplace_in_place v h _ m z y Hmv Hv Hlt)
        as (v' & h' & Hrun & Hv' & Hs' & _).
      rewrite Ln in Hrun. exists v', h'. auto.
Qed.

(** Property X7.  [Emplace] inserts before the position in every case but one: with spare
    capacity, on a non-empty vector, at [end()] (see [Emplace_end_in_place]). *)
Theorem Emplace_spec v h l n y :
  moves_faithfully ops ->
  Forall (relocates ops) l ->
  is_vector (v, h) l ->
  n <= length l ->
  Size v = Capacity v \/ l = [] \/ n < length l ->
  exists v' h',
    Emplace ops (ptr_add (begin v) n) (Ok y) (v, h)
    = (Ok (ptr_add (begin v') n), (v', h')) /\
    is_vector (v', h') (take n l ++ y :: drop n l) /\
    Size v' = Size v + 1.
Proof. exact (Emplace_inserts v h l n y). Qed.

End EmplaceFacts.

(** ** Exceptions while a vector grows *)

Section GrowthExceptions.
Context {T : Type} (ops : ElemOps T).
Implicit Types (h : Heap T) (v : Vector) (l : list T) (b i n : nat).

Lemma omap_id_raw_then_live n (y : T) m :
  omap id (replicate n None ++ Some y :: replicate m None) = [y].
Proof.
  rewrite omap_app, omap_id_replicate_None. simpl.
  now rewrite omap_id_replicate_None.
Qed.

(** An append that finds [size == capacity] on a non-empty vector whose
    elements relocate by copy: when the constructor of the new element throws,
    the new buffer is released and nothing else has changed. *)
Lemma append_with_ctor_throws v h l :
  is_vector (v, h) l -> Size v = Capacity v -> l <> [] ->
  exists h',
    append_with ops Throw (v, h) = (Throw, (v, h')) /\
    leaked h' = leaked h /\
    is_vector (v, h') l /\
    forall b o, blocks h !! b = Some o -> blocks h' !! b = Some o.
Proof.
  intros Hv Hfull Hne.
  destruct (is_vector_inv _ _ _ Hv) as (Hs & Hc & Hsh).
  destruct v as [[p c] k]. unfold Size, Capacity, RawMem.Capacity in *.
  cbn [size_ data_ capacity_ buffer_ fst snd] in *. subst k.
  assert (Nc : c <> 0) by (destruct l; simpl in *; [congruence | lia]).
  exists (hfree (length (blocks h)) (halloc (c * 2) h)).
  assert (Hold : forall b o, blocks h !! b = Some o ->
                 blocks (hfree (length (blocks h)) (halloc (c * 2) h)) !! b = Some o).
  { intros b o E. rewrite blocks_hfree_ne.
    - eapply blocks_halloc_old, E.
    - apply lookup_lt_Some in E. lia. }
  split; [| split; [reflexivity | split; [eapply is_vector_frame; eauto | exact Hold]]].
  unfold append_with. step. unfold Capacity. proj.
  rewrite Nat.eqb_refl.
  replace (c =? 0) with false by (symmetry; apply Nat.eqb_neq; exact Nc).
  erewrite bind_throw; [reflexivity |].
  erewrite bind_ok by (apply in_heap_eq, RawMemory_new_fitting_spec; lia). proj.
  erewrite bind_throw; [reflexivity |].
  eapply on_throw_throw.
  - apply in_heap_eq. reflexivity.
  - apply in_heap_eq.
    pose proof (RawMemory_delete_raw (halloc (c * 2) h) (length (blocks h)) (c * 2)
                  (c * 2) _ (blocks_halloc_new _ _)) as Hdel.
    rewrite hset_id in Hdel by apply blocks_halloc_new. exact Hdel.
Qed.

(** The same append when the new element is constructed as [y] and a copy
    constructor throws during the relocation: the vector and every block of
    the heap are as before, but the new buffer was released with [y] alive in
    it. *)
Lemma append_with_relocation_throws v h l y :
  is_vector (v, h) l -> Size v = Capacity v -> l <> [] ->
  relocates_by_move ops = false ->
  copy_all ops l = Throw ->
  exists h',
    append_with ops (Ok y) (v, h) = (Throw, (v, h')) /\
    leaked h' = leaked h ++ [y] /\
    is_vector (v, h') l /\
    forall b o, blocks h !! b = Some o -> blocks h' !! b = Some o.
Proof.
  intros Hv Hfull Hne Hpol Hall.
  destruct (is_vector_inv _ _ _ Hv) as (Hs & Hc & Hsh).
  destruct v as [[p c] k]. unfold Size, Capacity, RawMem.Capacity in *.
  cbn [size_ data_ capacity_ buffer_ fst snd] in *. subst k.
  assert (Nc : c <> 0) by (destruct l; simpl in *; [congruence | lia]).
  destruct Hsh as [(_ & E & _) | (b & -> & Hm)]; [congruence |].
  set (bd := length (blocks h)) in *.
  assert (Nb : b <> bd) by (apply lookup_lt_Some in Hm; unfold bd; lia).
  assert (Nb' : bd <> b) by (intros E'; apply Nb; symmetry; exact E').
  rename c into k. rename Hs into Hk. clear Hc.
  set (raw' := replicate (k - 1) (@None T)).
  set (h0 := hset bd (replicate k None ++ Some y :: raw') (halloc (k * 2) h)).
  assert (Hnew : placement_new {| blk := Some bd; off := k |} (Ok y) (halloc (k * 2) h)
                 = (Ok {| blk := Some bd; off := k |}, h0)).
  { assert (Hb0 : blocks (halloc (k * 2) h) !! bd
                  = Some (Some (replicate k None ++ None :: raw'))).
    { unfold bd. rewrite blocks_halloc_new. unfold raw'.
      replace (k * 2) with (k + S (k - 1)) by lia. now rewrite replicate_add. }
    erewrite placement_new_ok
      by first [ exact Hb0 | apply lookup_middle_n, length_replicate ].
    rewrite insert_middle_n by apply length_replicate. reflexivity. }
  pose proof (uninitialized_copy_from_spec ops l h0 b bd
                [] (replicate (k - length l) None) [] [] (Some y :: raw') Nb) as Hcopy.
  cbn [length app fmap list_fmap] in Hcopy. rewrite Hall, <- Hk in Hcopy.
  cbv zeta in Hcopy. cbn [Nat.add] in Hcopy.
  assert (Hthrow : uninitialized_copy_from ops {| blk := Some b; off := 0 |} k
                     {| blk := Some bd; off := 0 |} {| blk := Some bd; off := 0 |} h0
                   = (Throw, h0)).
  { rewrite Hcopy.
    - unfold h0. rewrite hset_hset. reflexivity.
    - unfold h0. rewrite blocks_hset_ne by exact Nb'.
      eapply blocks_halloc_old. rewrite Hm. unfold slots_of. rewrite Hk. reflexivity.
    - unfold h0. erewrite blocks_hset_eq by apply blocks_halloc_new. reflexivity. }
  set (h' := {| blocks := <[bd := None]> (blocks h0);
                leaked := leaked h0 ++ omap id (replicate k None ++ Some y :: raw') |}).
  assert (Hdel : RawMemory_delete
                   {| buffer_ := {| blk := Some bd; off := 0 |}; capacity_ := k * 2 |} h0
                 = (Ok tt, h')).
  { eapply RawMemory_delete_spec. unfold h0.
    eapply blocks_hset_eq, blocks_halloc_new. }
  assert (Hold : forall b0 o, blocks h !! b0 = Some o -> blocks h' !! b0 = Some o).
  { intros b0 o E. unfold h'. cbn [blocks].
    assert (b0 <> bd) by (apply lookup_lt_Some in E; unfold bd; lia).
    rewrite list_lookup_insert_ne by congruence.
    unfold h0. rewrite blocks_hset_ne by congruence.
    eapply blocks_halloc_old, E. }
  exists h'. split; [| split; [| split; [eapply is_vector_frame; eauto | exact Hold]]].
  - unfold append_with. step. unfold Capacity. proj.
    rewrite Nat.eqb_refl.
    replace (k =? 0) with false by (symmetry; apply Nat.eqb_neq; exact Nc).
    erewrite bind_throw; [reflexivity |].
    erewrite bind_ok by (apply in_heap_eq, RawMemory_new_fitting_spec; lia). proj.
    erewrite bind_throw; [reflexivity |].
    eapply on_throw_throw.
    + apply in_heap_eq. erewrite bind_ok by exact Hnew.
      unfold Uninitialized_Move_Or_Copy_N.
      unfold relocates_by_move in Hpol. rewrite Hpol.
      unfold uninitialized_copy_n. exact Hthrow.
    + apply in_heap_eq. exact Hdel.
  - unfold h'. cbn [leaked]. unfold raw'. rewrite omap_id_raw_then_live. reflexivity.
Qed.

End GrowthExceptions.

(** ** Insertion at the end with spare capacity, and exceptions during growth *)

Open Scope string_scope.

(** Claim C1 fails on the code.  [Vector<std::string> v; v.Reserve(2);
    v.PushBack("a"); v.Emplace(v.end(), "x");] runs in the branch of [Emplace]
    for spare capacity: the last element is moved into the slot at [end()],
    [std::move_backward] has nothing to move, and the new value is
    move-assigned over the slot at [end()].  The old last element is lost:
    the vector ends as the moved-from (empty) string followed by ["x"], not as
    ["a"] followed by ["x"].  The size, the capacity and the returned position
    are as the claim says.  [Emplace_end_in_place] is the general form of this
    run, and [Emplace_spec] shows that every other case inserts as claimed. *)
Theorem Emplace_end_spare_capacity_loses_last :
  exists v h p v' h',
    (Reserve string_ops 2 ;;; PushBack string_ops "a") (Vector_default, empty_heap)
    = (Ok tt, (v, h)) /\
    is_vector (v, h) ["a"] /\ Capacity v = 2 /\
    Emplace string_ops (end_ v) (Ok "x") (v, h) = (Ok p, (v', h')) /\
    p = ptr_add (begin v') 1 /\ Size v' = 2 /\
    is_vector (v', h') [""; "x"] /\
    ~ is_vector (v', h') ["a"; "x"].
Proof.
  eexists _, _, _, _, _.
  split; [vm_compute; reflexivity |].
  split; [unfold is_vector; simpl; auto |].
  split; [reflexivity |].
  split; [vm_compute; reflexivity |].
  split; [reflexivity |]. split; [reflexivity |].
  split; [unfold is_vector; simpl; auto |].
  unfold is_vector; simpl. intros (_ & _ & _ & E). discriminate E.
Qed.

Close Scope string_scope.

(** Claim C2 fails on the code.  With an element type whose copy constructor
    throws for the value 13, [Vector<T> v; v.EmplaceBack(1); v.EmplaceBack(13);
    v.PushBack(x)] with [x] holding 5 finds [size == capacity]: the copy of
    [x] is constructed in the new buffer, the relocation copies 1 and throws
    at 13, [std::uninitialized_copy_n] destroys the copy of 1, and the new
    buffer is released while the copy of [x] is still alive in it.  The vector
    itself is left as it was.  [append_with_relocation_throws] is the general
    form of this run. *)
Theorem PushBack_growth_leaks_new_element :
  exists v h h',
    (EmplaceBack throwing_ops (Ok 1) ;;; EmplaceBack throwing_ops (Ok 13) ;;; ret tt)
      (Vector_default, empty_heap)
    = (Ok tt, (v, h)) /\
    is_vector (v, h) [1; 13] /\ Size v = Capacity v /\ leaked h = [] /\
    PushBack throwing_ops 5 (v, h) = (Throw, (v, h')) /\
    is_vector (v, h') [1; 13] /\
    leaked h' = [5].
Proof.
  eexists _, _, _.
  split; [vm_compute; reflexivity |].
  split; [unfold is_vector; simpl; auto |].
  split; [reflexivity |]. split; [reflexivity |].
  split; [vm_compute; reflexivity |].
  split; [unfold is_vector; simpl; auto | reflexivity].
Qed.

(** ** The theorems at concrete vectors *)

(** The capacities after 0, 1, ..., 9 appends to a default-constructed vector. *)
Example capacity_sequence :
  map (fun n => Capacity (fst (snd (PushBack_all int_ops (seq 1 n)
                                      (Vector_default, empty_heap)))))
      (seq 0 10)
  = [0; 1; 2; 4; 4; 8; 8; 8; 8; 16].
Proof. vm_compute. reflexivity. Qed.

Lemma int_relocates (x : nat) : relocates int_ops x.
Proof. exists x. reflexivity. Qed.

Lemma two_ints_is_vector : is_vector (two_ints, two_ints_heap) [7; 8].
Proof. unfold is_vector. simpl. auto. Qed.

Lemma one_int_is_vector : is_vector (one_int, assign_heap) [5].
Proof. unfold is_vector. simpl. auto. Qed.

Lemma one_int_is_vector_unlucky : is_vector (one_int, assign_unlucky_heap) [5].
Proof. unfold is_vector. simpl. auto. Qed.

Lemma throwing_copy_is_faithful x y : copy_ctor throwing_ops x = Ok y -> y = x.
Proof. simpl. destruct (x =? 13); intros E; [discriminate E | now inversion E]. Qed.

Lemma throwing_copy_is_defined x : copy_ctor throwing_ops x <> Fault.
Proof. simpl. destruct (x =? 13); discriminate. Qed.

Lemma copy_assign_strong_guarantee_witness :
  is_vector (one_int, assign_heap) [5] /\
  is_vector (two_ints, assign_heap) [1; 2] /\
  is_vector (one_int, assign_unlucky_heap) [5] /\
  is_vector (two_ints, assign_unlucky_heap) [1; 13] /\
  Capacity one_int < Size two_ints /\
  (exists V' h',
     operator_assign throwing_ops (Other two_ints) (one_int, assign_heap)
     = (Ok tt, (V', h')) /\
     is_vector (V', h') [1; 2] /\
     is_vector (two_ints, h') [1; 2] /\
     blk (begin V') = Some 2 /\
     blocks h' !! 1 = Some None /\
     leaked h' = []) /\
  (exists h',
     operator_assign throwing_ops (Other two_ints) (one_int, assign_unlucky_heap)
     = (Throw, (one_int, h')) /\
     is_vector (one_int, h') [5] /\
     is_vector (two_ints, h') [1; 13] /\
     blocks h' = blocks assign_unlucky_heap ++ [None] /\
     leaked h' = []).
Proof.
  assert (S1 : is_vector (two_ints, assign_heap) [1; 2])
    by (unfold is_vector; simpl; auto).
  assert (S2 : is_vector (two_ints, assign_unlucky_heap) [1; 13])
    by (unfold is_vector; simpl; auto).
  assert (L : Capacity one_int < Size two_ints) by (cbv; lia).
  split; [exact one_int_is_vector |]. split; [exact S1 |].
  split; [exact one_int_is_vector_unlucky |]. split; [exact S2 |].
  split; [exact L |]. split.
  - destruct (copy_assign_strong_guarantee throwing_ops one_int two_ints assign_heap
                [5] [1; 2] one_int_is_vector S1 L throwing_copy_is_faithful
                throwing_copy_is_defined)
      as (r & V' & h' & Hrun & HS & Hk & [(-> & HV & _ & _ & _ & Hb & _ & Hrel)
                                         | (-> & _ & _ & _ & _ & _)]).
    + exists V', h'. split; [exact Hrun |]. split; [exact HV |].
      split; [exact HS |]. split; [exact Hb |]. split; [| exact Hk].
      apply Hrel. reflexivity.
    + vm_compute in Hrun. discriminate Hrun.
  - destruct (copy_assign_strong_guarantee throwing_ops one_int two_ints
                assign_unlucky_heap [5] [1; 13] one_int_is_vector_unlucky S2 L
                throwing_copy_is_faithful throwing_copy_is_defined)
      as (r & V' & h' & Hrun & HS & Hk & [(-> & _) | (-> & -> & HV & _ & Hb & _)]).
    + vm_compute in Hrun. discriminate Hrun.
    + exists h'. split; [exact Hrun |]. split; [exact HV |].
      split; [exact HS |]. split; [exact Hb | exact Hk].
Defined.

Lemma PushBack_capacity_witness :
  is_vector (two_ints, two_ints_heap) [7; 8] /\
  Forall (relocates int_ops) [7; 8] /\
  (exists v' h',
     PushBack int_ops 9 (two_ints, two_ints_heap) = (Ok tt, (v', h')) /\
     Capacity v' = 4) /\
  (exists v' h',
     PushBack_all int_ops [1; 2; 3; 4; 5] (Vector_default, empty_heap)
     = (Ok tt, (v', h')) /\
     Capacity v' = 8).
Proof.
  assert (F : Forall (relocates int_ops) [7; 8])
    by (repeat constructor; apply int_relocates).
  split; [exact two_ints_is_vector |]. split; [exact F |].
  destruct (PushBack_capacity int_ops two_ints two_ints_heap [7; 8]
              two_ints_is_vector (fun _ => F)) as (Hc & _ & _ & Hall).
  split.
  - exact (Hc 9 9 eq_refl).
  - apply (Hall [1; 2; 3; 4; 5] empty_heap).
    repeat constructor; apply int_relocates.
Defined.



Lemma PushBack_spec_witness :
  is_vector (two_ints, two_ints_heap) [7; 8] /\
  Forall (relocates int_ops) [7; 8] /\
  copy_ctor int_ops 9 = Ok 9 /\
  exists v' h',
    PushBack int_ops 9 (two_ints, two_ints_heap) = (Ok tt, (v', h')) /\
    Size v' = 3 /\
    element 2 (v', h') = (Ok 9, (v', h')) /\
    is_vector (v', h') [7; 8; 9].
Proof.
  assert (F : Forall (relocates int_ops) [7; 8])
    by (repeat constructor; apply int_relocates).
  split; [exact two_ints_is_vector |]. split; [exact F |]. split; [reflexivity |].
  exact (proj1 (PushBack_spec int_ops two_ints two_ints_heap [7; 8] 9
                  two_ints_is_vector (fun _ => F)) eq_refl).
Defined.

Lemma PopBack_spec_witness :
  is_vector (two_ints, two_ints_heap) [7; 8] /\
  exists v' h',
    PopBack (two_ints, two_ints_heap) = (Ok tt, (v', h')) /\
    is_vector (v', h') [7] /\
    Size v' + 1 = Size two_ints.
Proof.
  split; [exact two_ints_is_vector |].
  destruct (PopBack_spec two_ints two_ints_heap [7; 8] two_ints_is_vector)
    as (v' & h' & Hrun & _ & Hpop).
  destruct (Hpop [7] 8 eq_refl) as (Hv & Hs & _).
  exists v', h'. split; [exact Hrun |]. split; [exact Hv | exact Hs].
Defined.

(** ** Counts of objects whose size in bytes wraps *)





(** * Further properties of the container *)

(** ** Element access, Swap, construction and destruction *)

Section AccessFacts.
Context {T : Type} (ops : ElemOps T).
Implicit Types (h : Heap T) (v : Vector) (l : list T) (b i n : nat).

(** Property X1.  [operator[]] reads the element at an index below the size, and fails its
    assertion at any other index. *)
Theorem element_in_bounds_or_fault v h l i :
  is_vector (v, h) l ->
  element i (v, h)
  = match l !! i with
    | Some x => (Ok x, (v, h))
    | None => (Fault, (v, h))
    end.
Proof.
  intros Hv. destruct (l !! i) as [x |] eqn:E.
  - eapply element_spec; eauto.
  - apply lookup_ge_None in E.
    destruct (is_vector_inv _ _ _ Hv) as (Hs & _).
    unfold element, operator_index.
    erewrite bind_fault; [reflexivity |].
    erewrite bind_ok by reflexivity. cbv beta. cbn [fst].
    replace (i <? size_ v) with false by (symmetry; apply Nat.ltb_ge; lia).
    reflexivity.
Qed.

(** Property X2.  [Swap], and the move assignment that is written as a [Swap], exchange
    the states of the two vectors and leave the heap untouched: no element is
    constructed, destroyed or relocated, and no storage is released. *)
Theorem Swap_exchanges v other h :
  Swap other (v, h) = (Ok v, (other, h)) /\
  operator_assign_move other (v, h) = (Ok v, (other, h)).
Proof.
  destruct v as [[pv cv] kv]. destruct other as [[po co] ko].
  split; reflexivity.
Qed.

(** Property X3.  [Vector(size)], for a [size] whose size in bytes does not
    wrap: when each of the [size] calls of [T()] completes, the new vector
    holds the objects they gave, in order, in a new block with exactly [size]
    slots (none for [size = 0]); when one of them throws, whichever it is, the objects
    constructed before it are destroyed, the storage is released and the
    exception goes on.  Either way no object is leaked and the blocks the
    heap had are as before. *)
Theorem Vector_sized_spec n h :
  fits ops n ->
  match value_init_all ops 0 n with
  | Ok ds =>
      exists v h',
        Vector_sized ops n h = (Ok v, h') /\
        is_vector (v, h') ds /\
        Size v = n /\ Capacity v = n /\
        leaked h' = leaked h /\
        (forall b o, blocks h !! b = Some o -> blocks h' !! b = Some o) /\
        (n = 0 -> v = Vector_default /\ h' = h) /\
        (n <> 0 -> blk (begin v) = Some (length (blocks h)) /\
                   blocks h' = blocks h ++ [Some (Some <$> ds)])
  | Throw =>
      exists h',
        Vector_sized ops n h = (Throw, h') /\
        blocks h' = blocks h ++ [None] /\
        leaked h' = leaked h
  | Fault => True
  end.
Proof.
  intros Hfit. destruct (Nat.eq_dec n 0) as [-> | Hn].
  { cbn [value_init_all]. exists Vector_default, h. split; [reflexivity |].
    split; [unfold is_vector; simpl; auto |].
    split; [reflexivity |]. split; [reflexivity |]. split; [reflexivity |].
    split; [auto |]. split; [auto | intros N; congruence]. }
  pose proof (uninitialized_value_construct_from_spec ops n (halloc n h)
                (length (blocks h)) [] [] []) as Hrun.
  cbn [length app fmap list_fmap Nat.add] in Hrun. rewrite app_nil_r in Hrun.
  specialize (Hrun (blocks_halloc_new _ _)). cbv zeta in Hrun.
  destruct (value_init_all ops 0 n) as [ds | |] eqn:Hall; [| | exact I].
  - pose proof (value_init_all_length ops _ _ _ Hall) as Hlen.
    rewrite app_nil_r in Hrun.
    eexists _, _. split.
    { unfold Vector_sized.
      erewrite bind_ok by (apply RawMemory_new_spec; assumption). proj.
      erewrite bind_ok by (apply on_throw_ok; exact Hrun).
      reflexivity. }
    split; [| split; [reflexivity | split; [reflexivity | split; [reflexivity |]]]].
    + apply is_vector_block; [now rewrite Hlen | now rewrite Hlen |].
      erewrite blocks_hset_eq by apply blocks_halloc_new.
      unfold slots_of. rewrite Hlen, Nat.sub_diag. now rewrite app_nil_r.
    + split; [| split; [intros N; congruence | intros _; split; [reflexivity |]]].
      * intros b o E.
        rewrite blocks_hset_ne by (apply lookup_lt_Some in E; lia).
        eapply blocks_halloc_old, E.
      * apply blocks_hset_halloc.
  - eexists. split.
    { unfold Vector_sized.
      erewrite bind_ok by (apply RawMemory_new_spec; assumption). proj.
      erewrite bind_throw; [reflexivity |].
      eapply on_throw_throw; [exact Hrun |].
      eapply RawMemory_delete_raw, blocks_halloc_new. }
    split; [apply blocks_hfree_halloc | reflexivity].
Qed.

(** The two ways the copy constructor can end. *)
Lemma Vector_copy_cases (S : Vector) h (ls : list T) :
  is_vector (S, h) ls ->
  match copy_all ops ls with
  | Ok ls' =>
      exists v h',
        Vector_copy ops S h = (Ok v, h') /\
        is_vector (v, h') ls' /\
        Size v = Size S /\ Capacity v = Size S /\
        (ls <> [] -> blk (begin v) = Some (length (blocks h))) /\
        is_vector (S, h') ls /\
        leaked h' = leaked h /\
        forall b o, blocks h !! b = Some o -> blocks h' !! b = Some o
  | Throw =>
      exists h',
        Vector_copy ops S h = (Throw, h') /\
        blocks h' = blocks h ++ [None] /\
        is_vector (S, h') ls /\
        leaked h' = leaked h
  | Fault => True
  end.
Proof.
  intros HS.
  destruct (is_vector_inv _ _ _ HS) as (HSs & HSc & HSsh).
  destruct S as [[ps cs] ks]. cbn [size_ data_ capacity_ buffer_ fst snd] in *.
  subst ks. unfold Size, Capacity, RawMem.Capacity, begin, RawMem.GetAddress.
  cbn [size_ data_ capacity_ buffer_].
  destruct ls as [| x0 ls0].
  - (* nothing to copy: no allocation *)
    cbn [copy_all]. exists Vector_default, h. split; [reflexivity |].
    split; [unfold is_vector; simpl; auto |].
    split; [reflexivity |]. split; [reflexivity |].
    split; [congruence |]. split; [exact HS |]. auto.
  - set (ls := x0 :: ls0) in *. set (n := length ls) in *.
    assert (Hn : n <> 0) by (unfold n, ls; simpl; lia).
    destruct HSsh as [(_ & _ & E) | (bs & -> & HmS)]; [discriminate E |].
    set (bd := length (blocks h)) in *.
    assert (Nsd : bs <> bd) by (apply lookup_lt_Some in HmS; unfold bd; lia).
    assert (Hnew : RawMemory_new_fitting n h
                   = (Ok {| buffer_ := {| blk := Some bd; off := 0 |}; capacity_ := n |},
                      halloc n h)) by (apply RawMemory_new_fitting_spec; exact Hn).
    pose proof (uninitialized_copy_from_spec ops ls (halloc n h) bs bd
                  [] (replicate (cs - length ls) None) [] [] [] Nsd) as Hcopy.
    cbn [length app fmap list_fmap] in Hcopy. fold n in Hcopy.
    rewrite app_nil_r in Hcopy.
    specialize (Hcopy (blocks_halloc_old _ _ _ _ HmS)).
    specialize (Hcopy (blocks_halloc_new _ _)).
    cbv zeta in Hcopy. cbn [Nat.add] in Hcopy.
    destruct (copy_all ops ls) as [ls' | |] eqn:Hall; [| | exact I].
    + assert (Hfr : forall b o, blocks h !! b = Some o ->
                    blocks (hset bd ((Some <$> ls') ++ []) (halloc n h)) !! b = Some o).
      { intros b o Eb.
        rewrite blocks_hset_ne by (apply lookup_lt_Some in Eb; unfold bd; lia).
        eapply blocks_halloc_old, Eb. }
      eexists _, _. split.
      { unfold Vector_copy. proj.
        erewrite bind_ok by exact Hnew. proj.
        erewrite bind_ok by (apply on_throw_ok; exact Hcopy).
        reflexivity. }
      split; [| split; [reflexivity | split; [reflexivity | split; [reflexivity |]]]].
      * apply copy_all_length in Hall.
        apply is_vector_block; [unfold n; lia | unfold n; lia |].
        erewrite blocks_hset_eq by apply blocks_halloc_new.
        unfold slots_of. rewrite Hall. fold n. rewrite Nat.sub_diag. reflexivity.
      * split; [eapply is_vector_frame; [exact HS | exact Hfr] |].
        split; [reflexivity | exact Hfr].
    + rewrite app_nil_r in Hcopy.
      assert (Hfr : forall b o, blocks h !! b = Some o ->
                    blocks (hfree bd (halloc n h)) !! b = Some o).
      { intros b o Eb.
        rewrite blocks_hfree_ne by (apply lookup_lt_Some in Eb; unfold bd; lia).
        eapply blocks_halloc_old, Eb. }
      eexists. split.
      { unfold Vector_copy. proj.
        erewrite bind_ok by exact Hnew. proj.
        erewrite bind_throw; [reflexivity |].
        eapply on_throw_throw; [exact Hcopy |].
        eapply RawMemory_delete_raw, blocks_halloc_new. }
      split; [| split; [eapply is_vector_frame; [exact HS | exact Hfr] | reflexivity]].
      simpl. unfold bd. replace (length (blocks h)) with (length (blocks h) + 0) by lia.
      now rewrite insert_app_r.
Qed.

(** Property X4.  [Vector(const Vector&)]: when every copy constructor completes, the new
    vector holds the copies in a buffer of its own with exactly as many slots
    as the source has elements; when one throws, the copies already made are
    destroyed and the new buffer is released.  Either way the source, every
    block the heap had and the leak list are as before. *)
Theorem Vector_copy_spec (S : Vector) h (ls : list T) :
  is_vector (S, h) ls ->
  match copy_all ops ls with
  | Ok ls' =>
      exists v h',
        Vector_copy ops S h = (Ok v, h') /\
        is_vector (v, h') ls' /\
        Size v = Size S /\ Capacity v = Size S /\
        (ls <> [] -> blk (begin v) = Some (length (blocks h))) /\
        is_vector (S, h') ls /\
        leaked h' = leaked h /\
        forall b o, blocks h !! b = Some o -> blocks h' !! b = Some o
  | Throw =>
      exists h',
        Vector_copy ops S h = (Throw, h') /\
        blocks h' = blocks h ++ [None] /\
        is_vector (S, h') ls /\
        leaked h' = leaked h
  | Fault => True
  end.
Proof. exact (Vector_copy_cases S h ls). Qed.

(** Property X5.  [~Vector()] on a vector that satisfies the invariant destroys every
    element and releases the buffer: the block is gone, no object is leaked,
    and the other blocks are untouched. *)
Theorem Vector_destructor_spec v h l :
  is_vector (v, h) l ->
  exists h',
    Vector_delete v h = (Ok tt, h') /\
    leaked h' = leaked h /\
    (forall b, blk (begin v) = Some b -> blocks h' !! b = Some None) /\
    (forall b, blk (begin v) <> Some b -> blocks h' !! b = blocks h !! b).
Proof.
  intros Hv. destruct (is_vector_inv _ _ _ Hv) as (Hs & Hc & Hsh).
  destruct v as [[p c] k]. unfold begin, RawMem.GetAddress.
  cbn [size_ data_ capacity_ buffer_ fst snd] in *. subst k.
  destruct Hsh as [(-> & -> & ->) | (b & -> & Hm)].
  - exists h. split; [reflexivity |]. split; [reflexivity |].
    split; [intros b E; discriminate E | reflexivity].
  - pose proof (destroy_n_spec l h b [] _ Hm) as Hd.
    cbn [length app] in Hd. rewrite <- replicate_add in Hd.
    exists (hfree b h). split.
    { unfold Vector_delete. proj. erewrite bind_ok by exact Hd.
      eapply RawMemory_delete_raw, Hm. }
    split; [reflexivity |]. cbn [blk]. split.
    + intros b' E. inversion E; subst b'. simpl.
      apply list_lookup_insert_eq. now apply lookup_lt_Some in Hm.
    + intros b' N. apply blocks_hfree_ne. congruence.
Qed.

End AccessFacts.

(** ** Copy assignment that reuses the storage *)

Section AssignInPlace.
Context {T : Type} (ops : ElemOps T).
Implicit Types (h : Heap T) (v rhs : Vector) (l : list T) (b i n : nat).

Lemma assign_loop_app v rhs n1 : forall i n2 h,
  assign_loop ops v rhs i (n1 + n2) h
  = (assign_loop ops v rhs i n1 ;;; assign_loop ops v rhs (i + n1) n2) h.
Proof.
  induction n1 as [| n1 IH]; intros i n2 h.
  - simpl. rewrite Nat.add_0_r. reflexivity.
  - simpl. rewrite bind_assoc. apply bind_ext. intros _ s'.
    rewrite IH. now replace (i + 1 + n1) with (i + S n1) by lia.
Qed.

(** The iterations at indices beyond the size of [rhs] destroy. *)
Lemma assign_loop_destroys v rhs bv n : forall i h,
  buffer_ (data_ v) = {| blk := Some bv; off := 0 |} ->
  Size rhs <= i ->
  assign_loop ops v rhs i n h = destroy_n {| blk := Some bv; off := i |} n h.
Proof.
  induction n as [| n IH]; intros i h Hb Hi; [reflexivity |].
  simpl. replace (i <? Size rhs) with false by (symmetry; apply Nat.ltb_ge; lia).
  rewrite Hb. unfold ptr_add. cbn [blk off Nat.add].
  apply bind_ext. intros _ s'. apply IH; [exact Hb | lia].
Qed.

(** The iterations at indices below the size of [rhs] assign. *)
Lemma assign_loop_assigns v rhs bv bs (xs : list T) :
  forall (ds : list T) h (pre post spre spost : list (option T)) i,
  (forall d x, copy_assign ops d x = Ok x) ->
  buffer_ (data_ v) = {| blk := Some bv; off := 0 |} ->
  buffer_ (data_ rhs) = {| blk := Some bs; off := 0 |} ->
  bv <> bs ->
  length ds = length xs -> length pre = i -> length spre = i ->
  i + length xs <= Size rhs ->
  blocks h !! bv = Some (Some (pre ++ (Some <$> ds) ++ post)) ->
  blocks h !! bs = Some (Some (spre ++ (Some <$> xs) ++ spost)) ->
  assign_loop ops v rhs i (length xs) h
  = (Ok tt, hset bv (pre ++ (Some <$> xs) ++ post) h).
Proof.
  induction xs as [| x xs IH];
    intros ds h pre post spre spost i Hca Hbv Hbs N Hl Hp Hsp Hi Ev Es.
  - destruct ds; [| discriminate Hl]. simpl. unfold ret.
    rewrite hset_id; [reflexivity | exact Ev].
  - destruct ds as [| d ds]; [discriminate Hl |]. simpl in Hl, Hi.
    rewrite fmap_cons, <- app_comm_cons in Ev, Es.
    set (h1 := hset bv (pre ++ Some x :: (Some <$> ds) ++ post) h).
    assert (Hstep : copy_assign_at ops {| blk := Some bv; off := i |}
                      {| blk := Some bs; off := i |} h = (Ok tt, h1)).
    { unfold copy_assign_at.
      erewrite bind_ok by (eapply read_spec; [exact Ev | apply lookup_middle_n, Hp]).
      erewrite bind_ok by (eapply read_spec; [exact Es | apply lookup_middle_n, Hsp]).
      erewrite bind_ok by (unfold pure_of; rewrite Hca; reflexivity).
      erewrite write_spec; [| exact Ev | apply lookup_middle_n, Hp].
      rewrite insert_middle_n by exact Hp. reflexivity. }
    simpl. replace (i <? Size rhs) with true by (symmetry; apply Nat.ltb_lt; lia).
    rewrite Hbv, Hbs. unfold ptr_add. cbn [blk off Nat.add].
    erewrite bind_ok by exact Hstep.
    erewrite (IH ds h1 (pre ++ [Some x]) post (spre ++ [Some x]) spost (i + 1));
      try assumption.
    + unfold h1. rewrite hset_hset, <- app_assoc. reflexivity.
    + lia.
    + rewrite length_app. simpl. lia.
    + rewrite length_app. simpl. lia.
    + lia.
    + unfold h1. erewrite blocks_hset_eq by exact Ev.
      rewrite <- app_assoc. reflexivity.
    + unfold h1. rewrite blocks_hset_ne by exact N.
      rewrite Es, <- app_assoc. reflexivity.
Qed.

(** A vector is not affected by a change to the block of another object. *)
Lemma is_vector_hset_other u h lu b (s : list (option T)) :
  is_vector (u, h) lu -> blk (buffer_ (data_ u)) <> Some b ->
  is_vector (u, hset b s h) lu.
Proof.
  unfold is_vector. cbn [fst snd]. intros (Hs & Hc & Hb) N.
  split; [exact Hs |]. split; [exact Hc |].
  destruct (blk (buffer_ (data_ u))) as [b' |]; [| exact Hb].
  destruct Hb as [Ho Hm]. split; [exact Ho |].
  rewrite blocks_hset_ne by congruence. exact Hm.
Qed.

(** Property X6.  [V = S] when [S.Size() <= V.Capacity()], for an element type whose copy
    assignment and copy construction complete and give the value of the
    source: [V] ends with the elements of [S] in the buffer it already had
    (same address, same capacity, no allocation), [S] is unchanged and no
    object is leaked. *)
Theorem copy_assign_in_place (V S : Vector) h (lv ls : list T) :
  is_vector (V, h) lv ->
  is_vector (S, h) ls ->
  (forall b, blk (begin V) = Some b -> blk (begin S) <> Some b) ->
  Size S <= Capacity V ->
  (forall d x, copy_assign ops d x = Ok x) ->
  Forall (fun x => copy_ctor ops x = Ok x) ls ->
  exists V' h',
    operator_assign ops (Other S) (V, h) = (Ok tt, (V', h')) /\
    is_vector (V', h') ls /\
    is_vector (S, h') ls /\
    begin V' = begin V /\ Capacity V' = Capacity V /\
    length (blocks h') = length (blocks h) /\
    leaked h' = leaked h.
Proof.
  intros HV HS Hdist Hle Hca Hcc.
  destruct (is_vector_inv _ _ _ HV) as (HVs & HVc & HVsh).
  destruct (is_vector_inv _ _ _ HS) as (HSs & HSc & HSsh).
  destruct S as [[ps cs] ks]. destruct V as [[pv cv] kv].
  unfold Size, Capacity, RawMem.Capacity, begin, RawMem.GetAddress in *.
  cbn [size_ data_ capacity_ buffer_ fst snd] in *. subst ks kv.
  assert (HltB : (cv <? length ls) = false) by (apply Nat.ltb_ge; exact Hle).
  set (Vv := {| data_ := {| buffer_ := pv; capacity_ := cv |}; size_ := length lv |}) in *.
  set (Sv := {| data_ := {| buffer_ := ps; capacity_ := cs |}; size_ := length ls |}) in *.
  destruct HVsh as [(-> & -> & ->) | (bv & -> & HmV)].
  - (* no storage: both are empty *)
    assert (ls = []) as -> by (destruct ls; simpl in *; [reflexivity | lia]).
    exists Vv, h. split; [reflexivity |].
    split; [exact HV |]. split; [exact HS |]. auto.
  - assert (NS : blk ps <> Some bv) by (apply (Hdist bv); reflexivity).
    assert (Hbv : buffer_ (data_ Vv) = {| blk := Some bv; off := 0 |}) by reflexivity.
    exists {| data_ := {| buffer_ := {| blk := Some bv; off := 0 |}; capacity_ := cv |};
              size_ := length ls |}.
    destruct (le_lt_dec (length ls) (length lv)) as [Hshort | Hlong].
    + (* S is not longer: assign a prefix, destroy the rest *)
      set (lv1 := take (length ls) lv). set (lv2 := drop (length ls) lv).
      assert (Hlv : lv = lv1 ++ lv2) by (unfold lv1, lv2; now rewrite take_drop).
      assert (L1 : length lv1 = length ls) by (unfold lv1; rewrite length_take; lia).
      assert (L2 : length lv = length ls + length lv2) by (rewrite Hlv at 1; rewrite length_app; lia).
      set (raw := replicate (cv - length lv) (@None T)).
      assert (Ev : blocks h !! bv
                   = Some (Some ([] ++ (Some <$> lv1) ++ (Some <$> lv2) ++ raw))).
      { rewrite HmV. unfold slots_of, raw. rewrite Hlv at 1.
        now rewrite fmap_app, <- app_assoc. }
      set (h1 := hset bv ([] ++ (Some <$> ls) ++ (Some <$> lv2) ++ raw) h).
      assert (H1 : assign_loop ops Vv Sv 0 (length ls) h = (Ok tt, h1)).
      { destruct ls as [| x0 ls0].
        - destruct lv1; [| discriminate L1]. simpl. unfold ret, h1.
          rewrite hset_id; [reflexivity | exact Ev].
        - destruct HSsh as [(_ & _ & E) | (bs & -> & HmS)]; [discriminate E |].
          eapply (assign_loop_assigns Vv Sv bv bs _ lv1 h [] _ [] _ 0);
            try reflexivity; try assumption.
          + cbn [blk] in NS. congruence.
          + rewrite HmS. reflexivity. }
      assert (H2 : assign_loop ops Vv Sv (0 + length ls) (length lv2) h1
                   = (Ok tt, hset bv ((Some <$> ls) ++ replicate (length lv2) None ++ raw) h)).
      { rewrite (assign_loop_destroys Vv Sv bv) by (try exact Hbv; unfold Size; simpl; lia).
        cbn [Nat.add]. rewrite <- (length_fmap Some ls).
        erewrite destroy_n_spec.
        - unfold h1. rewrite hset_hset. reflexivity.
        - unfold h1. erewrite blocks_hset_eq by exact HmV. reflexivity. }
      assert (H12 : assign_loop ops Vv Sv 0 (length lv) h
                    = (Ok tt, hset bv ((Some <$> ls) ++ replicate (length lv2) None
                                         ++ raw) h)).
      { rewrite L2, assign_loop_app. erewrite bind_ok by exact H1. exact H2. }
      subst Vv Sv. eexists. split.
      { unfold operator_assign. step. rewrite HltB.
        erewrite bind_ok; cycle 1.
        { erewrite bind_ok by (apply in_heap_eq, H12).
          replace (length lv <? length ls) with false
            by (symmetry; apply Nat.ltb_ge; lia).
          reflexivity. }
        reflexivity. }
      proj. split; [| split; [apply is_vector_hset_other; assumption | ]].
      * apply is_vector_block; [reflexivity | lia |].
        erewrite blocks_hset_eq by exact HmV.
        unfold slots_of, raw. rewrite <- replicate_add.
        do 4 f_equal. lia.
      * repeat split. simpl. apply length_insert.
    + (* S is longer: assign over every element, construct the rest *)
      destruct HSsh as [(_ & _ & E) | (bs & -> & HmS)];
        [subst ls; simpl in Hlong; lia |].
      cbn [blk] in NS. assert (N : bv <> bs) by congruence.
      set (ls1 := take (length lv) ls). set (ls2 := drop (length lv) ls).
      assert (Hls : ls = ls1 ++ ls2) by (unfold ls1, ls2; now rewrite take_drop).
      assert (L1 : length ls1 = length lv) by (unfold ls1; rewrite length_take; lia).
      assert (L2 : length ls = length lv + length ls2)
        by (rewrite Hls at 1; rewrite length_app; lia).
      set (sraw := replicate (cs - length ls) (@None T)).
      set (raw := replicate (cv - length ls) (@None T)).
      assert (Es : blocks h !! bs
                   = Some (Some ([] ++ (Some <$> ls1) ++ (Some <$> ls2) ++ sraw))).
      { rewrite HmS. unfold slots_of, sraw. rewrite Hls at 1.
        now rewrite fmap_app, <- app_assoc. }
      assert (Ev : blocks h !! bv
                   = Some (Some ([] ++ (Some <$> lv)
                                    ++ replicate (length ls2) None ++ raw))).
      { rewrite HmV. unfold slots_of, raw. rewrite <- replicate_add.
        simpl. do 4 f_equal. lia. }
      set (h1 := hset bv ([] ++ (Some <$> ls1) ++ replicate (length ls2) None ++ raw) h).
      assert (H1 : assign_loop ops Vv Sv 0 (length lv) h = (Ok tt, h1)).
      { rewrite <- L1.
        eapply (assign_loop_assigns Vv Sv bv bs ls1 lv h [] _ [] _ 0);
          try reflexivity; try assumption;
          try (unfold Size; simpl; lia).
        exact Es. }
      assert (Hcc2 : Forall (fun x => copy_ctor ops x = Ok x) ls2).
      { rewrite Hls in Hcc. now apply Forall_app in Hcc as [_ ?]. }
      pose proof (uninitialized_copy_from_spec ops ls2 h1 bs bv
                    (Some <$> ls1) sraw (Some <$> ls1) [] raw) as Hcopy.
      rewrite (copy_all_faithful ops ls2 Hcc2) in Hcopy.
      cbn [length app fmap list_fmap] in Hcopy.
      rewrite !length_fmap, L1, Nat.add_0_r in Hcopy.
      assert (H2 : uninitialized_copy_n ops {| blk := Some bs; off := length lv |}
                     (length ls2) {| blk := Some bv; off := length lv |} h1
                   = (Ok tt, hset bv ((Some <$> ls1) ++ (Some <$> ls2) ++ raw) h)).
      { unfold uninitialized_copy_n. rewrite Hcopy.
        - unfold h1. rewrite hset_hset. reflexivity.
        - congruence.
        - unfold h1. rewrite blocks_hset_ne by exact N. rewrite Es. reflexivity.
        - unfold h1. erewrite blocks_hset_eq by exact HmV. reflexivity. }
      subst Vv Sv. eexists. split.
      { unfold operator_assign. step. rewrite HltB.
        erewrite bind_ok; cycle 1.
        { erewrite bind_ok by (apply in_heap_eq, H1).
          replace (length lv <? length ls) with true
            by (symmetry; apply Nat.ltb_lt; lia).
          apply in_heap_eq.
          replace (length ls - length lv) with (length ls2) by lia.
          exact H2. }
        reflexivity. }
      proj. split; [| split; [apply is_vector_hset_other; [exact HS | cbn [blk buffer_ data_]; congruence] |]].
      * apply is_vector_block; [reflexivity | lia |].
        erewrite blocks_hset_eq by exact HmV.
        unfold slots_of, raw.
        replace (Some <$> ls) with ((Some <$> ls1) ++ (Some <$> ls2))
          by (rewrite <- fmap_app, <- Hls; reflexivity).
        now rewrite <- app_assoc.
      * repeat split. simpl. apply length_insert.
Qed.

End AssignInPlace.

(** ** Insert and Erase *)

Section InsertErase.
Context {T : Type} (ops : ElemOps T).
Implicit Types (h : Heap T) (v : Vector) (l m : list T) (b i j n : nat).

(** Property X9.  [Insert], by copy or by move, of a value whose copy (move) construction
    gives an object equal to it, inserts the value before the position, in
    every case in which [Emplace] inserts. *)
Theorem Insert_spec v h l n x :
  moves_faithfully ops ->
  Forall (relocates ops) l ->
  is_vector (v, h) l ->
  n <= length l ->
  Size v = Capacity v \/ l = [] \/ n < length l ->
  (copy_ctor ops x = Ok x ->
   exists v' h',
     Insert ops (ptr_add (begin v) n) x (v, h)
     = (Ok (ptr_add (begin v') n), (v', h')) /\
     is_vector (v', h') (take n l ++ x :: drop n l) /\
     Size v' = Size v + 1) /\
  (moved ops x = Ok x ->
   exists v' h',
     Insert_move ops (ptr_add (begin v) n) x (v, h)
     = (Ok (ptr_add (begin v') n), (v', h')) /\
     is_vector (v', h') (take n l ++ x :: drop n l) /\
     Size v' = Size v + 1).
Proof.
  intros Hmv F Hv Hn Hcase.
  split; intros Hx; [unfold Insert | unfold Insert_move]; rewrite Hx;
    apply Emplace_inserts; assumption.
Qed.

(** On a range that is not inverted [std::move] is its loop, for every
    element type. *)
Lemma std_move_valid first last d_first :
  off first <= off last ->
  std_move ops first last d_first = move_loop ops (ptr_diff last first) first d_first.
Proof.
  intros L. unfold std_move.
  replace (off last <? off first) with false by (symmetry; apply Nat.ltb_ge; exact L).
  now rewrite andb_false_r.
Qed.

(** [std::move] of the objects [m] one slot to the left, onto a live object:
    the slot the last of them leaves keeps a live object. *)
Lemma move_loop_ok m : forall h b (pre post : list (option T)) r,
  (forall d x, exists r, move_assign ops d x = Ok (x, r)) ->
  blocks h !! b = Some (Some (pre ++ Some r :: (Some <$> m) ++ post)) ->
  exists r',
    move_loop ops (length m)
      {| blk := Some b; off := length pre + 1 |}
      {| blk := Some b; off := length pre |} h
    = (Ok tt, hset b (pre ++ (Some <$> m) ++ Some r' :: post) h).
Proof.
  induction m as [| x m IH]; intros h b pre post r Hma E.
  - exists r. simpl. unfold ret. rewrite hset_id; [reflexivity | exact E].
  - destruct (Hma r x) as [rx Hrx].
    rewrite fmap_cons, <- app_comm_cons in E.
    assert (Hstep : move_assign_at ops {| blk := Some b; off := length pre |}
                      {| blk := Some b; off := length pre + 1 |} h
                    = (Ok tt, hset b (pre ++ Some x :: Some rx :: (Some <$> m) ++ post) h)).
    { erewrite (move_assign_at_ok ops h b _ (length pre) (length pre + 1) r x rx);
        [| exact E | apply lookup_middle_n; reflexivity
         | apply lookup_middle_n1; reflexivity | lia | exact Hrx].
      rewrite insert_middle_n1 by reflexivity.
      rewrite insert_middle_n by reflexivity. reflexivity. }
    destruct (IH (hset b (pre ++ Some x :: Some rx :: (Some <$> m) ++ post) h) b
                (pre ++ [Some x]) post rx Hma) as [r' Hr'].
    { erewrite blocks_hset_eq by exact E. rewrite <- app_assoc. reflexivity. }
    exists r'. simpl. erewrite bind_ok by exact Hstep.
    unfold ptr_add. cbn [blk off].
    rewrite length_app in Hr'. cbn [length] in Hr'.
    rewrite Hr', hset_hset, <- !app_assoc. reflexivity.
Qed.

(** [Erase] at the position of an element. *)
Lemma Erase_removes v h l1 x l2 :
  (forall d y, exists r, move_assign ops d y = Ok (y, r)) ->
  is_vector (v, h) (l1 ++ x :: l2) ->
  exists v' h',
    Erase ops (ptr_add (begin v) (length l1)) (v, h)
    = (Ok (ptr_add (begin v') (length l1)), (v', h')) /\
    is_vector (v', h') (l1 ++ l2) /\
    Size v' + 1 = Size v /\ Capacity v' = Capacity v /\ begin v' = begin v /\
    leaked h' = leaked h.
Proof.
  intros Hma Hv.
  destruct (is_vector_inv _ _ _ Hv) as (Hs & Hc & Hsh).
  destruct v as [[p c] k]. unfold Size, Capacity, RawMem.Capacity in *. proj.
  cbn [size_ data_ capacity_ buffer_ fst snd] in *. subst k.
  rewrite !length_app in *. cbn [length] in *.
  remember (length l1 + S (length l2)) as k eqn:Hk.
  destruct Hsh as [(_ & E & _) | (b & -> & Hm)]; [lia |].
  set (pre := Some <$> l1).
  set (raw := replicate (c - k) (@None T)).
  assert (Lp : length pre = length l1) by apply length_fmap.
  assert (E0 : blocks h !! b = Some (Some (pre ++ Some x :: (Some <$> l2) ++ raw))).
  { rewrite Hm. unfold slots_of, pre, raw.
    rewrite fmap_app, fmap_cons, <- app_assoc, length_app. simpl.
    rewrite <- Hk. reflexivity. }
  destruct (move_loop_ok l2 h b pre raw x Hma E0) as [r' H1].
  rewrite Lp in H1.
  set (s1 := pre ++ (Some <$> l2)).
  assert (L1 : length s1 = k - 1)
    by (unfold s1; rewrite length_app, length_fmap, Lp; lia).
  set (h1 := hset b (pre ++ (Some <$> l2) ++ Some r' :: raw) h) in *.
  assert (H2 : destroy_at {| blk := Some b; off := k - 1 |} h1
               = (Ok tt, hset b (s1 ++ None :: raw) h)).
  { erewrite destroy_at_spec.
    - rewrite insert_middle_n by exact L1. unfold h1. rewrite hset_hset. reflexivity.
    - unfold h1. erewrite blocks_hset_eq by exact Hm.
      unfold s1. rewrite <- app_assoc. reflexivity.
    - apply lookup_middle_n. exact L1. }
  exists {| data_ := {| buffer_ := {| blk := Some b; off := 0 |}; capacity_ := c |};
            size_ := k - 1 |}.
  eexists. split.
  { unfold Erase. step. rewrite !ptr_leb_same.
    replace (0 <=? length l1) with true by reflexivity.
    replace (length l1 <=? k) with true by (symmetry; apply Nat.leb_le; lia).
    cbn [andb assert]. step. rewrite Nat.sub_0_r.
    erewrite bind_ok; cycle 1.
    { apply in_heap_eq. rewrite std_move_valid by (cbn [off]; lia). proj.
      replace (k - (length l1 + 1)) with (length l2) by lia. exact H1. }
    erewrite bind_ok by (apply in_heap_eq, H2).
    step. reflexivity. }
  proj. split; [| repeat split; auto; lia].
  apply is_vector_block.
  - rewrite length_app. lia.
  - rewrite length_app. lia.
  - erewrite blocks_hset_eq by exact Hm.
    unfold s1, pre, raw. rewrite slots_of_raw by (rewrite length_app; lia).
    rewrite fmap_app, <- app_assoc, length_app.
    replace (c - S (length l1 + length l2)) with (c - k) by lia.
    now rewrite <- app_assoc.
Qed.

(** Property X10.  [Erase] at the position of an element, for an element type whose move
    assignment completes and gives the target the value of the source: the
    element is removed, the ones after it move one slot down in order, the
    size drops by 1, the capacity and the buffer stay, and the returned
    position is the one of the element that followed. *)
Theorem Erase_spec v h l n :
  (forall d y, exists r, move_assign ops d y = Ok (y, r)) ->
  is_vector (v, h) l ->
  n < length l ->
  exists v' h',
    Erase ops (ptr_add (begin v) n) (v, h)
    = (Ok (ptr_add (begin v') n), (v', h')) /\
    is_vector (v', h') (take n l ++ drop (S n) l) /\
    Size v' + 1 = Size v /\ Capacity v' = Capacity v /\ begin v' = begin v /\
    leaked h' = leaked h.
Proof.
  intros Hma Hv Hn.
  destruct (lookup_lt_is_Some_2 l n Hn) as [x Hx].
  assert (Ln : length (take n l) = n) by (rewrite length_take; lia).
  rewrite <- (take_drop_middle l n x Hx) in Hv.
  destruct (Erase_removes v h _ x _ Hma Hv) as (v' & h' & Hrun & H').
  rewrite Ln in Hrun. exists v', h'. split; [exact Hrun | exact H'].
Qed.

(** Property X11.  Inserting a value and erasing at the returned position gives back the
    elements the vector had. *)
Theorem Emplace_then_Erase v h l n y :
  moves_faithfully ops ->
  Forall (relocates ops) l ->
  is_vector (v, h) l ->
  n <= length l ->
  Size v = Capacity v \/ l = [] \/ n < length l ->
  exists p v' h',
    (let* p := Emplace ops (ptr_add (begin v) n) (Ok y) in Erase ops p) (v, h)
    = (Ok p, (v', h')) /\
    is_vector (v', h') l /\
    Size v' = Size v.
Proof.
  intros Hmv F Hv Hn Hcase.
  destruct (Emplace_inserts ops v h l n y Hmv F Hv Hn Hcase)
    as (v1 & h1 & Hrun1 & Hv1 & Hs1).
  assert (Ln : length (take n l) = n) by (rewrite length_take; lia).
  destruct (Erase_removes v1 h1 _ y _ (proj2 Hmv) Hv1)
    as (v2 & h2 & Hrun2 & Hv2 & Hs2 & _).
  rewrite Ln in Hrun2. rewrite take_drop in Hv2.
  eexists _, v2, h2. split.
  { erewrite bind_ok by exact Hrun1. exact Hrun2. }
  split; [exact Hv2 | lia].
Qed.

End InsertErase.

(** ** Appending: the returned reference, round trips, exceptions, ownership *)

Section AppendFacts.
Context {T : Type} (ops : ElemOps T).
Implicit Types (h : Heap T) (v u : Vector) (l : list T) (b i n : nat).

(** Property X12.  [EmplaceBack] returns the address of the new last element: the object
    constructed from the arguments, which [operator[]] finds at the old
    size. *)
Theorem EmplaceBack_spec v h l y :
  is_vector (v, h) l ->
  (Size v = Capacity v -> Forall (relocates ops) l) ->
  exists p v' h',
    EmplaceBack ops (Ok y) (v, h) = (Ok p, (v', h')) /\
    is_vector (v', h') (l ++ [y]) /\
    Size v' = Size v + 1 /\
    operator_index (Size v) (v', h') = (Ok p, (v', h')) /\
    in_heap (read p) (v', h') = (Ok y, (v', h')).
Proof.
  intros Hv F.
  destruct (append_with_ok ops v h l y Hv F) as (v' & h' & Hrun & Hv' & Hs & _).
  destruct (is_vector_inv _ _ _ Hv) as (E & _ & _).
  assert (Hx : (l ++ [y]) !! Size v = Some y).
  { unfold Size. rewrite E. apply list_lookup_middle. reflexivity. }
  pose proof (element_spec v' h' _ _ _ Hv' Hx) as He.
  assert (Hi : operator_index (Size v) (v', h')
               = (Ok (ptr_add (buffer_ (data_ v')) (size_ v' - 1)), (v', h'))).
  { unfold operator_index. erewrite bind_ok by reflexivity. cbv beta. cbn [fst].
    unfold Size in Hs. replace (Size v <? size_ v') with true
      by (symmetry; apply Nat.ltb_lt; unfold Size; lia).
    erewrite bind_ok by reflexivity. unfold Size.
    now replace (size_ v' - 1) with (size_ v) by lia. }
  eexists _, v', h'. split.
  { rewrite EmplaceBack_append_with. erewrite bind_ok by exact Hrun. reflexivity. }
  cbn [fst]. split; [exact Hv' |]. split; [exact Hs |]. split; [exact Hi |].
  unfold element in He. erewrite bind_ok in He by exact Hi. exact He.
Qed.

Lemma PopBack_removes v h l0 x :
  is_vector (v, h) (l0 ++ [x]) ->
  exists h',
    PopBack (v, h) = (Ok tt, ({| data_ := data_ v; size_ := size_ v - 1 |}, h')) /\
    is_vector ({| data_ := data_ v; size_ := size_ v - 1 |}, h') l0 /\
    leaked h' = leaked h.
Proof.
  intros Hv. destruct (is_vector_inv _ _ _ Hv) as (Hs & Hc & Hsh).
  destruct v as [[p c] k]. cbn [size_ data_ capacity_ buffer_ fst snd] in *.
  rewrite length_app in Hs, Hc. cbn [length] in Hs, Hc.
  destruct Hsh as [(_ & _ & E) | (b & -> & Hm)]; [destruct l0; discriminate E |].
  rewrite slots_of_snoc in Hm.
  eexists. split.
  { unfold PopBack. step.
    replace (0 <? k) with true by (symmetry; apply Nat.ltb_lt; lia).
    erewrite bind_ok
      by (apply in_heap_eq; eapply destroy_at_spec; [exact Hm |];
          apply lookup_middle_n; rewrite length_fmap; lia).
    reflexivity. }
  split; [| reflexivity].
  apply is_vector_block; [lia | lia |]. cbn [snd].
  erewrite blocks_hset_eq by exact Hm.
  rewrite insert_middle_n by (rewrite length_fmap; lia).
  rewrite slots_of_raw by lia. reflexivity.
Qed.

(** Property X13.  [PushBack] followed by [PopBack] gives back the elements and the size the
    vector had; the capacity may have grown and never shrinks. *)
Theorem PushBack_then_PopBack v h l x :
  is_vector (v, h) l ->
  (Size v = Capacity v -> Forall (relocates ops) l) ->
  copy_ctor ops x = Ok x ->
  exists v' h',
    (PushBack ops x ;;; PopBack) (v, h) = (Ok tt, (v', h')) /\
    is_vector (v', h') l /\
    Size v' = Size v /\
    Capacity v <= Capacity v' /\
    leaked h' = leaked h.
Proof.
  intros Hv F Hx.
  destruct (append_with_ok ops v h l x Hv F) as (v1 & h1 & Hrun & Hv1 & Hs & Hc & Hk).
  destruct (PopBack_removes v1 h1 l x Hv1) as (h2 & Hpop & Hv2 & Hk2).
  eexists _, h2. split.
  { erewrite bind_ok by (rewrite PushBack_append_with, Hx; exact Hrun). exact Hpop. }
  split; [exact Hv2 |]. unfold Size, Capacity in *. cbn [size_ data_].
  split; [lia |]. split; [| congruence].
  rewrite Hc. destruct (size_ v =? RawMem.Capacity (data_ v)); lia.
Qed.

(** Property X14.  [Reserve(n)] followed by [Reserve(m)] with [m <= n] is
    [Reserve(n)], for an [n] that does not exceed the capacity or whose size
    in bytes does not wrap: the first call completes with a capacity of at
    least [n], and the second call finds the capacity sufficient and does
    nothing. *)
Theorem Reserve_twice v h l n m :
  is_vector (v, h) l ->
  (Capacity v < n -> fits ops n) ->
  (Capacity v < n -> Forall (relocates ops) l) ->
  m <= n ->
  (Reserve ops n ;;; Reserve ops m) (v, h) = Reserve ops n (v, h) /\
  exists v' h', Reserve ops n (v, h) = (Ok tt, (v', h')) /\ n <= Capacity v'.
Proof.
  intros Hv Hfit F Hm. destruct (le_lt_dec n (Capacity v)) as [L | L].
  - rewrite (bind_ok _ _ _ _ _ (Reserve_noop ops n v h L)).
    rewrite !Reserve_noop by lia. split; [reflexivity |]. eauto.
  - destruct (Reserve_grow ops v h l n Hv L (Hfit L) (F L)) as (h' & Hrun & _).
    rewrite (bind_ok _ _ _ _ _ Hrun), Hrun.
    rewrite Reserve_noop by (unfold Capacity, RawMem.Capacity; simpl; lia).
    split; [reflexivity |]. eexists _, _. split; [reflexivity |].
    unfold Capacity, RawMem.Capacity. simpl. lia.
Qed.

(** Property X15.  [PushBack] when the copy constructor of the new element throws: the
    vector holds the elements it held, with the size it had, and nothing is
    leaked.  The vector itself is unchanged unless its capacity was 0; then
    [Reserve(1)] has already run and the capacity is 1. *)
Theorem PushBack_ctor_throws v h l x :
  is_vector (v, h) l ->
  copy_ctor ops x = Throw ->
  exists v' h',
    PushBack ops x (v, h) = (Throw, (v', h')) /\
    is_vector (v', h') l /\
    Size v' = Size v /\
    leaked h' = leaked h /\
    (Capacity v <> 0 -> v' = v) /\
    (Capacity v = 0 -> Capacity v' = 1).
Proof.
  intros Hv Hx. rewrite PushBack_append_with, Hx.
  destruct (is_vector_inv _ _ _ Hv) as (Hs & Hc & Hsh).
  destruct (Nat.eq_dec (Size v) (Capacity v)) as [Hfull | Hspare].
  - destruct (Nat.eq_dec (Capacity v) 0) as [Hz | Hnz].
    + (* Reserve(1), then the constructor throws *)
      assert (l = []) as ->.
      { unfold Size, Capacity in *. destruct l; [reflexivity | simpl in *; lia]. }
      destruct (Reserve_grow ops v h [] 1 Hv) as (h1 & Hrun & Hb & _ & Hk);
        [unfold Capacity, RawMem.Capacity in Hz; lia | apply fits_1 | constructor |].
      eexists _, h1. split.
      { destruct v as [[p c] k]. unfold Size, Capacity, RawMem.Capacity in *.
        cbn [size_ data_ capacity_] in *. subst c k.
        unfold append_with. step. unfold Capacity. proj. cbn [Nat.eqb]. cbv match.
        erewrite bind_throw; [reflexivity |]. cbn [length Nat.eqb]. cbv match.
        erewrite bind_ok by exact Hrun. step. reflexivity. }
      cbn [fst snd]. split; [apply is_vector_block; [reflexivity | simpl; lia | exact Hb] |].
      split; [unfold Size; cbn [size_]; now rewrite Hs |].
      split; [exact Hk |]. split; [intros N; contradiction | reflexivity].
    + assert (Hne : l <> []).
      { unfold Size, Capacity, RawMem.Capacity in *. intros ->. simpl in *. lia. }
      destruct (append_with_ctor_throws ops v h l Hv Hfull Hne)
        as (h' & Hrun & Hk & Hv' & _).
      exists v, h'. split; [exact Hrun |]. split; [exact Hv' |].
      split; [reflexivity |]. split; [exact Hk |]. split; [reflexivity | contradiction].
  - (* spare capacity: nothing has happened yet *)
    exists v, h. split.
    { destruct v as [[p c] k]. unfold Size, Capacity, RawMem.Capacity in *.
      cbn [size_ data_ capacity_] in *.
      unfold append_with. step. unfold Capacity. proj.
      replace (k =? c) with false by (symmetry; apply Nat.eqb_neq; exact Hspare).
      reflexivity. }
    split; [exact Hv |]. split; [reflexivity |]. split; [reflexivity |].
    split; [reflexivity |]. intros Hz. unfold Size, Capacity, RawMem.Capacity in *. lia.
Qed.

(** Property X16.  [PushBack] that finds [size == capacity] on a non-empty vector whose
    elements relocate by copy: when a copy constructor throws during the
    relocation, the vector and every block the heap had are as before, and the
    copy of the new element, already constructed in the new buffer, is
    released with that buffer without being destroyed. *)
Theorem PushBack_relocation_throws v h l x y :
  is_vector (v, h) l -> Size v = Capacity v -> l <> [] ->
  relocates_by_move ops = false ->
  copy_ctor ops x = Ok y ->
  copy_all ops l = Throw ->
  exists h',
    PushBack ops x (v, h) = (Throw, (v, h')) /\
    is_vector (v, h') l /\
    leaked h' = leaked h ++ [y] /\
    forall b o, blocks h !! b = Some o -> blocks h' !! b = Some o.
Proof.
  intros Hv Hfull Hne Hpol Hx Hall.
  destruct (append_with_relocation_throws ops v h l y Hv Hfull Hne Hpol Hall)
    as (h' & Hrun & Hk & Hv' & Hfr).
  exists h'. rewrite PushBack_append_with, Hx. auto.
Qed.

(** A vector is not affected by what leaves the blocks of other objects as
    they are. *)
Lemma is_vector_other v u h h' lu :
  is_vector (u, h) lu ->
  (forall b, blk (begin v) = Some b -> blk (begin u) <> Some b) ->
  (forall b' o, blk (buffer_ (data_ v)) <> Some b' ->
     blocks h !! b' = Some o -> blocks h' !! b' = Some o) ->
  is_vector (u, h') lu.
Proof.
  unfold is_vector, begin, RawMem.GetAddress. cbn [fst snd].
  intros (Hs & Hc & Hb) Hd Hfr.
  split; [exact Hs |]. split; [exact Hc |].
  destruct (blk (buffer_ (data_ u))) as [b |]; [| exact Hb].
  destruct Hb as [Ho Hm]. split; [exact Ho |].
  eapply Hfr; [| exact Hm]. intros E. exact (Hd b E eq_refl).
Qed.

(** Property X17.  Exclusive ownership: an append to one vector, a reallocation included,
    leaves every other vector of the heap with the elements it had. *)
Theorem PushBack_leaves_others v u h l lu x :
  is_vector (v, h) l ->
  is_vector (u, h) lu ->
  (forall b, blk (begin v) = Some b -> blk (begin u) <> Some b) ->
  (Size v = Capacity v -> Forall (relocates ops) l) ->
  copy_ctor ops x = Ok x ->
  exists v' h',
    PushBack ops x (v, h) = (Ok tt, (v', h')) /\
    is_vector (v', h') (l ++ [x]) /\
    is_vector (u, h') lu.
Proof.
  intros Hv Hu Hd F Hx.
  destruct (append_with_ok_frame ops v h l x Hv F)
    as (v' & h' & Hrun & Hv' & _ & _ & _ & Hfr).
  exists v', h'. rewrite PushBack_append_with, Hx.
  split; [exact Hrun |]. split; [exact Hv' |].
  eapply is_vector_other; eauto.
Qed.

End AppendFacts.

(** ** Exceptions in Reserve, Resize and Emplace; positions out of range;
    moved-from and copied vectors *)

Section MoreGuarantees.
Context {T : Type} (ops : ElemOps T).
Implicit Types (h : Heap T) (v u : Vector) (l : list T) (b i n : nat).

(** Property X18.  [Reserve] beyond the capacity, to a capacity whose size in
    bytes does not wrap, is strongly exception safe: when the elements
    relocate by copy and a copy constructor throws, the copies already made
    are destroyed and the new buffer is released (the heap has the blocks it
    had and the released one after them, and the leak list is as before), and
    the vector holds what it held. *)
Theorem Reserve_strong_guarantee v h l n :
  is_vector (v, h) l -> Capacity v < n -> fits ops n ->
  relocates_by_move ops = false ->
  copy_all ops l = Throw ->
  exists h',
    Reserve ops n (v, h) = (Throw, (v, h')) /\
    is_vector (v, h') l /\
    leaked h' = leaked h /\
    blocks h' = blocks h ++ [None] /\
    forall b o, blocks h !! b = Some o -> blocks h' !! b = Some o.
Proof.
  intros Hv Hn Hfit Hpol Hall.
  destruct (is_vector_inv _ _ _ Hv) as (Hs & Hc & Hsh).
  destruct v as [[p c] k]. unfold Size, Capacity, RawMem.Capacity in *.
  cbn [size_ data_ capacity_ buffer_ fst snd] in *. subst k.
  destruct Hsh as [(_ & _ & ->) | (b & -> & Hm)]; [discriminate Hall |].
  set (bd := length (blocks h)) in *.
  assert (Nb : b <> bd) by (apply lookup_lt_Some in Hm; unfold bd; lia).
  set (h0 := halloc n h).
  pose proof (uninitialized_copy_from_spec ops l h0 b bd
                [] (replicate (c - length l) None) [] []
                (replicate (n - length l) None) Nb) as Hcopy.
  cbn [length app fmap list_fmap] in Hcopy. rewrite Hall in Hcopy.
  cbv zeta in Hcopy. cbn [Nat.add] in Hcopy.
  rewrite <- replicate_add in Hcopy.
  replace (length l + (n - length l)) with n in Hcopy by lia.
  assert (Hthrow : uninitialized_copy_from ops {| blk := Some b; off := 0 |} (length l)
                     {| blk := Some bd; off := 0 |} {| blk := Some bd; off := 0 |} h0
                   = (Throw, hset bd (replicate n None) h0)).
  { apply Hcopy.
    - unfold h0. eapply blocks_halloc_old. rewrite Hm. reflexivity.
    - unfold h0, bd. apply blocks_halloc_new. }
  assert (Hold : forall b0 o, blocks h !! b0 = Some o ->
                 blocks (hfree bd h0) !! b0 = Some o).
  { intros b0 o E. rewrite blocks_hfree_ne.
    - eapply blocks_halloc_old, E.
    - apply lookup_lt_Some in E. unfold bd. lia. }
  exists (hfree bd h0).
  split; [| split; [eapply is_vector_frame; eauto
                   | split; [reflexivity
                            | split; [apply blocks_hfree_halloc | exact Hold]]]].
  unfold Reserve. step.
  replace (n <=? c) with false by (symmetry; apply Nat.leb_gt; exact Hn).
  erewrite bind_ok by (apply in_heap_eq, RawMemory_new_spec; [lia | exact Hfit]). proj.
  erewrite bind_throw; [reflexivity |].
  eapply on_throw_throw.
  - apply in_heap_eq. unfold Uninitialized_Move_Or_Copy_N.
    unfold relocates_by_move in Hpol. rewrite Hpol.
    unfold uninitialized_copy_n. exact Hthrow.
  - apply in_heap_eq. eapply RawMemory_delete_raw. apply blocks_halloc_new.
Qed.

(** Property X19.  [Resize] to a larger size, one that does not exceed the
    capacity or whose size in bytes does not wrap, when one of the calls of
    [T()] throws, whichever it is: the new elements constructed before it are
    destroyed, the elements and the size are as before and nothing is leaked,
    but the capacity is already that of the [Reserve] the function starts
    with. *)
Theorem Resize_value_init_throws v h l n :
  is_vector (v, h) l -> Size v < n ->
  (Capacity v < n -> fits ops n) ->
  (Capacity v < n -> Forall (relocates ops) l) ->
  value_init_all ops 0 (n - Size v) = Throw ->
  exists v' h',
    Resize ops n (v, h) = (Throw, (v', h')) /\
    is_vector (v', h') l /\
    Size v' = Size v /\
    Capacity v' = Nat.max (Capacity v) n /\
    leaked h' = leaked h.
Proof.
  intros Hv Hn Hfit F Hd.
  destruct (is_vector_inv _ _ _ Hv) as (Hs & Hc & Hsh).
  destruct (Reserve_ok ops v h l n Hv Hfit F) as (v1 & h1 & Hrun & Hv1 & Hs1 & Hc1 & Hk1).
  destruct (is_vector_inv _ _ _ Hv1) as (_ & Hc1' & Hsh1).
  unfold Size in Hn, Hd.
  destruct Hsh1 as [(_ & E & _) | (b & Eb & Hm)]; [lia |].
  assert (Hm' : blocks h1 !! b
                = Some (Some ((Some <$> l) ++ (Some <$> []) ++
                                replicate (n - size_ v) None
                                ++ replicate (capacity_ (data_ v1) - n) None))).
  { rewrite Hm. unfold slots_of. cbn [fmap list_fmap app].
    rewrite <- replicate_add. do 4 f_equal. lia. }
  pose proof (uninitialized_value_construct_from_spec ops (n - size_ v) h1 b
                (Some <$> l) [] _ Hm') as Hval.
  cbv zeta in Hval. cbn [length] in Hval. rewrite Hd, Nat.add_0_r in Hval.
  rewrite length_fmap in Hval. cbn [Nat.add] in Hval.
  rewrite hset_id in Hval
    by (rewrite Hm; unfold slots_of; rewrite <- replicate_add;
        do 4 f_equal; lia).
  exists v1, h1. split.
  { unfold Resize. erewrite bind_ok by exact Hrun. step.
    replace (n <? size_ v1) with false by (symmetry; apply Nat.ltb_ge; lia).
    replace (size_ v1 <? n) with true by (symmetry; apply Nat.ltb_lt; lia).
    erewrite bind_throw; [reflexivity |].
    apply in_heap_eq. unfold uninitialized_value_construct_n.
    rewrite Eb, Hs1. cbn [blk off Nat.add]. rewrite Hs at 2 3. exact Hval. }
  unfold Size, Capacity, RawMem.Capacity. auto.
Qed.

(** Property X20.  A moved-from vector can be destroyed: its destructor releases nothing,
    and the vector constructed from it keeps the elements. *)
Theorem moved_from_destructor_releases_nothing (s : Vector) h l :
  is_vector (s, h) l ->
  exists v,
    (let* (v, s') := Vector_move s in Vector_delete s' ;;; ret v) h = (Ok v, h) /\
    is_vector (v, h) l.
Proof.
  intros Hv. exists {| data_ := data_ s; size_ := size_ s |}.
  split; [| destruct s as [[p c] k]; exact Hv].
  destruct s as [[p c] k]. reflexivity.
Qed.

(** Property X21.  A copy is independent of its source: appending to the copy, with or
    without a reallocation, leaves the source with the elements it had. *)
Theorem Vector_copy_independent (s : Vector) h l x :
  is_vector (s, h) l ->
  Forall (fun y => copy_ctor ops y = Ok y) l ->
  Forall (relocates ops) l ->
  copy_ctor ops x = Ok x ->
  exists v h',
    (let* c := Vector_copy ops s in
     let* (_, c') := call (PushBack ops x) c in
     ret c') h = (Ok v, h') /\
    is_vector (v, h') (l ++ [x]) /\
    is_vector (s, h') l /\
    leaked h' = leaked h.
Proof.
  intros Hs Fc Fr Hx.
  pose proof (Vector_copy_cases ops s h l Hs) as Hcopy.
  rewrite (copy_all_faithful ops l Fc) in Hcopy.
  destruct Hcopy as (c & h1 & Hrun & Hc & Hsz & _ & Hblk & Hs1 & Hk1 & _).
  assert (Hd : forall b, blk (begin c) = Some b -> blk (begin s) <> Some b).
  { intros b Eb Es.
    destruct l as [| y l'].
    - (* the copy of an empty vector owns no block *)
      destruct (is_vector_inv _ _ _ Hs) as (Hss & _ & _). cbn [length] in Hss.
      unfold Vector_copy in Hrun. rewrite Hss in Hrun. cbn in Hrun.
      injection Hrun as <- _. discriminate Eb.
    - rewrite Hblk in Eb by discriminate. injection Eb as <-.
      unfold is_vector in Hs. cbn [fst snd] in Hs. unfold begin, RawMem.GetAddress in Es.
      rewrite Es in Hs. destruct Hs as (_ & _ & _ & Hm).
      apply lookup_lt_Some in Hm. lia. }
  destruct (append_with_ok_frame ops c h1 l x Hc (fun _ => Fr))
    as (c' & h' & Hpush & Hc' & _ & _ & Hk' & Hfr).
  exists c', h'. split.
  { erewrite bind_ok by exact Hrun.
    erewrite bind_ok
      by (unfold call; rewrite PushBack_append_with, Hx, Hpush; reflexivity).
    reflexivity. }
  split; [exact Hc' |]. split; [| congruence].
  eapply is_vector_other; eauto.
Qed.

(** Property X22.  A position past [end()] fails the range assertion of
    [Emplace], of both [Insert] and of [Erase], before anything is
    constructed, moved or destroyed: the vector and the heap are as before. *)
Theorem position_out_of_range v h n ctor x :
  Size v < n ->
  let pos := ptr_add (begin v) n in
  Emplace ops pos ctor (v, h) = (Fault, (v, h)) /\
  Insert ops pos x (v, h) = (Fault, (v, h)) /\
  Insert_move ops pos x (v, h) = (Fault, (v, h)) /\
  Erase ops pos (v, h) = (Fault, (v, h)).
Proof.
  intros Hn pos.
  assert (A : ptr_leb (begin v) pos && ptr_leb pos (end_ v) = false).
  { unfold pos, end_, begin, RawMem.GetAddress, ptr_add, ptr_leb. cbn [blk off].
    rewrite !bool_decide_eq_true_2 by reflexivity. cbn [andb].
    replace (off (buffer_ (data_ v)) <=? off (buffer_ (data_ v)) + n) with true
      by (symmetry; apply Nat.leb_le; lia).
    apply Nat.leb_gt. unfold Size in Hn. lia. }
  assert (E : forall c, Emplace ops pos c (v, h) = (Fault, (v, h))).
  { intros c. unfold Emplace. erewrite bind_ok by reflexivity. cbv beta. cbn [fst].
    rewrite A. reflexivity. }
  split; [apply E |]. split; [apply E |]. split; [apply E |].
  unfold Erase. erewrite bind_ok by reflexivity. cbv beta. cbn [fst].
  rewrite A. reflexivity.
Qed.

(** Property X23.  [Emplace] when the constructor of the new element throws: in every branch
    the construction from the arguments comes before anything is moved, so the
    vector holds the elements it held, with the size it had, and nothing is
    leaked.  The vector itself is unchanged unless its capacity was 0; then
    [Reserve(1)] has already run and the capacity is 1. *)
Theorem Emplace_ctor_throws v h l n :
  is_vector (v, h) l -> n <= length l ->
  exists v' h',
    Emplace ops (ptr_add (begin v) n) Throw (v, h) = (Throw, (v', h')) /\
    is_vector (v', h') l /\
    Size v' = Size v /\
    leaked h' = leaked h /\
    (Capacity v <> 0 -> v' = v) /\
    (Capacity v = 0 -> Capacity v' = 1).
Proof.
  intros Hv Hn.
  destruct (is_vector_inv _ _ _ Hv) as (Hs & Hc & Hsh).
  destruct v as [[p c] k]. unfold Size, Capacity, RawMem.Capacity in *. proj.
  cbn [size_ data_ capacity_ buffer_ fst snd] in *. subst k.
  assert (Hp : p = {| blk := blk p; off := 0 |}).
  { destruct Hsh as [(-> & _) | (b & -> & _)]; reflexivity. }
  assert (A : ptr_leb p {| blk := blk p; off := off p + n |} &&
              ptr_leb {| blk := blk p; off := off p + n |}
                      {| blk := blk p; off := off p + length l |} = true).
  { destruct p as [pb po]. cbn [blk off]. rewrite !ptr_leb_same.
    apply andb_true_intro. split; apply Nat.leb_le; lia. }
  destruct (Nat.eq_dec (length l) c) as [<- | Hspare].
  - destruct (Nat.eq_dec (length l) 0) as [Hz | Hnz].
    + (* Reserve(1), then the constructor throws *)
      assert (l = []) as -> by (destruct l; [reflexivity | discriminate Hz]).
      destruct (Reserve_grow ops _ h [] 1 Hv) as (h1 & Hrun & Hb & _ & Hk);
        [simpl; lia | apply fits_1 | constructor |].
      eexists _, h1. split.
      { unfold Emplace. step. rewrite A. step.
        cbn [length Nat.eqb]. cbv match.
        erewrite bind_throw; [reflexivity |].
        erewrite bind_ok by exact Hrun. step. reflexivity. }
      cbn [fst snd]. split; [apply is_vector_block; [reflexivity | simpl; lia | exact Hb] |].
      split; [reflexivity |]. split; [exact Hk |].
      split; [intros N; contradiction | reflexivity].
    + (* a new buffer is allocated and released *)
      set (bd := length (blocks h)).
      set (h' := hfree bd (halloc (length l * 2) h)).
      assert (Hold : forall b o, blocks h !! b = Some o -> blocks h' !! b = Some o).
      { intros b o E. unfold h'. rewrite blocks_hfree_ne.
        - eapply blocks_halloc_old, E.
        - apply lookup_lt_Some in E. unfold bd. lia. }
      exists {| data_ := {| buffer_ := p; capacity_ := length l |}; size_ := length l |}, h'.
      split.
      { unfold Emplace. step. rewrite A. step.
        rewrite Nat.eqb_refl.
        replace (length l =? 0) with false by (symmetry; apply Nat.eqb_neq; exact Hnz).
        erewrite bind_throw; [reflexivity |].
        erewrite bind_ok by (apply in_heap_eq, RawMemory_new_fitting_spec; lia). proj.
        erewrite bind_throw; [reflexivity |].
        eapply on_throw_throw.
        - apply in_heap_eq. reflexivity.
        - apply in_heap_eq.
          pose proof (RawMemory_delete_raw (halloc (length l * 2) h) bd (length l * 2)
                        (length l * 2) _ (blocks_halloc_new _ _)) as Hdel.
          rewrite hset_id in Hdel by apply blocks_halloc_new. exact Hdel. }
      split; [eapply is_vector_frame; eauto |].
      split; [reflexivity |]. split; [reflexivity |].
      split; [reflexivity | contradiction].
  - (* spare capacity: the constructor is the first thing that runs *)
    exists {| data_ := {| buffer_ := p; capacity_ := c |}; size_ := length l |}, h.
    split.
    { unfold Emplace. step. rewrite A. step.
      replace (length l =? c) with false by (symmetry; apply Nat.eqb_neq; exact Hspare).
      destruct (length l =? 0); reflexivity. }
    split; [exact Hv |]. split; [reflexivity |]. split; [reflexivity |].
    split; [reflexivity | intros Hz; lia].
Qed.

(** The block of [Allocate(n)] has room for [n] objects exactly when
    [n * sizeof(T)] does not wrap, and for fewer when it does. *)
Lemma alloc_slots_le n : alloc_slots ops n <= n.
Proof.
  unfold alloc_slots, alloc_bytes.
  pose proof (sizeof_T_range ops) as [P _].
  assert (size_t_range <> 0)%N by discriminate.
  assert ((N.of_nat n * sizeof_T ops) mod size_t_range / sizeof_T ops
          <= N.of_nat n)%N; [| lia].
  etransitivity; [apply N.Div0.div_le_mono, N.Div0.mod_le |].
  rewrite N.div_mul by lia. reflexivity.
Qed.

Lemma alloc_slots_exact n : alloc_slots ops n = n <-> fits ops n.
Proof.
  split; [| apply alloc_slots_fits].
  unfold alloc_slots, alloc_bytes, fits. intros E.
  pose proof (sizeof_T_range ops) as [P _].
  assert (R : (size_t_range <> 0)%N) by discriminate.
  destruct (N.lt_ge_cases (N.of_nat n * sizeof_T ops) size_t_range) as [L | G];
    [exact L | exfalso].
  pose proof (N.mod_upper_bound (N.of_nat n * sizeof_T ops) size_t_range R) as U.
  assert (E' : ((N.of_nat n * sizeof_T ops) mod size_t_range / sizeof_T ops
                = N.of_nat n)%N) by lia.
  pose proof (N.Div0.mul_div_le ((N.of_nat n * sizeof_T ops) mod size_t_range)
                (sizeof_T ops)) as D.
  rewrite E' in D. lia.
Qed.

(** Property X24.  A [RawMemory] constructed and destroyed.  [RawMemory(n)]
    has capacity [n]; for [n = 0] it allocates nothing; otherwise it owns one
    new block of raw storage, in which no object is constructed, with room
    for as many objects as fit into [n * sizeof(T)] bytes computed in
    [size_t]: for [n] of them exactly when the product does not wrap, for
    fewer when it does.  The destructor releases the block; the blocks the
    heap had are as before. *)
Theorem RawMemory_lifetime n h :
  exists m h1 h',
    RawMemory_new ops n h = (Ok m, h1) /\
    RawMem.Capacity m = n /\
    (n = 0 -> RawMem.GetAddress m = nullptr /\ h1 = h) /\
    (n <> 0 ->
     blocks h1 = blocks h ++ [Some (replicate (alloc_slots ops n) None)] /\
     block_of h1 (RawMem.GetAddress m) = Some (replicate (alloc_slots ops n) None)) /\
    alloc_slots ops n <= n /\
    (alloc_slots ops n = n <-> fits ops n) /\
    RawMemory_delete m h1 = (Ok tt, h') /\
    blocks h' = blocks h ++ (if n =? 0 then [] else [None]) /\
    leaked h' = leaked h.
Proof.
  destruct n as [| n].
  - exists RawMem.default, h, h. cbn [Nat.eqb]. rewrite app_nil_r.
    split; [reflexivity |]. split; [reflexivity |].
    split; [intros _; split; reflexivity |]. split; [intros N; congruence |].
    split; [apply alloc_slots_le |]. split; [apply alloc_slots_exact |].
    split; [reflexivity |]. split; reflexivity.
  - eexists _, _, _. split; [apply RawMemory_new_slots; lia |].
    split; [reflexivity |]. split; [intros N; discriminate N |].
    split.
    { intros _. split; [reflexivity |].
      unfold block_of, RawMem.GetAddress. cbn [buffer_ blk off].
      rewrite blocks_halloc_new. reflexivity. }
    split; [apply alloc_slots_le |]. split; [apply alloc_slots_exact |].
    split.
    { pose proof (RawMemory_delete_raw (halloc (alloc_slots ops (S n)) h)
                    (length (blocks h)) (S n) (alloc_slots ops (S n)) _
                    (blocks_halloc_new _ _)) as Hdel.
      rewrite hset_id in Hdel by apply blocks_halloc_new. exact Hdel. }
    cbn [Nat.eqb]. split; [apply blocks_hfree_halloc | reflexivity].
Qed.

End MoreGuarantees.

(** ** The further properties at concrete vectors *)

Lemma int_moves_faithfully : moves_faithfully int_ops.
Proof. split; [intros x | intros d x]; exists x; reflexivity. Qed.

Lemma two_ints_relocate : Forall (relocates int_ops) [7; 8].
Proof. repeat constructor; apply int_relocates. Qed.

Lemma three_ints_is_vector : is_vector (three_ints, two_vectors_heap) [1; 2; 3].
Proof. unfold is_vector. simpl. auto. Qed.

Lemma two_ints_beside_three : is_vector (two_ints, two_vectors_heap) [7; 8].
Proof. unfold is_vector. simpl. auto. Qed.

Lemma unlucky_is_vector : is_vector (two_ints, unlucky_heap) [1; 13].
Proof. unfold is_vector. simpl. auto. Qed.

Lemma element_in_bounds_or_fault_witness :
  is_vector (two_ints, two_ints_heap) [7; 8] /\
  element 1 (two_ints, two_ints_heap) = (Ok 8, (two_ints, two_ints_heap)) /\
  element 2 (two_ints, two_ints_heap) = (Fault, (two_ints, two_ints_heap)).
Proof.
  split; [exact two_ints_is_vector |]. split.
  - exact (element_in_bounds_or_fault two_ints two_ints_heap [7; 8] 1 two_ints_is_vector).
  - exact (element_in_bounds_or_fault two_ints two_ints_heap [7; 8] 2 two_ints_is_vector).
Defined.

Lemma Vector_sized_spec_witness :
  fits int_ops 3 /\
  fits throwing_default_ops 3 /\
  (exists v h',
     Vector_sized int_ops 3 empty_heap = (Ok v, h') /\
     is_vector (v, h') [0; 0; 0] /\ Capacity v = 3) /\
  value_init_all throwing_default_ops 0 3 = Throw /\
  (exists h',
     Vector_sized throwing_default_ops 3 empty_heap = (Throw, h') /\
     blocks h' = [None] /\ leaked h' = []).
Proof.
  assert (F1 : fits int_ops 3) by reflexivity.
  assert (F2 : fits throwing_default_ops 3) by reflexivity.
  split; [exact F1 |]. split; [exact F2 |]. split.
  - destruct (Vector_sized_spec int_ops 3 empty_heap F1)
      as (v & h' & Hrun & Hv & _ & Hc & _).
    exists v, h'. split; [exact Hrun |]. split; [exact Hv | exact Hc].
  - split; [reflexivity |].
    exact (Vector_sized_spec throwing_default_ops 3 empty_heap F2).
Defined.

Lemma Vector_copy_spec_witness :
  is_vector (two_ints, two_ints_heap) [7; 8] /\
  exists v h',
    Vector_copy int_ops two_ints two_ints_heap = (Ok v, h') /\
    is_vector (v, h') [7; 8] /\
    is_vector (two_ints, h') [7; 8] /\
    blk (begin v) = Some 1.
Proof.
  split; [exact two_ints_is_vector |].
  destruct (Vector_copy_spec int_ops two_ints two_ints_heap [7; 8] two_ints_is_vector)
    as (v & h' & Hrun & Hv & _ & _ & Hb & Hs & _).
  exists v, h'. split; [exact Hrun |]. split; [exact Hv |]. split; [exact Hs |].
  apply Hb. discriminate.
Defined.

Lemma Vector_destructor_spec_witness :
  is_vector (two_ints, two_ints_heap) [7; 8] /\
  exists h',
    Vector_delete two_ints two_ints_heap = (Ok tt, h') /\
    leaked h' = [] /\
    blocks h' !! 0 = Some None.
Proof.
  split; [exact two_ints_is_vector |].
  destruct (Vector_destructor_spec two_ints two_ints_heap [7; 8] two_ints_is_vector)
    as (h' & Hrun & Hk & Hb & _).
  exists h'. split; [exact Hrun |]. split; [exact Hk |]. apply Hb. reflexivity.
Defined.

Lemma copy_assign_in_place_witness :
  is_vector (three_ints, two_vectors_heap) [1; 2; 3] /\
  is_vector (two_ints, two_vectors_heap) [7; 8] /\
  Size two_ints <= Capacity three_ints /\
  exists V' h',
    operator_assign int_ops (Other two_ints) (three_ints, two_vectors_heap)
    = (Ok tt, (V', h')) /\
    is_vector (V', h') [7; 8] /\
    is_vector (two_ints, h') [7; 8] /\
    begin V' = begin three_ints /\ Capacity V' = 4.
Proof.
  assert (L : Size two_ints <= Capacity three_ints) by (cbv; lia).
  split; [exact three_ints_is_vector |]. split; [exact two_ints_beside_three |].
  split; [exact L |].
  destruct (copy_assign_in_place int_ops three_ints two_ints two_vectors_heap
              [1; 2; 3] [7; 8] three_ints_is_vector two_ints_beside_three)
    as (V' & h' & Hrun & HV & HS & Hb & Hc & _).
  - intros b E N. cbv in E, N. congruence.
  - exact L.
  - intros d x. reflexivity.
  - repeat constructor.
  - exists V', h'. split; [exact Hrun |]. split; [exact HV |]. split; [exact HS |].
    split; [exact Hb | exact Hc].
Defined.

Lemma Emplace_spec_witness :
  moves_faithfully int_ops /\
  Forall (relocates int_ops) [7; 8] /\
  is_vector (two_ints, two_ints_heap) [7; 8] /\
  exists v' h',
    Emplace int_ops (ptr_add (begin two_ints) 1) (Ok 9) (two_ints, two_ints_heap)
    = (Ok (ptr_add (begin v') 1), (v', h')) /\
    is_vector (v', h') [7; 9; 8] /\
    Size v' = 3.
Proof.
  split; [exact int_moves_faithfully |]. split; [exact two_ints_relocate |].
  split; [exact two_ints_is_vector |].
  apply (Emplace_spec int_ops two_ints two_ints_heap [7; 8] 1 9 int_moves_faithfully
           two_ints_relocate two_ints_is_vector).
  - simpl. lia.
  - left. reflexivity.
Defined.

Lemma Insert_spec_witness :
  moves_faithfully int_ops /\
  Forall (relocates int_ops) [1; 2; 3] /\
  is_vector (three_ints, two_vectors_heap) [1; 2; 3] /\
  (exists v' h',
     Insert int_ops (ptr_add (begin three_ints) 0) 9 (three_ints, two_vectors_heap)
     = (Ok (ptr_add (begin v') 0), (v', h')) /\
     is_vector (v', h') [9; 1; 2; 3]) /\
  (exists v' h',
     Insert_move int_ops (ptr_add (begin three_ints) 2) 9 (three_ints, two_vectors_heap)
     = (Ok (ptr_add (begin v') 2), (v', h')) /\
     is_vector (v', h') [1; 2; 9; 3]).
Proof.
  assert (F : Forall (relocates int_ops) [1; 2; 3])
    by (repeat constructor; apply int_relocates).
  split; [exact int_moves_faithfully |]. split; [exact F |].
  split; [exact three_ints_is_vector |]. split.
  - destruct (Insert_spec int_ops three_ints two_vectors_heap [1; 2; 3] 0 9
                int_moves_faithfully F three_ints_is_vector) as [Hc _].
    + simpl. lia.
    + right. right. simpl. lia.
    + destruct (Hc eq_refl) as (v' & h' & Hrun & Hv & _).
      exists v', h'. split; [exact Hrun | exact Hv].
  - destruct (Insert_spec int_ops three_ints two_vectors_heap [1; 2; 3] 2 9
                int_moves_faithfully F three_ints_is_vector) as [_ Hm].
    + simpl. lia.
    + right. right. simpl. lia.
    + destruct (Hm eq_refl) as (v' & h' & Hrun & Hv & _).
      exists v', h'. split; [exact Hrun | exact Hv].
Defined.

Lemma Erase_spec_witness :
  (forall d y, exists r, move_assign int_ops d y = Ok (y, r)) /\
  is_vector (three_ints, two_vectors_heap) [1; 2; 3] /\
  exists v' h',
    Erase int_ops (ptr_add (begin three_ints) 1) (three_ints, two_vectors_heap)
    = (Ok (ptr_add (begin v') 1), (v', h')) /\
    is_vector (v', h') [1; 3] /\
    Size v' + 1 = 3 /\ Capacity v' = 4.
Proof.
  split; [exact (proj2 int_moves_faithfully) |]. split; [exact three_ints_is_vector |].
  destruct (Erase_spec int_ops three_ints two_vectors_heap [1; 2; 3] 1
              (proj2 int_moves_faithfully) three_ints_is_vector)
    as (v' & h' & Hrun & Hv & Hs & Hc & _).
  - simpl. lia.
  - exists v', h'. split; [exact Hrun |]. split; [exact Hv |].
    split; [exact Hs | exact Hc].
Defined.

Lemma Emplace_then_Erase_witness :
  moves_faithfully int_ops /\
  Forall (relocates int_ops) [7; 8] /\
  is_vector (two_ints, two_ints_heap) [7; 8] /\
  exists p v' h',
    (let* p := Emplace int_ops (ptr_add (begin two_ints) 1) (Ok 9) in Erase int_ops p)
      (two_ints, two_ints_heap)
    = (Ok p, (v', h')) /\
    is_vector (v', h') [7; 8] /\
    Size v' = 2.
Proof.
  split; [exact int_moves_faithfully |]. split; [exact two_ints_relocate |].
  split; [exact two_ints_is_vector |].
  apply (Emplace_then_Erase int_ops two_ints two_ints_heap [7; 8] 1 9
           int_moves_faithfully two_ints_relocate two_ints_is_vector).
  - simpl. lia.
  - left. reflexivity.
Defined.

Lemma EmplaceBack_spec_witness :
  is_vector (two_ints, two_ints_heap) [7; 8] /\
  Forall (relocates int_ops) [7; 8] /\
  exists p v' h',
    EmplaceBack int_ops (Ok 9) (two_ints, two_ints_heap) = (Ok p, (v', h')) /\
    is_vector (v', h') [7; 8; 9] /\
    in_heap (read p) (v', h') = (Ok 9, (v', h')).
Proof.
  split; [exact two_ints_is_vector |]. split; [exact two_ints_relocate |].
  destruct (EmplaceBack_spec int_ops two_ints two_ints_heap [7; 8] 9
              two_ints_is_vector (fun _ => two_ints_relocate))
    as (p & v' & h' & Hrun & Hv & _ & _ & Hr).
  exists p, v', h'. split; [exact Hrun |]. split; [exact Hv | exact Hr].
Defined.

Lemma PushBack_then_PopBack_witness :
  is_vector (two_ints, two_ints_heap) [7; 8] /\
  Forall (relocates int_ops) [7; 8] /\
  copy_ctor int_ops 9 = Ok 9 /\
  exists v' h',
    (PushBack int_ops 9 ;;; PopBack) (two_ints, two_ints_heap) = (Ok tt, (v', h')) /\
    is_vector (v', h') [7; 8] /\
    Size v' = 2.
Proof.
  split; [exact two_ints_is_vector |]. split; [exact two_ints_relocate |].
  split; [reflexivity |].
  destruct (PushBack_then_PopBack int_ops two_ints two_ints_heap [7; 8] 9
              two_ints_is_vector (fun _ => two_ints_relocate) eq_refl)
    as (v' & h' & Hrun & Hv & Hs & _).
  exists v', h'. split; [exact Hrun |]. split; [exact Hv | exact Hs].
Defined.

Lemma Reserve_twice_witness :
  is_vector (two_ints, two_ints_heap) [7; 8] /\
  fits int_ops 5 /\
  Forall (relocates int_ops) [7; 8] /\
  3 <= 5 /\
  (Reserve int_ops 5 ;;; Reserve int_ops 3) (two_ints, two_ints_heap)
  = Reserve int_ops 5 (two_ints, two_ints_heap) /\
  exists v' h',
    Reserve int_ops 5 (two_ints, two_ints_heap) = (Ok tt, (v', h')) /\
    5 <= Capacity v'.
Proof.
  assert (L : 3 <= 5) by lia.
  assert (Hfit : fits int_ops 5) by reflexivity.
  split; [exact two_ints_is_vector |]. split; [exact Hfit |].
  split; [exact two_ints_relocate |]. split; [exact L |].
  exact (Reserve_twice int_ops two_ints two_ints_heap [7; 8] 5 3
           two_ints_is_vector (fun _ => Hfit) (fun _ => two_ints_relocate) L).
Defined.

Lemma PushBack_ctor_throws_witness :
  is_vector (two_ints, two_ints_heap) [7; 8] /\
  copy_ctor throwing_ops 13 = Throw /\
  exists v' h',
    PushBack throwing_ops 13 (two_ints, two_ints_heap) = (Throw, (v', h')) /\
    is_vector (v', h') [7; 8] /\
    leaked h' = [] /\
    v' = two_ints.
Proof.
  split; [exact two_ints_is_vector |]. split; [reflexivity |].
  destruct (PushBack_ctor_throws throwing_ops two_ints two_ints_heap [7; 8] 13
              two_ints_is_vector eq_refl)
    as (v' & h' & Hrun & Hv & _ & Hk & Hsame & _).
  exists v', h'. split; [exact Hrun |]. split; [exact Hv |]. split; [exact Hk |].
  apply Hsame. cbv. lia.
Defined.

Lemma PushBack_relocation_throws_witness :
  is_vector (two_ints, unlucky_heap) [1; 13] /\
  Size two_ints = Capacity two_ints /\
  relocates_by_move throwing_ops = false /\
  copy_ctor throwing_ops 5 = Ok 5 /\
  copy_all throwing_ops [1; 13] = Throw /\
  exists h',
    PushBack throwing_ops 5 (two_ints, unlucky_heap) = (Throw, (two_ints, h')) /\
    is_vector (two_ints, h') [1; 13] /\
    leaked h' = [5].
Proof.
  split; [exact unlucky_is_vector |]. split; [reflexivity |]. split; [reflexivity |].
  split; [reflexivity |]. split; [reflexivity |].
  destruct (PushBack_relocation_throws throwing_ops two_ints unlucky_heap [1; 13] 5 5
              unlucky_is_vector eq_refl)
    as (h' & Hrun & Hv & Hk & _); try reflexivity.
  - discriminate.
  - exists h'. split; [exact Hrun |]. split; [exact Hv | exact Hk].
Defined.

Lemma PushBack_leaves_others_witness :
  is_vector (two_ints, two_vectors_heap) [7; 8] /\
  is_vector (three_ints, two_vectors_heap) [1; 2; 3] /\
  Forall (relocates int_ops) [7; 8] /\
  copy_ctor int_ops 9 = Ok 9 /\
  exists v' h',
    PushBack int_ops 9 (two_ints, two_vectors_heap) = (Ok tt, (v', h')) /\
    is_vector (v', h') [7; 8; 9] /\
    is_vector (three_ints, h') [1; 2; 3].
Proof.
  split; [exact two_ints_beside_three |]. split; [exact three_ints_is_vector |].
  split; [exact two_ints_relocate |]. split; [reflexivity |].
  apply (PushBack_leaves_others int_ops two_ints three_ints two_vectors_heap
           [7; 8] [1; 2; 3] 9 two_ints_beside_three three_ints_is_vector).
  - intros b E N. cbv in E, N. congruence.
  - intros _. exact two_ints_relocate.
  - reflexivity.
Defined.

Lemma string_moves_faithfully : moves_faithfully string_ops.
Proof. split; [intros x | intros d x]; exists EmptyString; reflexivity. Qed.

Lemma one_string_is_vector :
  is_vector (one_string, one_string_heap) ([] ++ ["a"%string]).
Proof. unfold is_vector. simpl. auto. Qed.

Lemma Emplace_end_in_place_witness :
  moves_faithfully string_ops /\
  move_ctor string_ops "a"%string = Ok ("a"%string, EmptyString) /\
  is_vector (one_string, one_string_heap) ([] ++ ["a"%string]) /\
  Size one_string < Capacity one_string /\
  (exists v' h',
     Emplace string_ops (end_ one_string) (Ok "x"%string) (one_string, one_string_heap)
     = (Ok (end_ one_string), (v', h')) /\
     is_vector (v', h') [EmptyString; "x"%string]) /\
  moves_faithfully int_ops /\
  move_ctor int_ops 3 = Ok (3, 3) /\
  is_vector (three_ints, two_vectors_heap) ([1; 2] ++ [3]) /\
  Size three_ints < Capacity three_ints /\
  fst (Emplace int_ops (end_ three_ints) (Ok 9) (three_ints, two_vectors_heap)) = Fault.
Proof.
  assert (L1 : Size one_string < Capacity one_string) by (cbv; lia).
  assert (L2 : Size three_ints < Capacity three_ints) by (cbv; lia).
  split; [exact string_moves_faithfully |]. split; [reflexivity |].
  split; [exact one_string_is_vector |]. split; [exact L1 |]. split.
  - destruct (Emplace_end_in_place string_ops one_string one_string_heap []
                "a"%string EmptyString "x"%string
                string_moves_faithfully eq_refl one_string_is_vector L1)
      as (v' & h' & Hrun & Hv & _).
    exists v', h'. split; [exact Hrun | exact Hv].
  - split; [exact int_moves_faithfully |]. split; [reflexivity |].
    split; [exact three_ints_is_vector |]. split; [exact L2 |].
    exact (Emplace_end_in_place int_ops three_ints two_vectors_heap [1; 2] 3 3 9
             int_moves_faithfully eq_refl three_ints_is_vector L2).
Defined.

Lemma Reserve_strong_guarantee_witness :
  is_vector (two_ints, unlucky_heap) [1; 13] /\
  Capacity two_ints < 5 /\
  fits throwing_ops 5 /\
  relocates_by_move throwing_ops = false /\
  copy_all throwing_ops [1; 13] = Throw /\
  exists h',
    Reserve throwing_ops 5 (two_ints, unlucky_heap) = (Throw, (two_ints, h')) /\
    is_vector (two_ints, h') [1; 13] /\
    leaked h' = [] /\
    blocks h' = blocks unlucky_heap ++ [None].
Proof.
  assert (L : Capacity two_ints < 5) by (cbv; lia).
  assert (Hfit : fits throwing_ops 5) by reflexivity.
  split; [exact unlucky_is_vector |]. split; [exact L |]. split; [exact Hfit |].
  split; [reflexivity |]. split; [reflexivity |].
  destruct (Reserve_strong_guarantee throwing_ops two_ints unlucky_heap [1; 13] 5
              unlucky_is_vector L Hfit eq_refl eq_refl)
    as (h' & Hrun & Hv & Hk & Hb & _).
  exists h'. split; [exact Hrun |]. split; [exact Hv |]. split; [exact Hk | exact Hb].
Defined.

Lemma Resize_value_init_throws_witness :
  is_vector (two_ints, two_ints_heap) [7; 8] /\
  Size two_ints < 5 /\
  fits throwing_default_ops 5 /\
  Forall (relocates throwing_default_ops) [7; 8] /\
  value_init throwing_default_ops 0 = Ok 0 /\
  value_init throwing_default_ops 1 = Ok 0 /\
  value_init throwing_default_ops 2 = Throw /\
  value_init_all throwing_default_ops 0 (5 - Size two_ints) = Throw /\
  exists v' h',
    Resize throwing_default_ops 5 (two_ints, two_ints_heap) = (Throw, (v', h')) /\
    is_vector (v', h') [7; 8] /\
    Size v' = 2 /\ Capacity v' = 5 /\
    leaked h' = [].
Proof.
  assert (L : Size two_ints < 5) by (cbv; lia).
  assert (Hfit : fits throwing_default_ops 5) by reflexivity.
  assert (F : Forall (relocates throwing_default_ops) [7; 8])
    by (repeat constructor; eexists; reflexivity).
  split; [exact two_ints_is_vector |]. split; [exact L |]. split; [exact Hfit |].
  split; [exact F |]. split; [reflexivity |]. split; [reflexivity |].
  split; [reflexivity |]. split; [reflexivity |].
  destruct (Resize_value_init_throws throwing_default_ops two_ints two_ints_heap
              [7; 8] 5 two_ints_is_vector L (fun _ => Hfit) (fun _ => F) eq_refl)
    as (v' & h' & Hrun & Hv & Hs & Hc & Hk).
  exists v', h'. split; [exact Hrun |]. split; [exact Hv |].
  split; [exact Hs |]. split; [exact Hc | exact Hk].
Defined.

Lemma moved_from_destructor_releases_nothing_witness :
  is_vector (two_ints, two_ints_heap) [7; 8] /\
  exists v,
    (let* (v, s') := Vector_move two_ints in Vector_delete s' ;;; ret v) two_ints_heap
    = (Ok v, two_ints_heap) /\
    is_vector (v, two_ints_heap) [7; 8].
Proof.
  split; [exact two_ints_is_vector |].
  exact (moved_from_destructor_releases_nothing two_ints two_ints_heap [7; 8]
           two_ints_is_vector).
Defined.

Lemma Vector_copy_independent_witness :
  is_vector (two_ints, two_ints_heap) [7; 8] /\
  Forall (fun y => copy_ctor int_ops y = Ok y) [7; 8] /\
  Forall (relocates int_ops) [7; 8] /\
  copy_ctor int_ops 9 = Ok 9 /\
  exists v h',
    (let* c := Vector_copy int_ops two_ints in
     let* (_, c') := call (PushBack int_ops 9) c in
     ret c') two_ints_heap = (Ok v, h') /\
    is_vector (v, h') [7; 8; 9] /\
    is_vector (two_ints, h') [7; 8].
Proof.
  assert (Fc : Forall (fun y => copy_ctor int_ops y = Ok y) [7; 8])
    by (repeat constructor).
  split; [exact two_ints_is_vector |]. split; [exact Fc |].
  split; [exact two_ints_relocate |]. split; [reflexivity |].
  destruct (Vector_copy_independent int_ops two_ints two_ints_heap [7; 8] 9
              two_ints_is_vector Fc two_ints_relocate eq_refl)
    as (v & h' & Hrun & Hv & Hs & _).
  exists v, h'. split; [exact Hrun |]. split; [exact Hv | exact Hs].
Defined.

Lemma position_out_of_range_witness :
  Size two_ints < 3 /\
  Emplace int_ops (ptr_add (begin two_ints) 3) (Ok 9) (two_ints, two_ints_heap)
  = (Fault, (two_ints, two_ints_heap)) /\
  Erase int_ops (ptr_add (begin two_ints) 3) (two_ints, two_ints_heap)
  = (Fault, (two_ints, two_ints_heap)).
Proof.
  assert (L : Size two_ints < 3) by (cbv; lia).
  split; [exact L |].
  destruct (position_out_of_range int_ops two_ints two_ints_heap 3 (Ok 9) 9 L)
    as (He & _ & _ & Hr).
  split; [exact He | exact Hr].
Defined.

Lemma Emplace_ctor_throws_witness :
  is_vector (three_ints, two_vectors_heap) [1; 2; 3] /\
  1 <= length [1; 2; 3] /\
  exists v' h',
    Emplace int_ops (ptr_add (begin three_ints) 1) Throw (three_ints, two_vectors_heap)
    = (Throw, (v', h')) /\
    is_vector (v', h') [1; 2; 3] /\
    v' = three_ints.
Proof.
  assert (L : 1 <= length [1; 2; 3]) by (simpl; lia).
  split; [exact three_ints_is_vector |]. split; [exact L |].
  destruct (Emplace_ctor_throws int_ops three_ints two_vectors_heap [1; 2; 3] 1
              three_ints_is_vector L)
    as (v' & h' & Hrun & Hv & _ & _ & Hsame & _).
  exists v', h'. split; [exact Hrun |]. split; [exact Hv |].
  apply Hsame. cbv. lia.
Defined.
